(** * GDALWarpKernel: a shallow embedding of alg/gdalwarpkernel.cpp

    The warp kernel moves pixel values from an in-memory source chunk to an
    in-memory destination chunk through a caller supplied coordinate
    transformer.  This file embeds [GWKSetPixelValue], [GWKGetPixelValue],
    [GWKGeneralCase], [GDALWarpKernel::Validate] and
    [GDALWarpKernel::PerformWarp] as executable functions and states the
    properties of the kernel over them.

    Conventions.
    - [int] and the fixed width integer types are [Z] with the wrap-around
      written out ([wrap_int]).
    - [double] is the primitive binary64 [float]; [float] buffers hold
      binary32 values, converted through [SpecFloat].
    - Image buffers are [GByte*]: lists of bytes, read and written through
      the typed views the code casts them to (little endian).
    - The kernel object [poWK] is passed and returned explicitly; the
      callbacks thread their context ([pTransformerArg], [pProgress]).
    - Every call that leaves the kernel (callbacks, CPLError, CPLMalloc,
      CPLFree) and every pixel access is recorded in an event log.
    - What C++ leaves undefined and the kernel nevertheless reads (a
      conversion of a double that the integer type cannot hold, an
      unassigned local, fresh heap memory) is a parameter of the model
      ([Indeterminate]); the general theorems hold for every value of
      it. *)

From Stdlib Require Import ZArith Bool Lia String Floats.
From stdpp Require Import base list.

Local Open Scope Z_scope.

(* ================================================================== *)
(** * Machine arithmetic                                                *)
(* ================================================================== *)

Module Mach.

(** Two's complement wrap-around of a [bits]-wide signed integer. *)
Definition wrap_int (bits : Z) (z : Z) : Z :=
  (z + 2 ^ (bits - 1)) mod 2 ^ bits - 2 ^ (bits - 1).

(** Wrap-around of a [bits]-wide unsigned integer. *)
Definition wrap_uint (bits : Z) (z : Z) : Z := z mod 2 ^ bits.

Definition int32 (z : Z) : Z := wrap_int 32 z.

Definition INT_MIN : Z := - 2 ^ 31.
Definition INT_MAX : Z := 2 ^ 31 - 1.

(** [(double) n] for an integer [n]. *)
Definition double_of_Z (z : Z) : float :=
  match z with
  | Z0 => PrimFloat.zero
  | Zpos _ => PrimFloat.of_uint63 (Uint63.of_Z z)
  | Zneg p => PrimFloat.opp (PrimFloat.of_uint63 (Uint63.of_Z (Zpos p)))
  end.

(** The integral part of a double, truncated toward zero; [None] for NaN
    and the infinities. *)
Definition trunc_SF (x : spec_float) : option Z :=
  match x with
  | S754_zero _ => Some 0
  | S754_finite s m e => Some (cond_Zopp s (Z.shiftl (Zpos m) e))
  | S754_infinity _ | S754_nan => None
  end.

Definition trunc_double (x : float) : option Z := trunc_SF (Prim2SF x).

(** What C++ leaves open and the kernel nevertheless reads: the result of
    converting a double whose truncation the target type cannot hold, the
    value found in a local [int] that was never assigned, and the contents
    of a freshly allocated [int] array. *)
Class Indeterminate := {
  fptoint_undef : float -> Z;
  stack_garbage : Z;
  heap_garbage  : nat -> Z
}.

(** [(T) x] for a double [x] and an integer type [T] with range
    [lo .. hi] and [bits] bits. *)
Definition fptoint {ind : Indeterminate} (signed : bool) (bits : Z) (x : float) : Z :=
  let lo := if signed then - 2 ^ (bits - 1) else 0 in
  let hi := if signed then 2 ^ (bits - 1) - 1 else 2 ^ bits - 1 in
  let junk := if signed then wrap_int bits (fptoint_undef x)
              else wrap_uint bits (fptoint_undef x) in
  match trunc_double x with
  | Some z => if (lo <=? z) && (z <=? hi) then z else junk
  | None => junk
  end.

(** ** IEEE 754 interchange encodings *)

Section Encoding.
Variables prec emax : Z.

Let mw : Z := prec - 1.                   (* stored mantissa bits *)
Let emin : Z := 3 - emax - prec.
Let emask : Z := 2 * emax - 1.            (* all-ones exponent field *)

Definition bits_of_SF (x : spec_float) : Z :=
  let sign (s : bool) := if s then Z.shiftl 1 (mw + Z.log2 (2 * emax)) else 0 in
  match x with
  | S754_zero s => sign s
  | S754_infinity s => sign s + Z.shiftl emask mw
  | S754_nan => Z.shiftl emask mw + Z.shiftl 1 (mw - 1)
  | S754_finite s m e =>
      sign s +
      (if Zpos m <? 2 ^ mw then Zpos m
       else Z.shiftl (e - emin + 1) mw + (Zpos m - 2 ^ mw))
  end.

Definition SF_of_bits (b : Z) : spec_float :=
  let s := Z.testbit b (mw + Z.log2 (2 * emax)) in
  let e := Z.land (Z.shiftr b mw) emask in
  let f := Z.land b (2 ^ mw - 1) in
  if e =? 0 then
    match f with Zpos m => S754_finite s m emin | _ => S754_zero s end
  else if e =? emask then
    (if f =? 0 then S754_infinity s else S754_nan)
  else
    match f + 2 ^ mw with
    | Zpos m => S754_finite s m (e - 1 + emin)
    | _ => S754_nan
    end.
End Encoding.

(** [(float) x]: rounding of a double to binary32 (to nearest, ties to
    even), as a [spec_float] of that format. *)
Definition single_of_double (x : float) : spec_float :=
  match Prim2SF x with
  | S754_finite s m e => binary_round 24 128 s m e
  | y => y
  end.

Definition bits_of_double (x : float) : Z := bits_of_SF 53 1024 (Prim2SF x).
Definition double_of_bits (b : Z) : float := SF2Prim (SF_of_bits 53 1024 b).
Definition bits_of_single (x : float) : Z := bits_of_SF 24 128 (single_of_double x).
(** A binary32 bit pattern widened to double, which is exact. *)
Definition double_of_single_bits (b : Z) : float := SF2Prim (SF_of_bits 24 128 b).

End Mach.

Import Mach.

(* ================================================================== *)
(** * Memory: byte buffers and the typed views cast onto them           *)
(* ================================================================== *)

Module Mem.

(** [l[i]] for a C array held in a list; an index outside the array reads
    the default (the access itself is logged by the driver). *)
Definition at_index {A} (d : A) (l : list A) (i : Z) : A :=
  if i <? 0 then d else default d (l !! Z.to_nat i).

(** [l[i] = x]; an index outside the array changes nothing. *)
Definition set_index {A} (l : list A) (i : Z) (x : A) : list A :=
  if i <? 0 then l else <[Z.to_nat i := x]> l.

(** Little endian read of [n] bytes at byte offset [off]. *)
Fixpoint peek (n : nat) (buf : list Z) (off : Z) : Z :=
  match n with
  | O => 0
  | S k => at_index 0 buf off + 256 * peek k buf (off + 1)
  end.

(** Little endian write of the low [n] bytes of [v] at byte offset [off]. *)
Fixpoint poke (n : nat) (buf : list Z) (off : Z) (v : Z) : list Z :=
  match n with
  | O => buf
  | S k => poke k (set_index buf off (v mod 256)) (off + 1) (v / 256)
  end.

(** Element [i] of the buffer [p] seen as an array of unsigned or signed
    integers of [bytes] bytes, of [float] or of [double], read and
    written. *)
Definition load_uint (bytes : nat) (p : list Z) (i : Z) : Z :=
  peek bytes p (Z.of_nat bytes * i).
Definition load_int (bytes : nat) (p : list Z) (i : Z) : Z :=
  wrap_int (8 * Z.of_nat bytes) (peek bytes p (Z.of_nat bytes * i)).
Definition store_int (bytes : nat) (p : list Z) (i : Z) (v : Z) : list Z :=
  poke bytes p (Z.of_nat bytes * i) (v mod 2 ^ (8 * Z.of_nat bytes)).
Definition load_float (p : list Z) (i : Z) : float :=
  double_of_single_bits (peek 4 p (4 * i)).
Definition store_float (p : list Z) (i : Z) (x : float) : list Z :=
  poke 4 p (4 * i) (bits_of_single x).
Definition load_double (p : list Z) (i : Z) : float :=
  double_of_bits (peek 8 p (8 * i)).
Definition store_double (p : list Z) (i : Z) (x : float) : list Z :=
  poke 8 p (8 * i) (bits_of_double x).

End Mem.

Import Mem.

(* ================================================================== *)
(** * The kernel object                                                 *)
(* ================================================================== *)

(** Modelled from the spec: the enumerations [GDALResampleAlg],
    [GDALDataType] and [CPLErr] and the error number [CPLE_UserInterrupt]
    are declared in headers outside this file (gdalwarper.h, gdal.h,
    cpl_error.h); the constructors are the enumerators the kernel names. *)
Inductive GDALResampleAlg := GRA_NearestNeighbour | GRA_Bilinear | GRA_Cubic.

Inductive GDALDataType :=
| GDT_Unknown
| GDT_Byte | GDT_UInt16 | GDT_Int16 | GDT_UInt32 | GDT_Int32
| GDT_Float32 | GDT_Float64
| GDT_CInt16 | GDT_CInt32 | GDT_CFloat32 | GDT_CFloat64.

Inductive CPLErr := CE_None | CE_Failure.

Inductive CPLErrorNum := CPLE_UserInterrupt.

(** What a call of the transformer leaves behind: its return value, the
    values it wrote to the coordinate and success arrays, and its
    context. *)
Record TransformResult (T : Type) := {
  tr_ok : bool;
  tr_x : list float;
  tr_y : list float;
  tr_z : list float;
  tr_success : list Z;
  tr_arg : T
}.
Arguments tr_ok {T}. Arguments tr_x {T}. Arguments tr_y {T}.
Arguments tr_z {T}. Arguments tr_success {T}. Arguments tr_arg {T}.

(** The transformer callback: context, direction, number of points, the
    three coordinate arrays and the success array. *)
Definition GDALTransformerFunc (T : Type) : Type :=
  T -> bool -> Z -> list float -> list float -> list float -> list Z ->
  TransformResult T.

(** The progress callback: fraction complete, message and context. *)
Definition GDALProgressFunc (P : Type) : Type :=
  float -> string -> P -> bool * P.

(** Modelled from the spec: the class [GDALWarpKernel] is declared in
    gdalwarper.h, outside this file.  The fields are those that the
    constructor initialises, with the types that the documentation of the
    data members in this file gives them; [T] and [P] are the types of
    what the two [void*] callback arguments point to.  A plane that may
    be NULL is an [option]. *)
Record GDALWarpKernel (T P : Type) := {
  eResample : GDALResampleAlg;
  eWorkingDataType : GDALDataType;
  nBands : Z;
  nSrcXSize : Z;
  nSrcYSize : Z;
  papabySrcImage : list (list Z);
  papanBandSrcValid : option (list (option (list Z)));
  panUnifiedSrcValid : option (list Z);
  pafUnifiedSrcDensity : option (list float);
  nDstXSize : Z;
  nDstYSize : Z;
  papabyDstImage : list (list Z);
  panDstValid : option (list Z);
  pafDstDensity : option (list float);
  nSrcXOff : Z;
  nSrcYOff : Z;
  nDstXOff : Z;
  nDstYOff : Z;
  pfnTransformer : GDALTransformerFunc T;
  pTransformerArg : T;
  pfnProgress : GDALProgressFunc P;
  pProgress : P;
  dfProgressBase : float;
  dfProgressScale : float
}.

Arguments eResample {T P}. Arguments eWorkingDataType {T P}.
Arguments nBands {T P}. Arguments nSrcXSize {T P}. Arguments nSrcYSize {T P}.
Arguments papabySrcImage {T P}. Arguments papanBandSrcValid {T P}.
Arguments panUnifiedSrcValid {T P}. Arguments pafUnifiedSrcDensity {T P}.
Arguments nDstXSize {T P}. Arguments nDstYSize {T P}.
Arguments papabyDstImage {T P}. Arguments panDstValid {T P}.
Arguments pafDstDensity {T P}. Arguments nSrcXOff {T P}.
Arguments nSrcYOff {T P}. Arguments nDstXOff {T P}. Arguments nDstYOff {T P}.
Arguments pfnTransformer {T P}. Arguments pTransformerArg {T P}.
Arguments pfnProgress {T P}. Arguments pProgress {T P}.
Arguments dfProgressBase {T P}. Arguments dfProgressScale {T P}.

(** Everything the kernel does that is visible from outside it. *)
Inductive event :=
| EvProgress (dfComplete : float) (bContinue : bool)
| EvTransform (iDstY : Z) (bOverall : bool) (panSuccess : list Z)
| EvError (eErrClass : CPLErr) (err_no : CPLErrorNum) (msg : string)
| EvMalloc (name : string)
| EvFree (name : string)
| EvGetPixel (iBand iSrcOffset : Z)
| EvSetPixel (iBand iDstOffset : Z).

(** Views of a log: the pixel reads and writes (band, element offset), the
    calls of the progress callback (fraction, answer), the calls of the
    transformer (line, return value, success array), the errors reported
    and the arrays allocated and freed. *)
Definition get_pixels (tr : list event) : list (Z * Z) :=
  omap (fun e => match e with EvGetPixel b o => Some (b, o) | _ => None end) tr.
Definition set_pixels (tr : list event) : list (Z * Z) :=
  omap (fun e => match e with EvSetPixel b o => Some (b, o) | _ => None end) tr.
Definition progress_calls (tr : list event) : list (float * bool) :=
  omap (fun e => match e with EvProgress f b => Some (f, b) | _ => None end) tr.
Definition transformer_calls (tr : list event) : list (Z * bool * list Z) :=
  omap (fun e => match e with
                 | EvTransform y b s => Some (y, b, s) | _ => None end) tr.
Definition errors (tr : list event) : list (CPLErr * CPLErrorNum * string) :=
  omap (fun e => match e with
                 | EvError c n m => Some (c, n, m) | _ => None end) tr.
(** The answers of the progress callback, in order. *)
Definition answers (tr : list event) : list bool := (progress_calls tr).*2.
Definition allocated (tr : list event) : list string :=
  omap (fun e => match e with EvMalloc a => Some a | _ => None end) tr.
Definition freed (tr : list event) : list string :=
  omap (fun e => match e with EvFree a => Some a | _ => None end) tr.

(** The log without the pixel reads and writes. *)
Definition outer (tr : list event) : list event :=
  omap (fun e => match e with
                 | EvGetPixel _ _ | EvSetPixel _ _ => None
                 | _ => Some e
                 end) tr.

(** The calls of the two callbacks, in the order in which they were
    made. *)
Inductive callback :=
| CallProgress (dfComplete : float) (bContinue : bool)
| CallTransformer (iDstY : Z).

Definition callbacks (tr : list event) : list callback :=
  omap (fun e => match e with
                 | EvProgress f b => Some (CallProgress f b)
                 | EvTransform y _ _ => Some (CallTransformer y)
                 | _ => None
                 end) tr.

Section Kernel.
Context {T P : Type} {ind : Indeterminate}.

Local Abbreviation Kernel := (GDALWarpKernel T P).

(** Assignments through [poWK]: the fields the kernel writes. *)
Definition with_papabyDstImage (poWK : Kernel) (img : list (list Z)) : Kernel :=
  {| eResample := eResample poWK;
     eWorkingDataType := eWorkingDataType poWK;
     nBands := nBands poWK;
     nSrcXSize := nSrcXSize poWK;
     nSrcYSize := nSrcYSize poWK;
     papabySrcImage := papabySrcImage poWK;
     papanBandSrcValid := papanBandSrcValid poWK;
     panUnifiedSrcValid := panUnifiedSrcValid poWK;
     pafUnifiedSrcDensity := pafUnifiedSrcDensity poWK;
     nDstXSize := nDstXSize poWK;
     nDstYSize := nDstYSize poWK;
     papabyDstImage := img;
     panDstValid := panDstValid poWK;
     pafDstDensity := pafDstDensity poWK;
     nSrcXOff := nSrcXOff poWK;
     nSrcYOff := nSrcYOff poWK;
     nDstXOff := nDstXOff poWK;
     nDstYOff := nDstYOff poWK;
     pfnTransformer := pfnTransformer poWK;
     pTransformerArg := pTransformerArg poWK;
     pfnProgress := pfnProgress poWK;
     pProgress := pProgress poWK;
     dfProgressBase := dfProgressBase poWK;
     dfProgressScale := dfProgressScale poWK |}.

Definition with_pTransformerArg (poWK : Kernel) (arg : T) : Kernel :=
  {| eResample := eResample poWK;
     eWorkingDataType := eWorkingDataType poWK;
     nBands := nBands poWK;
     nSrcXSize := nSrcXSize poWK;
     nSrcYSize := nSrcYSize poWK;
     papabySrcImage := papabySrcImage poWK;
     papanBandSrcValid := papanBandSrcValid poWK;
     panUnifiedSrcValid := panUnifiedSrcValid poWK;
     pafUnifiedSrcDensity := pafUnifiedSrcDensity poWK;
     nDstXSize := nDstXSize poWK;
     nDstYSize := nDstYSize poWK;
     papabyDstImage := papabyDstImage poWK;
     panDstValid := panDstValid poWK;
     pafDstDensity := pafDstDensity poWK;
     nSrcXOff := nSrcXOff poWK;
     nSrcYOff := nSrcYOff poWK;
     nDstXOff := nDstXOff poWK;
     nDstYOff := nDstYOff poWK;
     pfnTransformer := pfnTransformer poWK;
     pTransformerArg := arg;
     pfnProgress := pfnProgress poWK;
     pProgress := pProgress poWK;
     dfProgressBase := dfProgressBase poWK;
     dfProgressScale := dfProgressScale poWK |}.

Definition with_pProgress (poWK : Kernel) (arg : P) : Kernel :=
  {| eResample := eResample poWK;
     eWorkingDataType := eWorkingDataType poWK;
     nBands := nBands poWK;
     nSrcXSize := nSrcXSize poWK;
     nSrcYSize := nSrcYSize poWK;
     papabySrcImage := papabySrcImage poWK;
     papanBandSrcValid := papanBandSrcValid poWK;
     panUnifiedSrcValid := panUnifiedSrcValid poWK;
     pafUnifiedSrcDensity := pafUnifiedSrcDensity poWK;
     nDstXSize := nDstXSize poWK;
     nDstYSize := nDstYSize poWK;
     papabyDstImage := papabyDstImage poWK;
     panDstValid := panDstValid poWK;
     pafDstDensity := pafDstDensity poWK;
     nSrcXOff := nSrcXOff poWK;
     nSrcYOff := nSrcYOff poWK;
     nDstXOff := nDstXOff poWK;
     nDstYOff := nDstYOff poWK;
     pfnTransformer := pfnTransformer poWK;
     pTransformerArg := pTransformerArg poWK;
     pfnProgress := pfnProgress poWK;
     pProgress := arg;
     dfProgressBase := dfProgressBase poWK;
     dfProgressScale := dfProgressScale poWK |}.

(** The kernel [poWK] with another progress callback. *)
Definition with_pfnProgress (poWK : Kernel) (pfn : GDALProgressFunc P)
    : Kernel :=
  {| eResample := eResample poWK;
     eWorkingDataType := eWorkingDataType poWK;
     nBands := nBands poWK;
     nSrcXSize := nSrcXSize poWK;
     nSrcYSize := nSrcYSize poWK;
     papabySrcImage := papabySrcImage poWK;
     papanBandSrcValid := papanBandSrcValid poWK;
     panUnifiedSrcValid := panUnifiedSrcValid poWK;
     pafUnifiedSrcDensity := pafUnifiedSrcDensity poWK;
     nDstXSize := nDstXSize poWK;
     nDstYSize := nDstYSize poWK;
     papabyDstImage := papabyDstImage poWK;
     panDstValid := panDstValid poWK;
     pafDstDensity := pafDstDensity poWK;
     nSrcXOff := nSrcXOff poWK;
     nSrcYOff := nSrcYOff poWK;
     nDstXOff := nDstXOff poWK;
     nDstYOff := nDstYOff poWK;
     pfnTransformer := pfnTransformer poWK;
     pTransformerArg := pTransformerArg poWK;
     pfnProgress := pfn;
     pProgress := pProgress poWK;
     dfProgressBase := dfProgressBase poWK;
     dfProgressScale := dfProgressScale poWK |}.

(** The fields of the kernel object that a warp only reads. *)
Definition config (poWK : Kernel) :=
  (eResample poWK, eWorkingDataType poWK, nBands poWK,
   (nSrcXSize poWK, nSrcYSize poWK, nSrcXOff poWK, nSrcYOff poWK),
   (papabySrcImage poWK, papanBandSrcValid poWK, panUnifiedSrcValid poWK,
    pafUnifiedSrcDensity poWK),
   (nDstXSize poWK, nDstYSize poWK, nDstXOff poWK, nDstYOff poWK),
   (panDstValid poWK, pafDstDensity poWK),
   pfnTransformer poWK,
   (pfnProgress poWK, dfProgressBase poWK, dfProgressScale poWK)).

(* ================================================================== *)
(** * GWKSetPixelValue                                                  *)
(* ================================================================== *)

(** The body of [GWKSetPixelValue] on the band buffer [pabyDst]: the new
    contents of the buffer, or [None] for the [default:] label, where the
    function returns FALSE and has written nothing.  [dfDensity] is a
    parameter of the function that its body never reads. *)
Definition GWKSetPixelValue_band (eType : GDALDataType) (pabyDst : list Z)
    (iDstOffset : Z) (dfReal dfImag : float) : option (list Z) :=
  match eType with
  | GDT_Byte =>
      Some (if (dfReal <? 0)%float then
              store_int 1 pabyDst iDstOffset 0
            else if (255 <? dfReal)%float then
              store_int 1 pabyDst iDstOffset 255
            else
              store_int 1 pabyDst iDstOffset (fptoint false 8 dfReal))
  | GDT_Int16 =>
      Some (if (dfReal <? -32768)%float then
              store_int 2 pabyDst iDstOffset (-32768)
            else if (32767 <? dfReal)%float then
              store_int 2 pabyDst iDstOffset 32767
            else
              store_int 2 pabyDst iDstOffset (fptoint true 16 dfReal))
  | GDT_UInt16 =>
      Some (if (dfReal <? 0)%float then
              store_int 2 pabyDst iDstOffset 0
            else if (65535 <? dfReal)%float then
              store_int 2 pabyDst iDstOffset 65535
            else
              store_int 2 pabyDst iDstOffset (fptoint false 16 dfReal))
  | GDT_UInt32 =>
      Some (if (dfReal <? 0)%float then
              store_int 4 pabyDst iDstOffset 0
            else if (4294967295 <? dfReal)%float then
              store_int 4 pabyDst iDstOffset (fptoint false 32 4294967295%float)
            else
              store_int 4 pabyDst iDstOffset (fptoint false 32 dfReal))
  | GDT_Int32 =>
      Some (if (dfReal <? 2147483648)%float then
              store_int 4 pabyDst iDstOffset 0
            else if (2147483647 <? dfReal)%float then
              store_int 4 pabyDst iDstOffset 2147483647
            else
              store_int 4 pabyDst iDstOffset (fptoint true 32 dfReal))
  | GDT_Float32 => Some (store_float pabyDst iDstOffset dfReal)
  | GDT_Float64 => Some (store_double pabyDst iDstOffset dfReal)
  | GDT_CInt16 =>
      let iRe := int32 (iDstOffset * 2) in
      let iIm := int32 (int32 (iDstOffset * 2) + 1) in
      let p1 :=
        if (dfReal <? -32768)%float then store_int 2 pabyDst iRe (-32768)
        else if (32767 <? dfReal)%float then store_int 2 pabyDst iRe 32767
        else store_int 2 pabyDst iRe (fptoint true 16 dfReal) in
      Some (if (dfImag <? -32768)%float then store_int 2 p1 iIm (-32768)
            else if (32767 <? dfImag)%float then store_int 2 p1 iIm 32767
            else store_int 2 p1 iIm (fptoint true 16 dfImag))
  | GDT_CInt32 =>
      let iRe := int32 (iDstOffset * 2) in
      let iIm := int32 (int32 (iDstOffset * 2) + 1) in
      let p1 :=
        if (dfReal <? -2147483648)%float then
          store_int 4 pabyDst iRe (fptoint true 32 (-2147483648)%float)
        else if (2147483647 <? dfReal)%float then
          store_int 4 pabyDst iRe (fptoint true 32 2147483647%float)
        else store_int 4 pabyDst iRe (fptoint true 32 dfReal) in
      Some (if (dfImag <? -2147483648)%float then
              store_int 4 p1 iIm (fptoint true 32 (-2147483648)%float)
            else if (2147483647 <? dfImag)%float then
              store_int 4 p1 iIm (fptoint true 32 2147483647%float)
            else store_int 4 p1 iIm (fptoint true 32 dfImag))
  | GDT_CFloat32 =>
      let iRe := int32 (iDstOffset * 2) in
      let iIm := int32 (int32 (iDstOffset * 2) + 1) in
      Some (store_float (store_float pabyDst iRe dfReal) iIm dfImag)
  | GDT_CFloat64 =>
      let iRe := int32 (iDstOffset * 2) in
      let iIm := int32 (int32 (iDstOffset * 2) + 1) in
      Some (store_double (store_double pabyDst iRe dfReal) iIm dfImag)
  | GDT_Unknown => None
  end.

(** [GWKSetPixelValue]: the return value (TRUE or FALSE) and the kernel
    afterwards.  Only [papabyDstImage[iBand]] is assigned; neither
    [pafDstDensity] nor [panDstValid] is. *)
Definition GWKSetPixelValue (poWK : Kernel) (iBand iDstOffset : Z)
    (dfDensity dfReal dfImag : float) : bool * Kernel :=
  let pabyDst := at_index [] (papabyDstImage poWK) iBand in
  match GWKSetPixelValue_band (eWorkingDataType poWK) pabyDst iDstOffset
          dfReal dfImag with
  | Some pabyDst' =>
      (true, with_papabyDstImage poWK
               (set_index (papabyDstImage poWK) iBand pabyDst'))
  | None => (false, poWK)
  end.

(* ================================================================== *)
(** * GWKGetPixelValue                                                  *)
(* ================================================================== *)

(** The C operator [a && b] on integers, as a truth value. *)
Definition c_logical_and (a b : Z) : bool := negb (a =? 0) && negb (b =? 0).

(** The test the kernel applies to a validity plane:
    [panValid[iOffset>>5] && (0x01 << (iOffset & 0x1f))]. *)
Definition GWK_mask_test (panValid : list Z) (iOffset : Z) : bool :=
  c_logical_and (at_index 0 panValid (Z.shiftr iOffset 5))
                (int32 (Z.shiftl 1 (Z.land iOffset 31))).

(** The [switch] of [GWKGetPixelValue]: the pair (real, imaginary) of
    element [iSrcOffset], or [None] for the [default:] label. *)
Definition GWKGetPixelValue_band (eType : GDALDataType) (pabySrc : list Z)
    (iSrcOffset : Z) : option (float * float) :=
  let iRe := int32 (iSrcOffset * 2) in
  let iIm := int32 (int32 (iSrcOffset * 2) + 1) in
  match eType with
  | GDT_Byte => Some (double_of_Z (load_uint 1 pabySrc iSrcOffset), 0%float)
  | GDT_Int16 => Some (double_of_Z (load_int 2 pabySrc iSrcOffset), 0%float)
  | GDT_UInt16 => Some (double_of_Z (load_uint 2 pabySrc iSrcOffset), 0%float)
  | GDT_Int32 => Some (double_of_Z (load_int 4 pabySrc iSrcOffset), 0%float)
  | GDT_UInt32 => Some (double_of_Z (load_uint 4 pabySrc iSrcOffset), 0%float)
  | GDT_Float32 => Some (load_float pabySrc iSrcOffset, 0%float)
  | GDT_Float64 => Some (load_double pabySrc iSrcOffset, 0%float)
  | GDT_CInt16 => Some (double_of_Z (load_int 2 pabySrc iRe),
                        double_of_Z (load_int 2 pabySrc iIm))
  | GDT_CInt32 => Some (double_of_Z (load_int 4 pabySrc iRe),
                        double_of_Z (load_int 4 pabySrc iIm))
  | GDT_CFloat32 => Some (load_float pabySrc iRe, load_float pabySrc iIm)
  | GDT_CFloat64 => Some (load_double pabySrc iRe, load_double pabySrc iIm)
  | GDT_Unknown => None
  end.

(** [GWKGetPixelValue].  The three out-parameters come in with the values
    the caller gave them and go out as the function left them; the first
    component is the return value. *)
Definition GWKGetPixelValue (poWK : Kernel) (iBand iSrcOffset : Z)
    (pdfDensity pdfReal pdfImag : float) : bool * (float * float * float) :=
  let pabySrc := at_index [] (papabySrcImage poWK) iBand in
  if match panUnifiedSrcValid poWK with
     | Some panValid => negb (GWK_mask_test panValid iSrcOffset)
     | None => false
     end
  then (false, (0%float, pdfReal, pdfImag))
  else if match papanBandSrcValid poWK with
          | Some papanValid =>
              match at_index None papanValid iBand with
              | Some panValid => negb (GWK_mask_test panValid iSrcOffset)
              | None => false
              end
          | None => false
          end
  then (false, (0%float, pdfReal, pdfImag))
  else
    match GWKGetPixelValue_band (eWorkingDataType poWK) pabySrc iSrcOffset with
    | None => (false, (0%float, pdfReal, pdfImag))
    | Some (dfReal, dfImag) =>
        let dfDensity :=
          match pafUnifiedSrcDensity poWK with
          | Some pafDensity => at_index 0%float pafDensity iSrcOffset
          | None => 1%float
          end in
        (negb (dfDensity =? 0)%float, (dfDensity, dfReal, dfImag))
    end.

(* ================================================================== *)
(** * GWKGeneralCase                                                    *)
(* ================================================================== *)

(** What the callee writes into a caller owned array: the array keeps its
    size, and the entries the callee did not reach keep their values. *)
Definition overwrite {A} (old new : list A) : list A :=
  take (length old) new ++ drop (length new) old.

(** [for( i = 0; i < n; i++ ) body], with a body that does not assign [i]. *)
Definition for_upto {S} (n : Z) (body : Z -> S -> S) (s : S) : S :=
  foldl (fun s i => body i s) s (seqZ 0 n).

(** The state of a run of [GWKGeneralCase]: the kernel object, the local
    [eErr], the success array (allocated once, before the loop over the
    lines) and the log. *)
Record GWKState := {
  wk : Kernel;
  eErr : CPLErr;
  pabSuccess : list Z;
  trace : list event
}.

Definition emit (e : event) (st : GWKState) : GWKState :=
  {| wk := wk st; eErr := eErr st; pabSuccess := pabSuccess st;
     trace := trace st ++ [e] |}.

Definition set_wk (poWK : Kernel) (st : GWKState) : GWKState :=
  {| wk := poWK; eErr := eErr st; pabSuccess := pabSuccess st;
     trace := trace st |}.

Definition set_eErr (e : CPLErr) (st : GWKState) : GWKState :=
  {| wk := wk st; eErr := e; pabSuccess := pabSuccess st;
     trace := trace st |}.

Definition set_pabSuccess (l : list Z) (st : GWKState) : GWKState :=
  {| wk := wk st; eErr := eErr st; pabSuccess := l; trace := trace st |}.

(** The argument of both calls of [pfnProgress]. *)
Definition GWK_fraction (poWK : Kernel) (iDstY : Z) : float :=
  (dfProgressBase poWK + dfProgressScale poWK *
     (double_of_Z (int32 (iDstY + 1)) / double_of_Z (nDstYSize poWK)))%float.

(** A call of [pfnProgress] with the line counter at [iDstY]: the answer
    and the state afterwards. *)
Definition GWK_progress (iDstY : Z) (st : GWKState) : bool * GWKState :=
  let poWK := wk st in
  let dfComplete := GWK_fraction poWK iDstY in
  let '(bContinue, pArg) := pfnProgress poWK dfComplete EmptyString (pProgress poWK) in
  (bContinue,
   emit (EvProgress dfComplete bContinue) (set_wk (with_pProgress poWK pArg) st)).

(** The body of the loop over the bands. *)
Definition GWK_band (iSrcOffset iDstOffset : Z) (iBand : Z) (st : GWKState)
    : GWKState :=
  let poWK := wk st in
  let dfDensity := 0%float in
  let dfValueReal := 0%float in
  let dfValueImag := 0%float in
  let '(dfDensity, dfValueReal, dfValueImag, st) :=
    match eResample poWK with
    | GRA_NearestNeighbour =>
        let '(_, (d, r, i)) :=
          GWKGetPixelValue poWK iBand iSrcOffset
                           dfDensity dfValueReal dfValueImag in
        (d, r, i, emit (EvGetPixel iBand iSrcOffset) st)
    | GRA_Bilinear => (dfDensity, dfValueReal, dfValueImag, st)
    | GRA_Cubic => (dfDensity, dfValueReal, dfValueImag, st)
    end in
  if (dfDensity =? 0)%float then st
  else
    let '(_, poWK') :=
      GWKSetPixelValue poWK iBand iDstOffset
                       dfDensity dfValueReal dfValueImag in
    emit (EvSetPixel iBand iDstOffset) (set_wk poWK' st).

(** The body of the loop over the pixels of an output scanline. *)
Definition GWK_pixel (nResWinSize : Z) (padfX padfY : list float)
    (iDstY iDstX : Z) (st : GWKState) : GWKState :=
  let poWK := wk st in
  if at_index 0 (pabSuccess st) iDstX =? 0 then st
  else
    let x := at_index 0%float padfX iDstX in
    let y := at_index 0%float padfY iDstX in
    if (x <? double_of_Z (int32 (nSrcXOff poWK + nResWinSize)))%float
       || (y <? double_of_Z (int32 (nSrcYOff poWK + nResWinSize)))%float
    then st
    else
      let iSrcX := int32 (fptoint true 32 x - nSrcXOff poWK) in
      let iSrcY := int32 (fptoint true 32 y - nSrcYOff poWK) in
      if (iSrcX >=? int32 (nSrcXSize poWK - nResWinSize))
         || (iSrcY >=? int32 (nSrcYSize poWK - nResWinSize))
      then st
      else
        let iSrcOffset := int32 (iSrcX + int32 (iSrcY * nSrcXSize poWK)) in
        let iDstOffset := int32 (iDstX + int32 (iDstY * nDstXSize poWK)) in
        if match panDstValid poWK with
           | Some panValid => GWK_mask_test panValid iDstOffset
           | None => false
           end
        then st
        else for_upto (nBands poWK) (GWK_band iSrcOffset iDstOffset) st.

(** The first half of the body of the loop over the output lines: the
    points of line [iDstY] are set up and handed to the transformer, whose
    return value is dropped.  The result is the arrays [padfX] and [padfY]
    and the state afterwards. *)
Definition GWK_transform (iDstY : Z) (st : GWKState)
    : list float * list float * GWKState :=
  let poWK := wk st in
  let n := nDstXSize poWK in
  let padfX :=
    (fun iDstX => double_of_Z iDstX + 0.5 + double_of_Z (nDstXOff poWK))%float
      <$> seqZ 0 n in
  let padfY :=
    (fun _ => double_of_Z iDstY + 0.5 + double_of_Z (nDstYOff poWK))%float
      <$> seqZ 0 n in
  let padfZ := (fun _ => 0%float) <$> seqZ 0 n in
  let r := pfnTransformer poWK (pTransformerArg poWK) true n
                          padfX padfY padfZ (pabSuccess st) in
  let padfX := overwrite padfX (tr_x r) in
  let padfY := overwrite padfY (tr_y r) in
  let st := set_pabSuccess (overwrite (pabSuccess st) (tr_success r)) st in
  let st := set_wk (with_pTransformerArg poWK (tr_arg r)) st in
  let st := emit (EvTransform iDstY (tr_ok r) (pabSuccess st)) st in
  (padfX, padfY, st).

(** The end of the body of the loop over the output lines: progress is
    reported, and a false answer is turned into [CE_Failure]. *)
Definition GWK_report (iDstY : Z) (st : GWKState) : GWKState :=
  let '(bContinue, st) := GWK_progress iDstY st in
  if bContinue then st
  else
    set_eErr CE_Failure
      (emit (EvError CE_Failure CPLE_UserInterrupt "User terminated"%string) st).

(** The body of the loop over the output lines. *)
Definition GWK_scanline (nResWinSize : Z) (iDstY : Z) (st : GWKState)
    : GWKState :=
  let n := nDstXSize (wk st) in
  let '(padfX, padfY, st) := GWK_transform iDstY st in
  let st := for_upto n (GWK_pixel nResWinSize padfX padfY iDstY) st in
  GWK_report iDstY st.

Definition GWK_nResWinSize (poWK : Kernel) : Z :=
  let nResWinSize := 0 in
  let nResWinSize :=
    match eResample poWK with GRA_Bilinear => 1 | _ => nResWinSize end in
  match eResample poWK with GRA_Cubic => 2 | _ => nResWinSize end.

(** The loop over the output lines, which stops at the first line after
    which [eErr] is no longer [CE_None]. *)
Definition GWK_line (iDstY : Z) (st : GWKState) : GWKState :=
  match eErr st with
  | CE_None => GWK_scanline (GWK_nResWinSize (wk st)) iDstY st
  | CE_Failure => st
  end.

Definition GWK_lines (st : GWKState) : GWKState :=
  for_upto (nDstYSize (wk st)) GWK_line st.

(** [GWKGeneralCase].  The local [iDstY] is read by the first call of
    [pfnProgress] before anything was assigned to it. *)
Definition GWKGeneralCase (poWK : Kernel) : GWKState :=
  let iDstY := stack_garbage in
  let st := {| wk := poWK; eErr := CE_None; pabSuccess := []; trace := [] |} in
  let '(bContinue, st) := GWK_progress iDstY st in
  if negb bContinue then
    set_eErr CE_Failure
      (emit (EvError CE_Failure CPLE_UserInterrupt "User terminated"%string) st)
  else
    let st := emit (EvMalloc "padfX"%string) st in
    let st := emit (EvMalloc "padfY"%string) st in
    let st := emit (EvMalloc "padfZ"%string) st in
    let st := emit (EvMalloc "pabSuccess"%string) st in
    let st :=
      set_pabSuccess (heap_garbage <$> seq 0 (Z.to_nat (nDstXSize poWK))) st in
    let st := GWK_lines st in
    let st := emit (EvFree "padfX"%string) st in
    let st := emit (EvFree "padfY"%string) st in
    let st := emit (EvFree "padfZ"%string) st in
    let st := emit (EvFree "pabSuccess"%string) st in
    st.

(* ================================================================== *)
(** * Validate and PerformWarp                                          *)
(* ================================================================== *)

(** [GDALWarpKernel::Validate]: its body is [return CE_None;]. *)
Definition Validate (poWK : Kernel) : CPLErr := CE_None.

(** [GDALWarpKernel::PerformWarp]. *)
Definition PerformWarp (poWK : Kernel) : GWKState :=
  match Validate poWK with
  | CE_None => GWKGeneralCase poWK
  | eErr => {| wk := poWK; eErr := eErr; pabSuccess := []; trace := [] |}
  end.

End Kernel.

(* ================================================================== *)
(** * Callbacks and kernels used in the scenarios                       *)
(* ================================================================== *)

(** Modelled from the spec: [GDALDummyProgress], the default progress
    callback that the constructor installs, is defined outside this file;
    it returns true unconditionally. *)
Definition GDALDummyProgress {P : Type} : GDALProgressFunc P :=
  fun _ _ pArg => (true, pArg).

Module Scenario.

(** The conversion results of the x86-64 instruction cvttsd2si, which
    yields the "integer indefinite" value for NaN and for values out of
    range, with arbitrary garbage on the stack and the heap. *)
Definition x86_64 : Indeterminate :=
  {| fptoint_undef := fun _ => INT_MIN;
     stack_garbage := 12345;
     heap_garbage := fun _ => 7 |}.

(** The conversion results of the AArch64 instruction fcvtzs, which
    yields 0 for NaN and saturates values out of range, with the same
    garbage. *)
Definition aarch64 : Indeterminate :=
  {| fptoint_undef := fun x =>
       if PrimFloat.is_nan x then 0
       else if (x <? 0)%float then INT_MIN else INT_MAX;
     stack_garbage := 12345;
     heap_garbage := fun _ => 7 |}.

(** A transformer that returns its input coordinates unchanged, with all
    success flags set and overall success. *)
Definition identity_transformer : GDALTransformerFunc unit :=
  fun pArg _ nPoints x y z _ =>
    {| tr_ok := true; tr_x := x; tr_y := y; tr_z := z;
       tr_success := replicate (Z.to_nat nPoints) 1; tr_arg := pArg |}.

(** A transformer that returns its input coordinates unchanged but
    reports overall failure, and failure for the points of odd index. *)
Definition half_failing_transformer : GDALTransformerFunc unit :=
  fun pArg _ nPoints x y z _ =>
    {| tr_ok := false; tr_x := x; tr_y := y; tr_z := z;
       tr_success := (fun i => if Z.even i then 1 else 0) <$> seqZ 0 nPoints;
       tr_arg := pArg |}.

(** A transformer that maps every point to the fixed source location
    [(x0, y0)], with the given return value and success flag. *)
Definition constant_transformer (bOverall : bool) (bPoint : Z)
    (x0 y0 : float) : GDALTransformerFunc unit :=
  fun pArg _ nPoints x y z _ =>
    {| tr_ok := bOverall;
       tr_x := replicate (Z.to_nat nPoints) x0;
       tr_y := replicate (Z.to_nat nPoints) y0;
       tr_z := z;
       tr_success := replicate (Z.to_nat nPoints) bPoint;
       tr_arg := pArg |}.

(** A progress callback that counts its calls in its context and answers
    false at the call whose number (from 0) is [nStop]. *)
Definition cancel_at (nStop : nat) : GDALProgressFunc nat :=
  fun _ _ nCalls => (negb (Nat.eqb nCalls nStop), S nCalls).

(** A kernel with one band, Nearest resampling, no masks and all offsets
    zero, over the given source and destination buffers. *)
Definition plain_kernel {T P : Type} (eType : GDALDataType)
    (nSrcX nSrcY : Z) (src : list Z) (nDstX nDstY : Z) (dst : list Z)
    (pfnT : GDALTransformerFunc T) (pT : T)
    (pfnP : GDALProgressFunc P) (pP : P) : GDALWarpKernel T P :=
  {| eResample := GRA_NearestNeighbour;
     eWorkingDataType := eType;
     nBands := 1;
     nSrcXSize := nSrcX; nSrcYSize := nSrcY;
     papabySrcImage := [src];
     papanBandSrcValid := None;
     panUnifiedSrcValid := None;
     pafUnifiedSrcDensity := None;
     nDstXSize := nDstX; nDstYSize := nDstY;
     papabyDstImage := [dst];
     panDstValid := None;
     pafDstDensity := None;
     nSrcXOff := 0; nSrcYOff := 0; nDstXOff := 0; nDstYOff := 0;
     pfnTransformer := pfnT; pTransformerArg := pT;
     pfnProgress := pfnP; pProgress := pP;
     dfProgressBase := 0; dfProgressScale := 1 |}.

(** The same kernel with the three source masks and the two destination
    masks replaced. *)
Definition with_masks {T P : Type} (k : GDALWarpKernel T P)
    (panSrcValid : option (list Z)) (panDst : option (list Z))
    (pafDst : option (list float)) : GDALWarpKernel T P :=
  {| eResample := eResample k;
     eWorkingDataType := eWorkingDataType k;
     nBands := nBands k;
     nSrcXSize := nSrcXSize k; nSrcYSize := nSrcYSize k;
     papabySrcImage := papabySrcImage k;
     papanBandSrcValid := papanBandSrcValid k;
     panUnifiedSrcValid := panSrcValid;
     pafUnifiedSrcDensity := pafUnifiedSrcDensity k;
     nDstXSize := nDstXSize k; nDstYSize := nDstYSize k;
     papabyDstImage := papabyDstImage k;
     panDstValid := panDst;
     pafDstDensity := pafDst;
     nSrcXOff := nSrcXOff k; nSrcYOff := nSrcYOff k;
     nDstXOff := nDstXOff k; nDstYOff := nDstYOff k;
     pfnTransformer := pfnTransformer k;
     pTransformerArg := pTransformerArg k;
     pfnProgress := pfnProgress k; pProgress := pProgress k;
     dfProgressBase := dfProgressBase k;
     dfProgressScale := dfProgressScale k |}.

(** S1: 4x4 Byte source 0..15, destination 4x4 zeros, identity
    transformer, progress that always continues. *)
Definition S1 : GDALWarpKernel unit unit :=
  plain_kernel GDT_Byte 4 4 (seqZ 0 16) 4 4 (replicate 16 0)
               identity_transformer tt GDALDummyProgress tt.

(** As S1, with the transformer that fails every other point. *)
Definition S1_half_failing : GDALWarpKernel unit unit :=
  plain_kernel GDT_Byte 4 4 (seqZ 0 16) 4 4 (replicate 16 0)
               half_failing_transformer tt GDALDummyProgress tt.

(** S3: as S1, with a unified source validity plane in which only bit 5
    is set. *)
Definition S3 : GDALWarpKernel unit unit :=
  with_masks S1 (Some [32]) None None.

(** As S1, with a validity plane for band 0 in which only bit 5 is
    set. *)
Definition S1_band_bit5 : GDALWarpKernel unit unit :=
  {| eResample := eResample S1;
     eWorkingDataType := eWorkingDataType S1;
     nBands := nBands S1;
     nSrcXSize := nSrcXSize S1; nSrcYSize := nSrcYSize S1;
     papabySrcImage := papabySrcImage S1;
     papanBandSrcValid := Some [Some [32]];
     panUnifiedSrcValid := None;
     pafUnifiedSrcDensity := None;
     nDstXSize := nDstXSize S1; nDstYSize := nDstYSize S1;
     papabyDstImage := papabyDstImage S1;
     panDstValid := None;
     pafDstDensity := None;
     nSrcXOff := nSrcXOff S1; nSrcYOff := nSrcYOff S1;
     nDstXOff := nDstXOff S1; nDstYOff := nDstYOff S1;
     pfnTransformer := pfnTransformer S1;
     pTransformerArg := pTransformerArg S1;
     pfnProgress := pfnProgress S1; pProgress := pProgress S1;
     dfProgressBase := dfProgressBase S1;
     dfProgressScale := dfProgressScale S1 |}.

(** As S1, with a destination validity plane in which only bit 0 is
    set. *)
Definition S1_dst_bit0 : GDALWarpKernel unit unit :=
  with_masks S1 None (Some [1]) None.

(** One Byte pixel of value 7 copied onto a destination pixel of value 0
    that has a density plane and a validity plane, both zero. *)
Definition one_pixel_masked : GDALWarpKernel unit unit :=
  with_masks
    (plain_kernel GDT_Byte 1 1 [7] 1 1 [0]
                  identity_transformer tt GDALDummyProgress tt)
    None (Some [0]) (Some [0%float]).

(** A 1x1 destination over a 1x1 source, for a working data type of
    four bytes; the source element is four bytes of 0 and the destination
    four bytes of 1. *)
Definition one_pixel (eType : GDALDataType)
    (pfnT : GDALTransformerFunc unit) : GDALWarpKernel unit unit :=
  plain_kernel eType 1 1 [0; 0; 0; 0] 1 1 [1; 1; 1; 1]
               pfnT tt GDALDummyProgress tt.

(** S6: a Byte warp of 8 lines of 2 pixels, source 1..16, destination
    zeros, identity transformer, and a progress callback that answers
    false at its call number 4, which is the call after line 3. *)
Definition S6 : GDALWarpKernel unit nat :=
  plain_kernel GDT_Byte 2 8 (seqZ 1 16) 2 8 (replicate 16 0)
               identity_transformer tt (cancel_at 4) 0%nat.

(** The same kernel with another resampling algorithm. *)
Definition with_eResample {T P : Type} (k : GDALWarpKernel T P)
    (eAlg : GDALResampleAlg) : GDALWarpKernel T P :=
  {| eResample := eAlg;
     eWorkingDataType := eWorkingDataType k;
     nBands := nBands k;
     nSrcXSize := nSrcXSize k; nSrcYSize := nSrcYSize k;
     papabySrcImage := papabySrcImage k;
     papanBandSrcValid := papanBandSrcValid k;
     panUnifiedSrcValid := panUnifiedSrcValid k;
     pafUnifiedSrcDensity := pafUnifiedSrcDensity k;
     nDstXSize := nDstXSize k; nDstYSize := nDstYSize k;
     papabyDstImage := papabyDstImage k;
     panDstValid := panDstValid k;
     pafDstDensity := pafDstDensity k;
     nSrcXOff := nSrcXOff k; nSrcYOff := nSrcYOff k;
     nDstXOff := nDstXOff k; nDstYOff := nDstYOff k;
     pfnTransformer := pfnTransformer k;
     pTransformerArg := pTransformerArg k;
     pfnProgress := pfnProgress k; pProgress := pProgress k;
     dfProgressBase := dfProgressBase k;
     dfProgressScale := dfProgressScale k |}.

(** A 1x1 Byte destination (holding 1) over a 1x1 Byte source
    (holding 9). *)
Definition one_byte (pfnT : GDALTransformerFunc unit)
    : GDALWarpKernel unit unit :=
  plain_kernel GDT_Byte 1 1 [9] 1 1 [1] pfnT tt GDALDummyProgress tt.

(** The same with the source window at the x offset 1 of the source
    image. *)
Definition one_byte_at_1 (pfnT : GDALTransformerFunc unit)
    : GDALWarpKernel unit unit :=
  {| eResample := GRA_NearestNeighbour;
     eWorkingDataType := GDT_Byte;
     nBands := 1;
     nSrcXSize := 1; nSrcYSize := 1;
     papabySrcImage := [[9]];
     papanBandSrcValid := None;
     panUnifiedSrcValid := None;
     pafUnifiedSrcDensity := None;
     nDstXSize := 1; nDstYSize := 1;
     papabyDstImage := [[1]];
     panDstValid := None;
     pafDstDensity := None;
     nSrcXOff := 1; nSrcYOff := 0; nDstXOff := 0; nDstYOff := 0;
     pfnTransformer := pfnT; pTransformerArg := tt;
     pfnProgress := GDALDummyProgress; pProgress := tt;
     dfProgressBase := 0; dfProgressScale := 1 |}.

(** Two lines of one Byte pixel, with the progress scaling
    [dfProgressScale = -1]. *)
Definition two_lines_scaled_down : GDALWarpKernel unit unit :=
  {| eResample := GRA_NearestNeighbour;
     eWorkingDataType := GDT_Byte;
     nBands := 1;
     nSrcXSize := 1; nSrcYSize := 2;
     papabySrcImage := [[8; 9]];
     papanBandSrcValid := None;
     panUnifiedSrcValid := None;
     pafUnifiedSrcDensity := None;
     nDstXSize := 1; nDstYSize := 2;
     papabyDstImage := [[1; 1]];
     panDstValid := None;
     pafDstDensity := None;
     nSrcXOff := 0; nSrcYOff := 0; nDstXOff := 0; nDstYOff := 0;
     pfnTransformer := identity_transformer; pTransformerArg := tt;
     pfnProgress := GDALDummyProgress; pProgress := tt;
     dfProgressBase := 1; dfProgressScale := -1 |}.

(** A kernel as the constructor leaves it (working data type
    [GDT_Unknown], no band), given a 1x1 destination window and a
    transformer. *)
Definition unconfigured : GDALWarpKernel unit unit :=
  {| eResample := GRA_NearestNeighbour;
     eWorkingDataType := GDT_Unknown;
     nBands := 0;
     nSrcXSize := 0; nSrcYSize := 0;
     papabySrcImage := [];
     papanBandSrcValid := None;
     panUnifiedSrcValid := None;
     pafUnifiedSrcDensity := None;
     nDstXSize := 1; nDstYSize := 1;
     papabyDstImage := [];
     panDstValid := None;
     pafDstDensity := None;
     nSrcXOff := 0; nSrcYOff := 0; nDstXOff := 0; nDstYOff := 0;
     pfnTransformer := identity_transformer; pTransformerArg := tt;
     pfnProgress := GDALDummyProgress; pProgress := tt;
     dfProgressBase := 0; dfProgressScale := 1 |}.

End Scenario.

(* ================================================================== *)
(** * The vocabulary of the properties                                  *)
(* ================================================================== *)

Section Vocabulary.
Context {T P : Type} {ind : Indeterminate}.

Local Abbreviation Kernel := (GDALWarpKernel T P).
Local Abbreviation State := (@GWKState T P).

(** The Int32 element that [GWKSetPixelValue] leaves in a 1x1 destination
    band when asked to store [dfReal]. *)
Definition stored_Int32 (dfReal : float) : Z :=
  let k := Scenario.one_pixel GDT_Int32 Scenario.identity_transformer in
  load_int 4
    (at_index [] (papabyDstImage (GWKSetPixelValue k 0 0 1 dfReal 0).2) 0) 0.

(** The events of the work on pixels. *)
Definition is_pixel_event (e : event) : Prop :=
  match e with
  | EvGetPixel _ _ | EvSetPixel _ _ => True
  | _ => False
  end.

(** [pixel_step st st']: from [st] to [st'] nothing changed but the
    destination band buffers and the log, which grew by pixel events. *)
Definition pixel_step (st st' : State) : Prop :=
  wk st' = with_papabyDstImage (wk st) (papabyDstImage (wk st')) /\
  eErr st' = eErr st /\
  pabSuccess st' = pabSuccess st /\
  exists l, trace st' = trace st ++ l /\ Forall is_pixel_event l.

(** The answer that the progress callback gives when called from [st]
    with the line counter at [iDstY]. *)
Definition GWK_answer (iDstY : Z) (st : State) : bool :=
  (pfnProgress (wk st) (GWK_fraction (wk st) iDstY) EmptyString
               (pProgress (wk st))).1.

Definition user_terminated : CPLErr * CPLErrorNum * string :=
  (CE_Failure, CPLE_UserInterrupt, "User terminated"%string).

(** A progress callback that never asks to stop. *)
Definition never_cancels (k : Kernel) : Prop :=
  forall f s p, (pfnProgress k f s p).1 = true.

(** The calls that the lines [0 .. n-1] make when nobody cancels. *)
Definition line_calls (k : Kernel) (n : Z) : list callback :=
  y ← seqZ 0 n; [CallTransformer y; CallProgress (GWK_fraction k y) true].

(** [untouched k st]: [st] belongs to a run on [k] that has not read or
    written a pixel. *)
Definition untouched (k : Kernel) (st : State) : Prop :=
  config (wk st) = config k /\
  papabyDstImage (wk st) = papabyDstImage k /\
  set_pixels (trace st) = [] /\
  get_pixels (trace st) = [].

(** The size in bytes of one pixel of a band buffer, as the casts of
    [GWKSetPixelValue] and [GWKGetPixelValue] lay it out. *)
Definition pixel_bytes (eType : GDALDataType) : Z :=
  match eType with
  | GDT_Unknown => 0
  | GDT_Byte => 1
  | GDT_UInt16 | GDT_Int16 => 2
  | GDT_UInt32 | GDT_Int32 | GDT_Float32 => 4
  | GDT_Float64 => 8
  | GDT_CInt16 => 4
  | GDT_CInt32 | GDT_CFloat32 => 8
  | GDT_CFloat64 => 16
  end.

(** [buffer_agrees lo hi p p']: the buffers have the same size and the
    same bytes outside the byte range [lo, hi). *)
Definition buffer_agrees (lo hi : Z) (p p' : list Z) : Prop :=
  length p' = length p /\
  forall j : nat, Z.of_nat j < lo \/ hi <= Z.of_nat j -> p' !! j = p !! j.

(** The same for all the bands of an image. *)
Definition image_agrees (lo hi : Z) (img img' : list (list Z)) : Prop :=
  Forall2 (buffer_agrees lo hi) img img'.

(** [writes_within k lo hi st st']: both states belong to runs on the
    configuration of [k], and from [st] to [st'] no destination byte
    outside the byte range [lo, hi) of a band has changed. *)
Definition writes_within (k : Kernel) (lo hi : Z) (st st' : State) : Prop :=
  config (wk st') = config k /\
  image_agrees lo hi (papabyDstImage (wk st)) (papabyDstImage (wk st')).

(** The destination window can be indexed with an [int], also when the
    index is doubled for a complex type. *)
Definition dst_fits (k : Kernel) : Prop :=
  nDstXSize k * nDstYSize k <= 2 ^ 30.

(** [same_warp stA stB]: the two states agree on everything that the work
    on the pixels reads or writes, that is on everything but the progress
    callback with its context and scaling, the local [eErr] and the
    log. *)
Definition same_warp (stA stB : State) : Prop :=
  (config (wk stA)).1 = (config (wk stB)).1 /\
  papabyDstImage (wk stA) = papabyDstImage (wk stB) /\
  pTransformerArg (wk stA) = pTransformerArg (wk stB) /\
  pabSuccess stA = pabSuccess stB.

(** The state in which the loop over the lines is left: either every
    line was completed and every answer was true, or some line [r] was
    completed with the answer false, after true answers for all the lines
    before it, and the lines after it were not run. *)
Definition lines_outcome (st st' : State) (n : Z) : Prop :=
  (eErr st' = CE_None /\
   st' = for_upto n GWK_line st /\
   answers (trace st') = answers (trace st) ++ replicate (Z.to_nat n) true /\
   errors (trace st') = errors (trace st) /\
   allocated (trace st') = allocated (trace st) /\
   freed (trace st') = freed (trace st))
  \/
  (exists r, 0 <= r < n /\
     eErr (for_upto r GWK_line st) = CE_None /\
     st' = for_upto (r + 1) GWK_line st /\
     eErr st' = CE_Failure /\
     answers (trace st')
     = answers (trace st) ++ replicate (Z.to_nat r) true ++ [false] /\
     errors (trace st') = errors (trace st) ++ [user_terminated] /\
     allocated (trace st') = allocated (trace st) /\
     freed (trace st') = freed (trace st)).

(** The state in which [GWKGeneralCase] starts, the state in which it
    enters the loop over the lines when the first answer of the progress
    callback is true, and what it does after the loop. *)
Definition GWK_init (k : Kernel) : State :=
  {| wk := k; eErr := CE_None; pabSuccess := []; trace := [] |}.

Definition GWK_entry (k : Kernel) : State :=
  set_pabSuccess (heap_garbage <$> seq 0 (Z.to_nat (nDstXSize k)))
    (emit (EvMalloc "pabSuccess"%string)
       (emit (EvMalloc "padfZ"%string)
          (emit (EvMalloc "padfY"%string)
             (emit (EvMalloc "padfX"%string)
                (GWK_progress stack_garbage (GWK_init k)).2)))).

Definition GWK_exit (st : State) : State :=
  emit (EvFree "pabSuccess"%string)
    (emit (EvFree "padfZ"%string)
       (emit (EvFree "padfY"%string) (emit (EvFree "padfX"%string) st))).

Definition GWK_arrays : list string :=
  ["padfX"; "padfY"; "padfZ"; "pabSuccess"]%string.

(** [buffer_keeps lo hi p p']: the buffers have the same size and the
    same bytes inside the byte range [lo, hi). *)
Definition buffer_keeps (lo hi : Z) (p p' : list Z) : Prop :=
  length p' = length p /\
  forall j : nat, lo <= Z.of_nat j < hi -> p' !! j = p !! j.

Definition image_keeps (lo hi : Z) (img img' : list (list Z)) : Prop :=
  Forall2 (buffer_keeps lo hi) img img'.

(** The byte range of the pixel [(iDstX, iDstY)] in a band of [k]. *)
Definition pixel_lo (k : Kernel) (iDstX iDstY : Z) : Z :=
  (iDstX + iDstY * nDstXSize k) * pixel_bytes (eWorkingDataType k).
Definition pixel_hi (k : Kernel) (iDstX iDstY : Z) : Z :=
  (iDstX + iDstY * nDstXSize k + 1) * pixel_bytes (eWorkingDataType k).

(** The invariant of the loop over the lines for the pixels of column
    [iDstX]: after [m] lines, only bytes of the lines before [m] have
    changed, the transformer was called for lines before [m] only, and a
    pixel of the column is kept whenever the call for its line left its
    success flag at zero. *)
Definition skips_upto (k : Kernel) (iDstX m : Z) (st' : State) : Prop :=
  config (wk st') = config k /\
  image_agrees 0 (m * nDstXSize k * pixel_bytes (eWorkingDataType k))
               (papabyDstImage k) (papabyDstImage (wk st')) /\
  forall y b s,
    (y, b, s) ∈ transformer_calls (trace st') ->
    0 <= y < m /\
    (at_index 0 s iDstX = 0 ->
     image_keeps (pixel_lo k iDstX y) (pixel_hi k iDstX y)
                 (papabyDstImage k) (papabyDstImage (wk st'))).

End Vocabulary.

(* ================================================================== *)
(** * The vocabulary of the further properties                          *)
(* ================================================================== *)

(** The value of a double that is a number, scaled by [2^1074], which
    makes it an integer: [None] for NaN and the infinities. *)
Definition SF_scaled (x : spec_float) : option Z :=
  match x with
  | S754_zero _ => Some 0
  | S754_finite s m e => Some (cond_Zopp s (Zpos m * 2 ^ (e + 1074)))
  | S754_infinity _ | S754_nan => None
  end.

(** What a conversion of the double [x] to an integer type with the
    range [lo .. hi] yields when it saturates: the integral part of [x]
    limited to the range, and the limits for the infinities. *)
Definition saturated (lo hi : Z) (x : float) : Z :=
  match trunc_double x with
  | Some z => Z.max lo (Z.min hi z)
  | None => if (x <? 0)%float then lo else hi
  end.

(** The members of a [GByte] buffer are bytes. *)
Definition is_bytes (p : list Z) : Prop := Forall (fun b => 0 <= b < 256) p.

(** As the scenario S1, with a source density plane that is 0.5 at the
    pixels of even offset and 0 at the others. *)
Definition S1_half_dense : GDALWarpKernel unit unit :=
  {| eResample := eResample Scenario.S1;
     eWorkingDataType := eWorkingDataType Scenario.S1;
     nBands := nBands Scenario.S1;
     nSrcXSize := nSrcXSize Scenario.S1;
     nSrcYSize := nSrcYSize Scenario.S1;
     papabySrcImage := papabySrcImage Scenario.S1;
     papanBandSrcValid := None;
     panUnifiedSrcValid := None;
     pafUnifiedSrcDensity :=
       Some ((fun i => if Z.even i then 0.5%float else 0%float)
               <$> seqZ 0 16);
     nDstXSize := nDstXSize Scenario.S1;
     nDstYSize := nDstYSize Scenario.S1;
     papabyDstImage := papabyDstImage Scenario.S1;
     panDstValid := None;
     pafDstDensity := None;
     nSrcXOff := nSrcXOff Scenario.S1;
     nSrcYOff := nSrcYOff Scenario.S1;
     nDstXOff := nDstXOff Scenario.S1;
     nDstYOff := nDstYOff Scenario.S1;
     pfnTransformer := pfnTransformer Scenario.S1;
     pTransformerArg := pTransformerArg Scenario.S1;
     pfnProgress := pfnProgress Scenario.S1;
     pProgress := pProgress Scenario.S1;
     dfProgressBase := dfProgressBase Scenario.S1;
     dfProgressScale := dfProgressScale Scenario.S1 |}.

(** A log without the return values of the transformer. *)
Definition without_returns (tr : list event) : list event :=
  (fun e => match e with
            | EvTransform iDstY _ panSuccess => EvTransform iDstY true panSuccess
            | _ => e
            end) <$> tr.

Section Vocabulary2.
Context {T P : Type} {ind : Indeterminate}.

Local Abbreviation Kernel := (GDALWarpKernel T P).
Local Abbreviation State := (@GWKState T P).

(** [grows Q st st']: the log of [st'] is the log of [st] followed by
    events that satisfy [Q]. *)
Definition grows (Q : event -> Prop) (st st' : State) : Prop :=
  exists l, trace st' = trace st ++ l /\ Forall Q l.

(** The element offsets of the pixels of a window of [nXSize] by
    [nYSize] pixels, held line after line. *)
Definition in_window (nXSize nYSize iOffset : Z) : Prop :=
  exists iX iY,
    0 <= iX < nXSize /\ 0 <= iY < nYSize /\ iOffset = iX + iY * nXSize.

(** The source window is one whose offsets and pixels an [int] can
    index. *)
Definition src_fits (k : Kernel) : Prop :=
  0 <= nSrcXOff k <= INT_MAX /\ 0 <= nSrcYOff k <= INT_MAX /\
  0 <= nSrcXSize k <= INT_MAX /\ 0 <= nSrcYSize k <= INT_MAX /\
  nSrcXSize k * nSrcYSize k <= INT_MAX.

(** A coordinate whose integral part an [int] can hold. *)
Definition int_coordinate (x : float) : Prop :=
  exists z, trunc_double x = Some z /\ INT_MIN <= z <= INT_MAX.

(** The three coordinate arrays that [GWKGeneralCase] sets up for the
    line [iDstY] (the centres of its pixels), and what the transformer
    returns for them when it is called with the context [pArg] and finds
    [panSuccess] in the success array. *)
Definition GWK_padfX (k : Kernel) : list float :=
  (fun iDstX => double_of_Z iDstX + 0.5 + double_of_Z (nDstXOff k))%float
    <$> seqZ 0 (nDstXSize k).
Definition GWK_padfY (k : Kernel) (iDstY : Z) : list float :=
  (fun _ => double_of_Z iDstY + 0.5 + double_of_Z (nDstYOff k))%float
    <$> seqZ 0 (nDstXSize k).
Definition GWK_padfZ (k : Kernel) : list float :=
  (fun _ => 0%float) <$> seqZ 0 (nDstXSize k).
Definition GWK_transformed (k : Kernel) (pArg : T) (panSuccess : list Z)
    (iDstY : Z) : TransformResult T :=
  pfnTransformer k pArg true (nDstXSize k)
                 (GWK_padfX k) (GWK_padfY k iDstY) (GWK_padfZ k) panSuccess.

(** The arrays as [GWKGeneralCase] finds them after that call. *)
Definition GWK_line_x (k : Kernel) (pArg : T) (panSuccess : list Z)
    (iDstY : Z) : list float :=
  overwrite (GWK_padfX k) (tr_x (GWK_transformed k pArg panSuccess iDstY)).
Definition GWK_line_y (k : Kernel) (pArg : T) (panSuccess : list Z)
    (iDstY : Z) : list float :=
  overwrite (GWK_padfY k iDstY)
            (tr_y (GWK_transformed k pArg panSuccess iDstY)).
Definition GWK_line_success (k : Kernel) (pArg : T) (panSuccess : list Z)
    (iDstY : Z) : list Z :=
  overwrite panSuccess
            (tr_success (GWK_transformed k pArg panSuccess iDstY)).

(** The context of the transformer and the success array with which a
    run on [k] calls the transformer for its line [n]: the first call
    gets the context of the kernel and the success array as the allocator
    left it, and every call leaves its context and the success array to
    the call for the next line. *)
Fixpoint GWK_handed_on (k : Kernel) (n : nat) : T * list Z :=
  match n with
  | O => (pTransformerArg k,
          heap_garbage <$> seq 0 (Z.to_nat (nDstXSize k)))
  | S m =>
      let '(pArg, panSuccess) := GWK_handed_on k m in
      (tr_arg (GWK_transformed k pArg panSuccess (Z.of_nat m)),
       GWK_line_success k pArg panSuccess (Z.of_nat m))
  end.

(** The call of the transformer for the line [iDstY] in such a run: what
    the transformer returns, and the arrays as [GWKGeneralCase] finds
    them afterwards. *)
Definition GWK_run_transformed (k : Kernel) (iDstY : Z) : TransformResult T :=
  GWK_transformed k (GWK_handed_on k (Z.to_nat iDstY)).1
                  (GWK_handed_on k (Z.to_nat iDstY)).2 iDstY.
Definition GWK_run_x (k : Kernel) (iDstY : Z) : list float :=
  GWK_line_x k (GWK_handed_on k (Z.to_nat iDstY)).1
             (GWK_handed_on k (Z.to_nat iDstY)).2 iDstY.
Definition GWK_run_y (k : Kernel) (iDstY : Z) : list float :=
  GWK_line_y k (GWK_handed_on k (Z.to_nat iDstY)).1
             (GWK_handed_on k (Z.to_nat iDstY)).2 iDstY.
Definition GWK_run_success (k : Kernel) (iDstY : Z) : list Z :=
  GWK_line_success k (GWK_handed_on k (Z.to_nat iDstY)).1
                   (GWK_handed_on k (Z.to_nat iDstY)).2 iDstY.

(** What the log holds for that call: the line, the return value and the
    success array. *)
Definition GWK_run_call (k : Kernel) (iDstY : Z) : Z * bool * list Z :=
  (iDstY, tr_ok (GWK_run_transformed k iDstY), GWK_run_success k iDstY).

(** The kernel with another transformer. *)
Definition with_pfnTransformer (poWK : Kernel) (pfn : GDALTransformerFunc T)
    : Kernel :=
  {| eResample := eResample poWK;
     eWorkingDataType := eWorkingDataType poWK;
     nBands := nBands poWK;
     nSrcXSize := nSrcXSize poWK;
     nSrcYSize := nSrcYSize poWK;
     papabySrcImage := papabySrcImage poWK;
     papanBandSrcValid := papanBandSrcValid poWK;
     panUnifiedSrcValid := panUnifiedSrcValid poWK;
     pafUnifiedSrcDensity := pafUnifiedSrcDensity poWK;
     nDstXSize := nDstXSize poWK;
     nDstYSize := nDstYSize poWK;
     papabyDstImage := papabyDstImage poWK;
     panDstValid := panDstValid poWK;
     pafDstDensity := pafDstDensity poWK;
     nSrcXOff := nSrcXOff poWK;
     nSrcYOff := nSrcYOff poWK;
     nDstXOff := nDstXOff poWK;
     nDstYOff := nDstYOff poWK;
     pfnTransformer := pfn;
     pTransformerArg := pTransformerArg poWK;
     pfnProgress := pfnProgress poWK;
     pProgress := pProgress poWK;
     dfProgressBase := dfProgressBase poWK;
     dfProgressScale := dfProgressScale poWK |}.

(** The transformer that writes what [pfn] writes and returns what
    [bOverall] says, which may depend on all the arguments of the
    call. *)
Definition returning
    (bOverall : T -> bool -> Z -> list float -> list float -> list float ->
                list Z -> bool)
    (pfn : GDALTransformerFunc T) : GDALTransformerFunc T :=
  fun pArg bDstToSrc nPoints x y z panSuccess =>
    let r := pfn pArg bDstToSrc nPoints x y z panSuccess in
    {| tr_ok := bOverall pArg bDstToSrc nPoints x y z panSuccess;
       tr_x := tr_x r; tr_y := tr_y r; tr_z := tr_z r;
       tr_success := tr_success r; tr_arg := tr_arg r |}.

(** [same_but_returns bOverall st st']: [st'] is [st] with the return
    values of the transformer replaced by what [bOverall] says, in the
    kernel object and in the log. *)
Definition same_but_returns
    (bOverall : T -> bool -> Z -> list float -> list float -> list float ->
                list Z -> bool)
    (st st' : State) : Prop :=
  wk st' = with_pfnTransformer (wk st)
             (returning bOverall (pfnTransformer (wk st))) /\
  eErr st' = eErr st /\
  pabSuccess st' = pabSuccess st /\
  without_returns (trace st') = without_returns (trace st).

(** A transformer that, for the lines of the destination window, leaves
    coordinates that an [int] can hold at every point that it flags as
    transformed. *)
Definition transformer_in_range (k : Kernel) : Prop :=
  forall (pArg : T) (panSuccess : list Z) (iDstY iDstX : Z),
    0 <= iDstY < nDstYSize k -> 0 <= iDstX < nDstXSize k ->
    at_index 0 (GWK_line_success k pArg panSuccess iDstY) iDstX <> 0 ->
    int_coordinate (at_index 0%float (GWK_line_x k pArg panSuccess iDstY) iDstX) /\
    int_coordinate (at_index 0%float (GWK_line_y k pArg panSuccess iDstY) iDstX).

(** The pixel reads of a log stay inside the source window of [k], in
    the bands of [k]. *)
Definition reads_source (k : Kernel) (e : event) : Prop :=
  match e with
  | EvGetPixel iBand iSrcOffset =>
      0 <= iBand < nBands k /\
      in_window (nSrcXSize k) (nSrcYSize k) iSrcOffset
  | _ => True
  end.

End Vocabulary2.

(** In a log, every write of a destination pixel comes directly after
    the read of a source pixel of the same band. *)
Definition written_after_read (tr : list event) : Prop :=
  forall (i : nat) (iBand iDstOffset : Z),
    tr !! i = Some (EvSetPixel iBand iDstOffset) ->
    exists (j : nat) (iSrcOffset : Z),
      i = S j /\ tr !! j = Some (EvGetPixel iBand iSrcOffset).

Section Vocabulary3.
Context {T P : Type} {ind : Indeterminate}.

Local Abbreviation Kernel := (GDALWarpKernel T P).
Local Abbreviation State := (@GWKState T P).

(** The pixel of the source window in which the point [(x, y)] of the
    source image lies, when it lies in the window: the integral parts of
    the coordinates, less the offsets of the window. *)
Definition GWK_source_pixel (k : Kernel) (x y : float) : option (Z * Z) :=
  match trunc_double x, trunc_double y with
  | Some zx, Some zy =>
      if (x <? double_of_Z (nSrcXOff k))%float
         || (y <? double_of_Z (nSrcYOff k))%float then None
      else if (zx - nSrcXOff k <? nSrcXSize k)
              && (zy - nSrcYOff k <? nSrcYSize k)
      then Some (zx - nSrcXOff k, zy - nSrcYOff k)
      else None
  | _, _ => None
  end.

(** Working data types whose values go through [double] and back
    unchanged: the integer types other than [GDT_Int32], and the types of
    doubles. *)
Definition GWK_exact_types : list GDALDataType :=
  [GDT_Byte; GDT_UInt16; GDT_Int16; GDT_UInt32; GDT_CInt16; GDT_CInt32;
   GDT_Float64; GDT_CFloat64].

(** A job for the nearest neighbour resampling of such a type without
    validity or density planes, on band buffers that hold the windows. *)
Definition plain_copy_job (k : Kernel) : Prop :=
  eResample k = GRA_NearestNeighbour /\
  eWorkingDataType k ∈ GWK_exact_types /\
  (panUnifiedSrcValid k = None /\ papanBandSrcValid k = None /\
   pafUnifiedSrcDensity k = None /\ panDstValid k = None) /\
  0 <= nDstXSize k /\
  0 <= nBands k <= Z.of_nat (length (papabyDstImage k)) /\
  Forall (fun p => nDstXSize k * nDstYSize k * pixel_bytes (eWorkingDataType k)
                   <= Z.of_nat (length p)) (papabyDstImage k) /\
  Forall is_bytes (papabySrcImage k).

(** What the nearest neighbour resampling is to leave in the pixel
    [(iDstX, iDstY)] of the band [iBand] of the destination image [img],
    given the arrays of the line: the value of the source pixel in which
    the transformed point lies, or, when the point was not transformed or
    lies outside the source window, the bytes from before the warp. *)
Definition nearest_pixel (k : Kernel) (padfX padfY : list float)
    (panSuccess : list Z) (iDstX iDstY iBand : Z) (img : list (list Z))
    : Prop :=
  match (if at_index 0 panSuccess iDstX =? 0 then None
         else GWK_source_pixel k (at_index 0%float padfX iDstX)
                                 (at_index 0%float padfY iDstX)) with
  | Some (iSrcX, iSrcY) =>
      GWKGetPixelValue_band (eWorkingDataType k) (at_index [] img iBand)
                            (iDstX + iDstY * nDstXSize k)
      = GWKGetPixelValue_band (eWorkingDataType k)
                              (at_index [] (papabySrcImage k) iBand)
                              (iSrcX + iSrcY * nSrcXSize k)
  | None =>
      buffer_keeps (pixel_lo k iDstX iDstY) (pixel_hi k iDstX iDstY)
                   (at_index [] (papabyDstImage k) iBand)
                   (at_index [] img iBand)
  end.

(** The same job when it may have validity and density planes. *)
Definition copy_job (k : Kernel) : Prop :=
  eResample k = GRA_NearestNeighbour /\
  eWorkingDataType k ∈ GWK_exact_types /\
  0 <= nDstXSize k /\
  0 <= nBands k <= Z.of_nat (length (papabyDstImage k)) /\
  Forall (fun p => nDstXSize k * nDstYSize k * pixel_bytes (eWorkingDataType k)
                   <= Z.of_nat (length p)) (papabyDstImage k) /\
  Forall is_bytes (papabySrcImage k).

(** The test of [GWKGeneralCase] on the destination validity plane, for
    the destination pixel at [iDstOffset]: true when the pixel is passed
    over. *)
Definition GWK_dst_taken (k : Kernel) (iDstOffset : Z) : bool :=
  match panDstValid k with
  | Some panValid => GWK_mask_test panValid iDstOffset
  | None => false
  end.

(** What the nearest neighbour resampling is to leave in the pixel
    [(iDstX, iDstY)] of the band [iBand] of the destination image [img]
    when there are validity and density planes: the value of the source
    pixel in which the transformed point lies, when the test on the
    destination validity plane lets the pixel through and
    [GWKGetPixelValue] returns TRUE for the source pixel; the bytes from
    before the warp in all other cases. *)
Definition masked_nearest_pixel (k : Kernel) (padfX padfY : list float)
    (panSuccess : list Z) (iDstX iDstY iBand : Z) (img : list (list Z))
    : Prop :=
  let kept :=
    buffer_keeps (pixel_lo k iDstX iDstY) (pixel_hi k iDstX iDstY)
                 (at_index [] (papabyDstImage k) iBand)
                 (at_index [] img iBand) in
  match (if at_index 0 panSuccess iDstX =? 0 then None
         else GWK_source_pixel k (at_index 0%float padfX iDstX)
                                 (at_index 0%float padfY iDstX)) with
  | Some (iSrcX, iSrcY) =>
      if GWK_dst_taken k (iDstX + iDstY * nDstXSize k) then kept
      else if (GWKGetPixelValue k iBand (iSrcX + iSrcY * nSrcXSize k)
                                0 0 0).1
      then GWKGetPixelValue_band (eWorkingDataType k) (at_index [] img iBand)
                                 (iDstX + iDstY * nDstXSize k)
           = GWKGetPixelValue_band (eWorkingDataType k)
                                   (at_index [] (papabySrcImage k) iBand)
                                   (iSrcX + iSrcY * nSrcXSize k)
      else kept
  | None => kept
  end.

(** The state of a run on such a job: the configuration is that of [k]
    and the destination bands have the sizes they had. *)
Definition copying (k : Kernel) (st : State) : Prop :=
  config (wk st) = config k /\
  Forall2 (fun p p' => length p' = length p)
          (papabyDstImage k) (papabyDstImage (wk st)).

End Vocabulary3.

(** The range of the values of the integer types whose store compares
    with both limits of the type. *)
Definition GWK_integer_range (eType : GDALDataType) : option (Z * Z) :=
  match eType with
  | GDT_Byte => Some (0, 255)
  | GDT_UInt16 => Some (0, 65535)
  | GDT_Int16 | GDT_CInt16 => Some (-32768, 32767)
  | GDT_UInt32 => Some (0, 4294967295)
  | GDT_CInt32 => Some (-2147483648, 2147483647)
  | _ => None
  end.

(* ================================================================== *)
(** * Properties                                                        *)
(* ================================================================== *)

(** C7.  The identity warp S1 (Byte, one band, 4x4 source holding 0..15 in
    row-major order, zero offsets, 4x4 destination of zeros, Nearest, the
    identity transformer with every success flag set, no validity or
    density plane, a progress callback that always continues): whatever
    the indeterminate values are, [PerformWarp] returns [CE_None] and the
    destination band afterwards equals the source band, pixel by pixel. *)
Theorem C7_identity_warp_copies_source :
  forall ind : Indeterminate,
    let res := PerformWarp Scenario.S1 in
    eErr res = CE_None /\
    papabyDstImage (wk res) = [seqZ 0 16] /\
    papabyDstImage (wk res) = papabySrcImage Scenario.S1 /\
    forall iDstX iDstY : Z,
      0 <= iDstX < 4 -> 0 <= iDstY < 4 ->
      at_index 0 (at_index [] (papabyDstImage (wk res)) 0) (iDstX + iDstY * 4)
      = iDstX + iDstY * 4.
Proof.
  intros ind res.
  assert (Himg : papabyDstImage (wk res) = [seqZ 0 16]) by (vm_compute; reflexivity).
  assert (Herr : eErr res = CE_None) by (vm_compute; reflexivity).
  repeat split; try assumption.
  intros x y Hx Hy. rewrite Himg.
  assert (Hc : x = 0 \/ x = 1 \/ x = 2 \/ x = 3) by lia.
  assert (Hr : y = 0 \/ y = 1 \/ y = 2 \/ y = 3) by lia.
  destruct Hc as [-> | [-> | [-> | ->]]];
    destruct Hr as [-> | [-> | [-> | ->]]]; reflexivity.
Qed.

(** ** The codec on Int32 *)

(** Whatever is below 2147483648 is stored as 0. *)
Lemma stored_Int32_below (ind : Indeterminate) (dfReal : float) :
  (dfReal <? 2147483648)%float = true -> stored_Int32 dfReal = 0.
Proof.
  intros Hlt. unfold stored_Int32, GWKSetPixelValue. simpl.
  rewrite Hlt. reflexivity.
Qed.

(** C2 (the code at the failing inputs).  For the working data type Int32
    the first comparison of [GWKSetPixelValue] is
    [dfReal < 2147483648.0] and its branch stores 0: the value
    -3000000000, below the minimum, is stored as 0 and not as
    -2147483648; the in-range values 5 and -7 are stored as 0 and not as
    themselves; 2147483647.5, above the maximum, is stored as 0 and not as
    2147483647.  Only values from 2147483648 on reach the second branch
    and are stored as 2147483647. *)
Theorem C2_Int32_store_is_zero_below_2147483648 :
  forall ind : Indeterminate,
    stored_Int32 (-3000000000) = 0 /\
    stored_Int32 5 = 0 /\
    stored_Int32 (-7) = 0 /\
    stored_Int32 2147483647.5 = 0 /\
    stored_Int32 2147483648 = 2147483647 /\
    stored_Int32 3000000000 = 2147483647.
Proof.
  intros ind. repeat split; vm_compute; reflexivity.
Qed.

(** ** The validity test *)

Lemma land_31_range (i : Z) : 0 <= Z.land i 31 < 32.
Proof.
  change 31 with (Z.ones 5). rewrite Z.land_ones by lia.
  apply Z.mod_pos_bound. lia.
Qed.

Lemma bit_mask_nonzero (i : Z) : int32 (Z.shiftl 1 (Z.land i 31)) <> 0.
Proof.
  pose proof (land_31_range i) as Hr.
  assert (Hc : exists n : nat, Z.land i 31 = Z.of_nat n /\ (n < 32)%nat).
  { exists (Z.to_nat (Z.land i 31)). lia. }
  destruct Hc as (n & -> & Hn).
  do 32 (destruct n as [|n]; [vm_compute; discriminate|]). lia.
Qed.

(** The test the kernel applies holds as soon as the 32-bit word is not
    zero, whichever of its bits are set. *)
Lemma GWK_mask_test_word (panValid : list Z) (i : Z) :
  GWK_mask_test panValid i = negb (at_index 0 panValid (Z.shiftr i 5) =? 0).
Proof.
  unfold GWK_mask_test, c_logical_and.
  pose proof (bit_mask_nonzero i) as Hb.
  destruct (int32 (Z.shiftl 1 (Z.land i 31)) =? 0) eqn:E; [lia|].
  apply andb_true_r.
Qed.

(** C3 (the code at the failing inputs).  The kernel tests a validity
    plane with the logical [&&], so that the test holds exactly when the
    32-bit word of the element is not zero: element 5 of a plane whose only set bit
    is bit 0 passes the test although its own bit is clear, and so does
    element 0 of a plane whose only set bit is bit 5.  In the warp S3,
    whose unified source validity plane has only bit 5 set, all sixteen
    source pixels are copied and not pixel 5 alone; the same happens when
    the plane is the validity plane of the band; and with a destination
    validity plane in which only bit 0 is set, no pixel of the
    destination is written, and not pixel 0 alone skipped. *)
Theorem C3_validity_test_ignores_the_bit_index :
  (forall (panValid : list Z) (i : Z),
      GWK_mask_test panValid i
      = negb (at_index 0 panValid (Z.shiftr i 5) =? 0)) /\
  GWK_mask_test [1] 5 = true /\ Z.testbit 1 5 = false /\
  GWK_mask_test [32] 0 = true /\ Z.testbit 32 0 = false /\
  (forall ind : Indeterminate,
     papabyDstImage (wk (PerformWarp Scenario.S3)) = [seqZ 0 16] /\
     papabyDstImage (wk (PerformWarp Scenario.S1_band_bit5)) = [seqZ 0 16] /\
     papabyDstImage (wk (PerformWarp Scenario.S1_dst_bit0))
     = [replicate 16 0]).
Proof.
  split; [exact GWK_mask_test_word|].
  repeat split; vm_compute; reflexivity.
Qed.

(** ** The compositor *)

(** [GWKSetPixelValue] assigns nothing but the band buffer. *)
Lemma GWKSetPixelValue_masks {T P : Type} {ind : Indeterminate}
    (poWK : GDALWarpKernel T P) (iBand iDstOffset : Z)
    (dfDensity dfReal dfImag : float) :
  let poWK' := (GWKSetPixelValue poWK iBand iDstOffset
                                 dfDensity dfReal dfImag).2 in
  pafDstDensity poWK' = pafDstDensity poWK /\
  panDstValid poWK' = panDstValid poWK.
Proof.
  unfold GWKSetPixelValue.
  destruct (GWKSetPixelValue_band _ _ _ _ _); simpl; auto.
Qed.

(** ** Validation *)

(** C5 (the code at the failing input).  [Validate] accepts every kernel.
    The kernel the constructor leaves, with working data type
    [GDT_Unknown] and no band, given a 1x1 destination window, is not
    refused: [PerformWarp] returns [CE_None] without reporting an error,
    having called the transformer for its one line and the progress
    callback twice. *)
Theorem C5_Validate_accepts_the_unconfigured_kernel :
  forall ind : Indeterminate,
    (forall (T P : Type) (poWK : GDALWarpKernel T P),
        Validate poWK = CE_None) /\
    eWorkingDataType Scenario.unconfigured = GDT_Unknown /\
    nBands Scenario.unconfigured = 0 /\
    let res := PerformWarp Scenario.unconfigured in
    eErr res = CE_None /\
    errors (trace res) = [] /\
    transformer_calls (trace res) = [(0, true, [1])] /\
    (progress_calls (trace res)).*2 = [true; true].
Proof.
  intros ind. repeat split; vm_compute; reflexivity.
Qed.

(** ** Source window bounds *)

(** C10 (the code at the failing input).  A 1x1 Byte source at offset 0,
    one destination pixel, and a transformer that maps it, with its
    success flag set, to the source column 1e10 (or to NaN).  The
    comparison against the lower bound does not reject the point, the
    conversion to [int] cannot hold the value, and with the x86-64
    conversion result the comparison against the upper bound does not
    reject it either: [GWKGetPixelValue] is called with the element
    offset -2147483648.  With the AArch64 conversion result the same
    happens for NaN when the source window is at the x offset 1: the
    element offset is -1. *)
Theorem C10_far_coordinate_reads_outside_the_source :
  let far := Scenario.constant_transformer true 1 10000000000 0.5 in
  let nowhere := Scenario.constant_transformer true 1 nan 0.5 in
  trunc_double 10000000000 = Some 10000000000 /\
  INT_MAX < 10000000000 /\
  trunc_double nan = None /\
  get_pixels (trace (PerformWarp (ind := Scenario.x86_64)
                       (Scenario.one_byte far)))
  = [(0, -2147483648)] /\
  get_pixels (trace (PerformWarp (ind := Scenario.x86_64)
                       (Scenario.one_byte nowhere)))
  = [(0, -2147483648)] /\
  get_pixels (trace (PerformWarp (ind := Scenario.aarch64)
                       (Scenario.one_byte_at_1 nowhere)))
  = [(0, -1)].
Proof.
  repeat split; vm_compute; reflexivity.
Qed.

(** ** Transformer failures *)

(** C6 (counterexample).  The transformer returns overall false on the
    only line of a 1x1 warp; the warp does not abort and does not report
    an error: it returns [CE_None] and has written the pixel. *)
Lemma C6_overall_false_is_ignored :
  let pfnT := Scenario.constant_transformer false 1 0.5 0.5 in
  let res := PerformWarp (ind := Scenario.x86_64) (Scenario.one_byte pfnT) in
  transformer_calls (trace res) = [(0, false, [1])] /\
  eErr res = CE_None /\
  errors (trace res) = [] /\
  set_pixels (trace res) = [(0, 0)] /\
  papabyDstImage (wk res) = [[9]].
Proof.
  repeat split; vm_compute; reflexivity.
Qed.

(* ================================================================== *)
(** * What each part of the driver may change                           *)
(* ================================================================== *)

(** From an equation between two configurations to the equations between
    their fields. *)
Ltac config_fields H := unfold config in H; injection H; intros.

Section Effects.
Context {T P : Type} {ind : Indeterminate}.

Local Abbreviation Kernel := (GDALWarpKernel T P).
Local Abbreviation State := (@GWKState T P).

(** Loop invariants for [for_upto]. *)
Lemma for_upto_ind {S : Type} (Inv : S -> Prop) (n : Z)
    (body : Z -> S -> S) (s : S) :
  Inv s ->
  (forall i s', 0 <= i < n -> Inv s' -> Inv (body i s')) ->
  Inv (for_upto n body s).
Proof.
  intros Hs Hbody. unfold for_upto.
  assert (Hl : forall i, i ∈ seqZ 0 n -> 0 <= i < n).
  { intros i Hi. apply elem_of_seqZ in Hi. lia. }
  revert s Hs Hl. generalize (seqZ 0 n) as l.
  induction l as [|i l IH]; intros s Hs Hl; simpl; [exact Hs|].
  apply IH.
  - apply Hbody; [apply Hl; left | exact Hs].
  - intros j Hj. apply Hl. right. exact Hj.
Qed.

Lemma for_upto_nonpos {S : Type} (n : Z) (body : Z -> S -> S) (s : S) :
  n <= 0 -> for_upto n body s = s.
Proof. intros Hn. unfold for_upto. rewrite seqZ_nil by lia. reflexivity. Qed.

Lemma for_upto_succ {S : Type} (n : Z) (body : Z -> S -> S) (s : S) :
  0 <= n -> for_upto (n + 1) body s = body n (for_upto n body s).
Proof.
  intros Hn. unfold for_upto.
  rewrite seqZ_app by lia. rewrite foldl_app.
  rewrite (seqZ_cons (0 + n) 1) by lia.
  rewrite (seqZ_nil _ (Z.pred 1)) by lia. simpl. reflexivity.
Qed.

Lemma with_papabyDstImage_same (k : Kernel) :
  with_papabyDstImage k (papabyDstImage k) = k.
Proof. destruct k; reflexivity. Qed.

Lemma pixel_step_refl (st : State) : pixel_step st st.
Proof.
  repeat split; auto.
  - symmetry. apply with_papabyDstImage_same.
  - exists []. rewrite app_nil_r. auto.
Qed.

Lemma pixel_step_trans (st1 st2 st3 : State) :
  pixel_step st1 st2 -> pixel_step st2 st3 -> pixel_step st1 st3.
Proof.
  intros (Hk & He & Hs & l & Ht & Hl) (Hk' & He' & Hs' & l' & Ht' & Hl').
  repeat split; try congruence.
  - rewrite Hk', Hk. reflexivity.
  - exists (l ++ l'). rewrite Ht', Ht, app_assoc. split; [reflexivity|].
    apply Forall_app; auto.
Qed.

Lemma GWKSetPixelValue_kernel (k : Kernel) (iBand iDstOffset : Z)
    (d r i : float) :
  let k' := (GWKSetPixelValue k iBand iDstOffset d r i).2 in
  k' = with_papabyDstImage k (papabyDstImage k').
Proof.
  unfold GWKSetPixelValue.
  destruct (GWKSetPixelValue_band _ _ _ _ _); simpl; [reflexivity|].
  symmetry. apply with_papabyDstImage_same.
Qed.

Lemma pixel_step_band (iSrcOffset iDstOffset iBand : Z) (st : State) :
  pixel_step st (GWK_band iSrcOffset iDstOffset iBand st).
Proof.
  unfold GWK_band.
  destruct (eResample (wk st)); try apply pixel_step_refl.
  destruct (GWKGetPixelValue _ _ _ _ _ _) as [b [[d r] i]].
  destruct (d =? 0)%float.
  - repeat split; simpl; auto.
    + symmetry. apply with_papabyDstImage_same.
    + eexists. split; [reflexivity|]. repeat constructor.
  - pose proof (GWKSetPixelValue_kernel (wk st) iBand iDstOffset d r i) as Hk.
    destruct (GWKSetPixelValue _ _ _ _ _ _) as [b' k']. simpl in Hk.
    repeat split; simpl; auto.
    eexists. rewrite <- app_assoc. split; [reflexivity|]. repeat constructor.
Qed.

Lemma pixel_step_for_upto (n : Z) (body : Z -> State -> State) (st : State) :
  (forall i s, pixel_step s (body i s)) ->
  pixel_step st (for_upto n body st).
Proof.
  intros Hbody. apply for_upto_ind; [apply pixel_step_refl|].
  intros i s' _ Hs'. eapply pixel_step_trans; [exact Hs'|apply Hbody].
Qed.

Lemma pixel_step_pixel (w : Z) (padfX padfY : list float) (iDstY iDstX : Z)
    (st : State) :
  pixel_step st (GWK_pixel w padfX padfY iDstY iDstX st).
Proof.
  unfold GWK_pixel.
  repeat (match goal with |- pixel_step _ (if ?c then _ else _) =>
                            destruct c end; try apply pixel_step_refl).
  apply pixel_step_for_upto. intros. apply pixel_step_band.
Qed.

(** Views of a log that do not look at pixel events. *)
Lemma outer_pixel_events (l : list event) :
  Forall is_pixel_event l -> outer l = [].
Proof.
  induction 1 as [|e l He _ IH]; simpl; [reflexivity|].
  destruct e; simpl in He; try tauto; exact IH.
Qed.

Lemma omap_outer {A : Type} (f : event -> option A) (tr : list event) :
  (forall e, is_pixel_event e -> f e = None) ->
  omap f (outer tr) = omap f tr.
Proof.
  intros Hf. induction tr as [|e tr IH]; [reflexivity|].
  destruct e; simpl; try (rewrite Hf by exact I; exact IH).
  all: change (list_omap event A f (outer tr)) with (omap f (outer tr));
    rewrite IH; reflexivity.
Qed.

Lemma pixel_step_views (st st' : State) :
  pixel_step st st' ->
  config (wk st') = config (wk st) /\
  pTransformerArg (wk st') = pTransformerArg (wk st) /\
  pProgress (wk st') = pProgress (wk st) /\
  outer (trace st') = outer (trace st).
Proof.
  intros (Hk & _ & _ & l & Ht & Hl).
  repeat split; try (rewrite Hk; reflexivity).
  rewrite Ht. unfold outer at 1. rewrite omap_app.
  fold (outer (trace st)). fold (outer l).
  rewrite (outer_pixel_events l Hl). apply app_nil_r.
Qed.

Lemma GWK_fraction_config (k k' : Kernel) (iDstY : Z) :
  config k' = config k -> GWK_fraction k' iDstY = GWK_fraction k iDstY.
Proof.
  unfold GWK_fraction. intros Hc. config_fields Hc. congruence.
Qed.

Lemma GWK_transform_effect (iDstY : Z) (st : State) :
  let st' := (GWK_transform iDstY st).2 in
  wk st' = with_pTransformerArg (wk st) (pTransformerArg (wk st')) /\
  eErr st' = eErr st /\
  length (pabSuccess st') = length (pabSuccess st) /\
  exists b, trace st' = trace st ++ [EvTransform iDstY b (pabSuccess st')].
Proof.
  unfold GWK_transform. simpl. repeat split.
  - unfold overwrite. rewrite length_app, length_take, length_drop. lia.
  - eexists. reflexivity.
Qed.

Lemma GWK_report_effect (iDstY : Z) (st : State) :
  let b := GWK_answer iDstY st in
  let st' := GWK_report iDstY st in
  wk st' = with_pProgress (wk st) (pProgress (wk st')) /\
  pabSuccess st' = pabSuccess st /\
  eErr st' = (if b then eErr st else CE_Failure) /\
  trace st' = trace st ++
              EvProgress (GWK_fraction (wk st) iDstY) b ::
              (if b then [] else [EvError CE_Failure CPLE_UserInterrupt
                                          "User terminated"%string]).
Proof.
  unfold GWK_report, GWK_progress, GWK_answer.
  destruct (pfnProgress _ _ _ _) as [[|] pArg]; simpl; repeat split.
  rewrite <- app_assoc. reflexivity.
Qed.

(** What a whole line does to everything but the destination bands. *)
Lemma GWK_scanline_effect (w iDstY : Z) (st : State) :
  let b := GWK_answer iDstY st in
  let st' := GWK_scanline w iDstY st in
  config (wk st') = config (wk st) /\
  eErr st' = (if b then eErr st else CE_Failure) /\
  length (pabSuccess st') = length (pabSuccess st) /\
  exists bT s,
    outer (trace st')
    = outer (trace st) ++
      EvTransform iDstY bT s ::
      EvProgress (GWK_fraction (wk st) iDstY) b ::
      (if b then [] else [EvError CE_Failure CPLE_UserInterrupt
                                  "User terminated"%string]).
Proof.
  unfold GWK_scanline.
  pose proof (GWK_transform_effect iDstY st) as (Hk1 & He1 & Hs1 & bT & Ht1).
  destruct (GWK_transform iDstY st) as [[padfX padfY] st1]. simpl in *.
  set (st2 := for_upto _ _ st1).
  assert (Hpx : pixel_step st1 st2).
  { apply pixel_step_for_upto. intros. apply pixel_step_pixel. }
  pose proof (pixel_step_views _ _ Hpx) as (Hc2 & _ & Hp2 & Hout).
  destruct Hpx as (_ & He2 & Hs2 & _).
  assert (Hc1 : config (wk st1) = config (wk st)) by (rewrite Hk1; reflexivity).
  assert (Hp1 : pProgress (wk st1) = pProgress (wk st)) by (rewrite Hk1; reflexivity).
  assert (Hb : GWK_answer iDstY st2 = GWK_answer iDstY st).
  { unfold GWK_answer. rewrite Hp2, Hp1.
    rewrite (GWK_fraction_config (wk st) (wk st2)) by congruence.
    assert (Hf : pfnProgress (wk st2) = pfnProgress (wk st)).
    { rewrite Hc1 in Hc2. config_fields Hc2. congruence. }
    rewrite Hf. reflexivity. }
  pose proof (GWK_report_effect iDstY st2) as (Hk3 & Hs3 & He3 & Ht3).
  rewrite Hb in He3, Ht3.
  rewrite (GWK_fraction_config (wk st) (wk st2)) in Ht3 by congruence.
  repeat split.
  - rewrite Hk3. change (config (wk st2) = config (wk st)). congruence.
  - rewrite He3. destruct (GWK_answer iDstY st); congruence.
  - congruence.
  - exists bT, (pabSuccess st1). rewrite Ht3.
    unfold outer at 1. rewrite omap_app. fold (outer (trace st2)).
    rewrite Hout, Ht1. unfold outer at 1. rewrite omap_app.
    fold (outer (trace st)). rewrite <- app_assoc.
    destruct (GWK_answer iDstY st); reflexivity.
Qed.

(** [Validate] lets every kernel through. *)
Lemma PerformWarp_validated (k : Kernel) : PerformWarp k = GWKGeneralCase k.
Proof. reflexivity. Qed.

(** A loop invariant that follows the loop counter. *)
Lemma for_upto_rec {S : Type} (Inv : Z -> S -> Prop) (n : Z)
    (body : Z -> S -> S) (s : S) :
  0 <= n ->
  Inv 0 s ->
  (forall i s', 0 <= i < n -> Inv i s' -> Inv (i + 1) (body i s')) ->
  Inv n (for_upto n body s).
Proof.
  intros Hn H0 Hstep.
  assert (Hgen : forall m, 0 <= m -> m <= n -> Inv m (for_upto m body s)).
  { intros m Hm. pattern m. apply natlike_ind; [| |exact Hm].
    - intros _. rewrite for_upto_nonpos by lia. exact H0.
    - intros x Hx IH Hle. unfold Z.succ. rewrite for_upto_succ by lia.
      apply Hstep; [lia|]. apply IH. lia. }
  apply Hgen; lia.
Qed.

Lemma never_cancels_config (k k' : Kernel) :
  config k' = config k -> never_cancels k -> never_cancels k'.
Proof.
  intros Hc Hn f s p. config_fields Hc.
  replace (pfnProgress k') with (pfnProgress k) by congruence. apply Hn.
Qed.

Lemma line_calls_succ (k : Kernel) (n : Z) :
  0 <= n ->
  line_calls k (n + 1)
  = line_calls k n ++
    [CallTransformer n; CallProgress (GWK_fraction k n) true].
Proof.
  intros Hn. unfold line_calls. rewrite seqZ_app by lia.
  rewrite bind_app. rewrite (seqZ_cons (0 + n) 1) by lia.
  rewrite (seqZ_nil _ (Z.pred 1)) by lia. reflexivity.
Qed.

Lemma callbacks_outer (tr : list event) : callbacks (outer tr) = callbacks tr.
Proof. apply omap_outer. intros [] He; simpl in He; tauto. Qed.

Lemma errors_outer (tr : list event) : errors (outer tr) = errors tr.
Proof. apply omap_outer. intros [] He; simpl in He; tauto. Qed.

Lemma allocated_outer (tr : list event) : allocated (outer tr) = allocated tr.
Proof. apply omap_outer. intros [] He; simpl in He; tauto. Qed.

Lemma freed_outer (tr : list event) : freed (outer tr) = freed tr.
Proof. apply omap_outer. intros [] He; simpl in He; tauto. Qed.

(** The loop over the lines when the progress callback never cancels. *)
Lemma GWK_lines_continue (st : State) :
  never_cancels (wk st) -> eErr st = CE_None ->
  let st' := GWK_lines st in
  config (wk st') = config (wk st) /\
  eErr st' = CE_None /\
  callbacks (trace st')
  = callbacks (trace st) ++ line_calls (wk st) (nDstYSize (wk st)) /\
  errors (trace st') = errors (trace st) /\
  allocated (trace st') = allocated (trace st) /\
  freed (trace st') = freed (trace st).
Proof.
  intros Hnc He. unfold GWK_lines.
  destruct (Z.le_gt_cases 0 (nDstYSize (wk st))) as [Hn|Hn].
  2:{ rewrite for_upto_nonpos by lia. unfold line_calls.
      rewrite seqZ_nil by lia. simpl. rewrite app_nil_r. repeat split; auto. }
  apply (for_upto_rec (fun i s' =>
    config (wk s') = config (wk st) /\ eErr s' = CE_None /\
    callbacks (trace s') = callbacks (trace st) ++ line_calls (wk st) i /\
    errors (trace s') = errors (trace st) /\
    allocated (trace s') = allocated (trace st) /\
    freed (trace s') = freed (trace st))); [exact Hn| |].
  - unfold line_calls. simpl. rewrite app_nil_r. repeat split; auto.
  - intros i s' Hi (Hc & He' & Hcb & Her & Hal & Hfr).
    unfold GWK_line. rewrite He'.
    pose proof (GWK_scanline_effect (GWK_nResWinSize (wk s')) i s')
      as (Hc2 & He2 & _ & bT & sT & Ht).
    assert (Hb : GWK_answer i s' = true).
    { apply (never_cancels_config (wk st)); assumption. }
    rewrite Hb in He2, Ht.
    rewrite (GWK_fraction_config (wk st) (wk s')) in Ht by exact Hc.
    repeat split.
    + congruence.
    + congruence.
    + rewrite <- callbacks_outer, Ht. unfold callbacks at 1.
      rewrite omap_app. fold (callbacks (outer (trace s'))).
      rewrite callbacks_outer, Hcb, line_calls_succ by lia.
      rewrite <- app_assoc. reflexivity.
    + rewrite <- errors_outer, Ht. unfold errors at 1.
      rewrite omap_app. fold (errors (outer (trace s'))).
      rewrite errors_outer, Her. apply app_nil_r.
    + rewrite <- allocated_outer, Ht. unfold allocated at 1.
      rewrite omap_app. fold (allocated (outer (trace s'))).
      rewrite allocated_outer, Hal. apply app_nil_r.
    + rewrite <- freed_outer, Ht. unfold freed at 1.
      rewrite omap_app. fold (freed (outer (trace s'))).
      rewrite freed_outer, Hfr. apply app_nil_r.
Qed.

(** [GWKGeneralCase] when the progress callback never cancels: the
    callbacks it calls, in order, and its result. *)
Lemma GWKGeneralCase_continue (k : Kernel) :
  never_cancels k ->
  let st' := GWKGeneralCase k in
  config (wk st') = config k /\
  eErr st' = CE_None /\
  callbacks (trace st')
  = CallProgress (GWK_fraction k stack_garbage) true ::
    line_calls k (nDstYSize k) /\
  errors (trace st') = [] /\
  allocated (trace st') = ["padfX"; "padfY"; "padfZ"; "pabSuccess"]%string /\
  freed (trace st') = ["padfX"; "padfY"; "padfZ"; "pabSuccess"]%string.
Proof.
  intros Hnc. unfold GWKGeneralCase, GWK_progress.
  pose proof (Hnc (GWK_fraction k stack_garbage) EmptyString (pProgress k)) as Hb.
  simpl wk. destruct (pfnProgress k _ _ _) as [b pArg]. simpl in Hb. subst b.
  simpl negb. cbv iota.
  match goal with |- context [GWK_lines ?s] => set (st0 := s) end.
  assert (Hc0 : config (wk st0) = config k) by reflexivity.
  pose proof (GWK_lines_continue st0 (never_cancels_config _ _ Hc0 Hnc) eq_refl)
    as (Hc & He & Hcb & Her & Hal & Hfr).
  assert (Hn : nDstYSize (wk st0) = nDstYSize k) by reflexivity.
  assert (Hlc : line_calls (wk st0) (nDstYSize (wk st0)) = line_calls k (nDstYSize k)).
  { rewrite Hn. unfold line_calls. f_equal. }
  repeat split.
  - simpl. congruence.
  - simpl. exact He.
  - simpl. unfold callbacks in *. rewrite !omap_app, Hcb, Hlc. simpl.
    rewrite !app_nil_r. reflexivity.
  - simpl. unfold errors in *. rewrite !omap_app, Her. reflexivity.
  - simpl. unfold allocated in *. rewrite !omap_app, Hal. reflexivity.
  - simpl. unfold freed in *. rewrite !omap_app, Hfr. reflexivity.
Qed.

(** A warp assigns none of the fields of [config]: among them the
    destination density and validity planes. *)
Lemma GWKGeneralCase_config (k : Kernel) :
  config (wk (GWKGeneralCase k)) = config k.
Proof.
  unfold GWKGeneralCase, GWK_progress. simpl wk.
  destruct (pfnProgress k _ _ _) as [[|] pArg]; simpl negb; cbv iota;
    [|reflexivity].
  match goal with |- context [GWK_lines ?s] => set (st0 := s) end.
  change (config (wk (GWK_lines st0)) = config k).
  unfold GWK_lines.
  apply (for_upto_ind (fun s => config (wk s) = config k)); [reflexivity|].
  intros i s' _ Hs'. unfold GWK_line. destruct (eErr s'); [|exact Hs'].
  pose proof (GWK_scanline_effect (GWK_nResWinSize (wk s')) i s') as (Hc & _).
  cbv zeta in Hc. congruence.
Qed.

(** ** The resampling modes whose branch of the band loop is empty *)

Lemma GWK_band_stub (iSrcOffset iDstOffset iBand : Z) (st : State) :
  eResample (wk st) <> GRA_NearestNeighbour ->
  GWK_band iSrcOffset iDstOffset iBand st = st.
Proof.
  intros Hm. unfold GWK_band.
  destruct (eResample (wk st)); [contradiction|reflexivity|reflexivity].
Qed.

Lemma GWK_pixel_stub (w : Z) (padfX padfY : list float) (iDstY iDstX : Z)
    (st : State) :
  eResample (wk st) <> GRA_NearestNeighbour ->
  GWK_pixel w padfX padfY iDstY iDstX st = st.
Proof.
  intros Hm. unfold GWK_pixel.
  repeat (match goal with |- (if ?c then _ else _) = _ => destruct c end;
          try reflexivity).
  apply (for_upto_ind (fun s => s = st)); [reflexivity|].
  intros i s' _ ->. apply GWK_band_stub. exact Hm.
Qed.

Lemma GWK_scanline_stub (k : Kernel) (w iDstY : Z) (st : State) :
  eResample k <> GRA_NearestNeighbour ->
  untouched k st -> untouched k (GWK_scanline w iDstY st).
Proof.
  intros Hm (Hc & Himg & Hset & Hget).
  pose proof (GWK_scanline_effect w iDstY st) as (Hc' & _).
  unfold GWK_scanline in *.
  pose proof (GWK_transform_effect iDstY st) as (Hk1 & _ & _ & bT & Ht1).
  destruct (GWK_transform iDstY st) as [[padfX padfY] st1]. simpl in *.
  assert (Hm1 : eResample (wk st1) <> GRA_NearestNeighbour).
  { rewrite Hk1. simpl. config_fields Hc. congruence. }
  assert (Hloop : for_upto (nDstXSize (wk st))
                    (GWK_pixel w padfX padfY iDstY) st1 = st1).
  { apply (for_upto_ind (fun s => s = st1)); [reflexivity|].
    intros i s' _ ->. apply GWK_pixel_stub. exact Hm1. }
  rewrite Hloop in *.
  pose proof (GWK_report_effect iDstY st1) as (Hk3 & _ & _ & Ht3).
  repeat split.
  - congruence.
  - rewrite Hk3. simpl. rewrite Hk1. simpl. exact Himg.
  - rewrite Ht3, Ht1. unfold set_pixels in *. rewrite !omap_app, Hset.
    destruct (GWK_answer iDstY st1); reflexivity.
  - rewrite Ht3, Ht1. unfold get_pixels in *. rewrite !omap_app, Hget.
    destruct (GWK_answer iDstY st1); reflexivity.
Qed.

Lemma GWK_lines_stub (k : Kernel) (st : State) :
  eResample k <> GRA_NearestNeighbour ->
  untouched k st -> untouched k (GWK_lines st).
Proof.
  intros Hm Hu. unfold GWK_lines. apply for_upto_ind; [exact Hu|].
  intros i s' _ Hs'. unfold GWK_line. destruct (eErr s'); [|exact Hs'].
  apply GWK_scanline_stub; assumption.
Qed.

Lemma GWKGeneralCase_stub (k : Kernel) :
  eResample k <> GRA_NearestNeighbour -> untouched k (GWKGeneralCase k).
Proof.
  intros Hm. unfold GWKGeneralCase, GWK_progress. simpl wk.
  destruct (pfnProgress k _ _ _) as [[|] pArg]; simpl negb; cbv iota.
  - match goal with |- context [GWK_lines ?s] => set (st0 := s) end.
    assert (Hu0 : untouched k st0) by (repeat split).
    destruct (GWK_lines_stub k st0 Hm Hu0) as (Hc & Himg & Hset & Hget).
    repeat split; simpl; try assumption.
    + unfold set_pixels in *. rewrite !omap_app, Hset. reflexivity.
    + unfold get_pixels in *. rewrite !omap_app, Hget. reflexivity.
  - repeat split.
Qed.

End Effects.

(** ** The destination density and validity planes *)

(** C4 (the code at the failing input).  No warp changes the destination
    density plane or the destination validity plane.  In particular, when
    one Byte pixel of value 7 and density 1 is composited into
    destination pixel 0, whose density plane holds 0 and whose validity
    word is 0, the value is stored, but the destination density stays 0
    (and does not become max(0, 1) = 1) and bit 0 of the destination
    validity plane stays clear. *)
Theorem C4_compositor_leaves_density_and_validity :
  forall ind : Indeterminate,
    (forall (T P : Type) (k : GDALWarpKernel T P),
        pafDstDensity (wk (PerformWarp k)) = pafDstDensity k /\
        panDstValid (wk (PerformWarp k)) = panDstValid k) /\
    let res := PerformWarp Scenario.one_pixel_masked in
    eErr res = CE_None /\
    set_pixels (trace res) = [(0, 0)] /\
    papabyDstImage (wk res) = [[7]] /\
    pafDstDensity (wk res) = Some [0%float] /\
    panDstValid (wk res) = Some [0].
Proof.
  intros ind. split.
  - intros T P k. rewrite PerformWarp_validated.
    pose proof (GWKGeneralCase_config k) as Hc. config_fields Hc.
    split; congruence.
  - repeat split; vm_compute; reflexivity.
Qed.

(** ** Bilinear and Cubic *)

(** C1.  For every kernel whose resampling algorithm is Bilinear or
    Cubic, [PerformWarp] leaves every destination band buffer as it was
    (the run reads no source pixel and never calls [GWKSetPixelValue]),
    and it returns [CE_None] whenever the progress callback always
    answers true. *)
Theorem C1_bilinear_and_cubic_write_nothing :
  forall (T P : Type) (ind : Indeterminate) (k : GDALWarpKernel T P),
    eResample k = GRA_Bilinear \/ eResample k = GRA_Cubic ->
    let res := PerformWarp k in
    papabyDstImage (wk res) = papabyDstImage k /\
    set_pixels (trace res) = [] /\
    get_pixels (trace res) = [] /\
    (never_cancels k -> eErr res = CE_None).
Proof.
  intros T P ind k Hm res.
  assert (Hm' : eResample k <> GRA_NearestNeighbour)
    by (destruct Hm as [-> | ->]; discriminate).
  destruct (GWKGeneralCase_stub k Hm') as (_ & Himg & Hset & Hget).
  unfold res, PerformWarp. simpl Validate. cbv iota.
  split; [exact Himg|]. split; [exact Hset|]. split; [exact Hget|].
  intros Hnc.
  destruct (GWKGeneralCase_continue k Hnc) as (_ & He & _). exact He.
Qed.

Lemma C1_bilinear_and_cubic_write_nothing_witness :
  let k := Scenario.with_eResample Scenario.S1 GRA_Bilinear in
  let res := PerformWarp (ind := Scenario.x86_64) k in
  papabyDstImage (wk res) = [replicate 16 0] /\
  set_pixels (trace res) = [] /\
  get_pixels (trace res) = [] /\
  (never_cancels k -> eErr res = CE_None).
Proof.
  exact (C1_bilinear_and_cubic_write_nothing unit unit Scenario.x86_64
           (Scenario.with_eResample Scenario.S1 GRA_Bilinear)
           (or_introl eq_refl)).
Defined.

(** ** Progress *)

Lemma int32_small (z : Z) : INT_MIN <= z <= INT_MAX -> int32 z = z.
Proof.
  unfold int32, wrap_int, INT_MIN, INT_MAX. intros Hz.
  change (2 ^ (32 - 1)) with 2147483648. change (2 ^ 32) with 4294967296.
  change (2 ^ 31) with 2147483648 in Hz.
  rewrite Z.mod_small by lia. lia.
Qed.

Lemma bind_ext_elem {A B : Type} (f g : A -> list B) (l : list A) :
  (forall x, x ∈ l -> f x = g x) -> l ≫= f = l ≫= g.
Proof.
  induction l as [|a l IH]; intros Hfg; [reflexivity|].
  rewrite !bind_cons, (Hfg a) by left. f_equal.
  apply IH. intros x Hx. apply Hfg. right. exact Hx.
Qed.

(** C8 (counterexample).  A warp over one line, with a progress callback
    that never cancels, calls that callback twice and not once: once
    before the line, with a fraction computed from the unassigned line
    counter (12346 when the counter holds 12345), and once after it, with
    fraction 1; the fractions decrease.  (The fractions reported after
    the lines follow the sign of [dfProgressScale]: with base 1 and scale
    -1 they are 0.5 and then 0.) *)
Lemma C8_progress_is_also_called_before_the_first_line :
  let k := Scenario.one_byte Scenario.identity_transformer in
  let res := PerformWarp (ind := Scenario.x86_64) k in
  nDstYSize k = 1 /\
  callbacks (trace res)
  = [CallProgress 12346 true; CallTransformer 0; CallProgress 1 true] /\
  (1 <? 12346)%float = true /\
  callbacks (trace (PerformWarp (ind := Scenario.x86_64)
                      Scenario.two_lines_scaled_down))
  = [CallProgress (-6172) true;
     CallTransformer 0; CallProgress 0.5 true;
     CallTransformer 1; CallProgress 0 true].
Proof.
  repeat split; vm_compute; reflexivity.
Qed.

(** C8 (amended).  During a warp over [nDstYSize] lines with a progress
    callback that never cancels, the callback is called once before the
    first line and then exactly once after each completed line [r], the
    latter with the fraction
    [dfProgressBase + dfProgressScale * ((r+1) / nDstYSize)]; there is no
    other call of it.  (Nothing is said of the fraction of the first
    call.) *)
Theorem C8_progress_once_before_and_once_after_each_line :
  forall (T P : Type) (ind : Indeterminate) (k : GDALWarpKernel T P),
    never_cancels k ->
    nDstYSize k <= INT_MAX ->
    exists dfFirst : float,
      callbacks (trace (PerformWarp k))
      = CallProgress dfFirst true ::
        (r ← seqZ 0 (nDstYSize k);
         [CallTransformer r;
          CallProgress (dfProgressBase k + dfProgressScale k *
                          (double_of_Z (r + 1) / double_of_Z (nDstYSize k)))
                       true]).
Proof.
  intros T P ind k Hnc Hmax.
  destruct (GWKGeneralCase_continue k Hnc) as (_ & _ & Hcb & _).
  exists (GWK_fraction k stack_garbage).
  unfold PerformWarp. simpl. rewrite Hcb. f_equal.
  unfold line_calls. apply bind_ext_elem.
  intros r Hr. apply elem_of_seqZ in Hr.
  unfold GWK_fraction. rewrite int32_small; [reflexivity|].
  unfold INT_MIN, INT_MAX in *. lia.
Qed.

Lemma C8_progress_once_before_and_once_after_each_line_witness :
  exists dfFirst : float,
    callbacks (trace (PerformWarp (ind := Scenario.x86_64) Scenario.S1))
    = [CallProgress dfFirst true;
       CallTransformer 0; CallProgress 0.25 true;
       CallTransformer 1; CallProgress 0.5 true;
       CallTransformer 2; CallProgress 0.75 true;
       CallTransformer 3; CallProgress 1 true].
Proof.
  exact (C8_progress_once_before_and_once_after_each_line
           unit unit Scenario.x86_64 Scenario.S1
           (fun _ _ _ => eq_refl)
           (fun H : (4 ?= INT_MAX) = Gt => ltac:(discriminate H))).
Defined.

(* ================================================================== *)
(** * Which bytes a store can change                                    *)
(* ================================================================== *)

Section Frame.

Lemma buffer_agrees_refl (lo hi : Z) (p : list Z) : buffer_agrees lo hi p p.
Proof. split; auto. Qed.

Lemma buffer_agrees_trans (lo hi : Z) (p1 p2 p3 : list Z) :
  buffer_agrees lo hi p1 p2 -> buffer_agrees lo hi p2 p3 ->
  buffer_agrees lo hi p1 p3.
Proof.
  intros [Hl1 H1] [Hl2 H2]. split; [congruence|].
  intros j Hj. rewrite H2, H1; auto.
Qed.

Lemma buffer_agrees_weaken (lo hi lo' hi' : Z) (p p' : list Z) :
  lo' <= lo -> hi <= hi' ->
  buffer_agrees lo hi p p' -> buffer_agrees lo' hi' p p'.
Proof.
  intros Hlo Hhi [Hl H]. split; [exact Hl|].
  intros j Hj. apply H. lia.
Qed.

Lemma set_index_agrees (p : list Z) (off v : Z) :
  buffer_agrees off (off + 1) p (set_index p off v).
Proof.
  unfold set_index. destruct (off <? 0) eqn:E; [apply buffer_agrees_refl|].
  split; [apply length_insert|].
  intros j Hj. apply list_lookup_insert_ne. lia.
Qed.

Lemma poke_agrees (n : nat) (p : list Z) (off v : Z) :
  buffer_agrees off (off + Z.of_nat n) p (poke n p off v).
Proof.
  revert p off v. induction n as [|n IH]; intros p off v; simpl poke.
  - apply buffer_agrees_refl.
  - apply (buffer_agrees_trans _ _ _ (set_index p off (v mod 256))).
    + eapply buffer_agrees_weaken; [| |apply set_index_agrees]; lia.
    + eapply buffer_agrees_weaken; [| |apply IH]; lia.
Qed.

Lemma store_int_agrees (n : nat) (p : list Z) (i v : Z) :
  buffer_agrees (Z.of_nat n * i) (Z.of_nat n * (i + 1)) p (store_int n p i v).
Proof.
  unfold store_int.
  eapply buffer_agrees_weaken; [| |apply poke_agrees]; lia.
Qed.

Lemma store_float_agrees (p : list Z) (i : Z) (x : float) :
  buffer_agrees (4 * i) (4 * (i + 1)) p (store_float p i x).
Proof.
  unfold store_float.
  eapply buffer_agrees_weaken; [| |apply poke_agrees]; lia.
Qed.

Lemma store_double_agrees (p : list Z) (i : Z) (x : float) :
  buffer_agrees (8 * i) (8 * (i + 1)) p (store_double p i x).
Proof.
  unfold store_double.
  eapply buffer_agrees_weaken; [| |apply poke_agrees]; lia.
Qed.

Ltac one_store :=
  eapply buffer_agrees_weaken;
  [| |first [apply store_int_agrees | apply store_float_agrees
            | apply store_double_agrees]]; lia.

(** A store of pixel [iDstOffset] changes no byte outside that pixel. *)
Lemma GWKSetPixelValue_band_agrees {ind : Indeterminate}
    (eType : GDALDataType) (p p' : list Z) (iDstOffset : Z)
    (dfReal dfImag : float) :
  0 <= iDstOffset -> 2 * iDstOffset + 1 <= INT_MAX ->
  GWKSetPixelValue_band eType p iDstOffset dfReal dfImag = Some p' ->
  buffer_agrees (iDstOffset * pixel_bytes eType)
                ((iDstOffset + 1) * pixel_bytes eType) p p'.
Proof.
  intros H0 Hmax Hp.
  assert (Hre : int32 (iDstOffset * 2) = iDstOffset * 2).
  { apply int32_small. unfold INT_MIN, INT_MAX in *. lia. }
  assert (Him : int32 (int32 (iDstOffset * 2) + 1) = iDstOffset * 2 + 1).
  { rewrite Hre. apply int32_small. unfold INT_MIN, INT_MAX in *. lia. }
  destruct eType; simpl in Hp; try discriminate;
    rewrite ?Him, ?Hre in Hp; injection Hp as <-; simpl pixel_bytes;
    repeat match goal with
           | |- context [if ?c then _ else _] => destruct c
           end;
    (eapply buffer_agrees_trans; [|one_store]);
    first [apply buffer_agrees_refl | one_store].
Qed.

End Frame.

Section ImageFrame.
Context {T P : Type} {ind : Indeterminate}.

Local Abbreviation Kernel := (GDALWarpKernel T P).
Local Abbreviation State := (@GWKState T P).

Lemma image_agrees_refl (lo hi : Z) (img : list (list Z)) :
  image_agrees lo hi img img.
Proof.
  induction img; constructor; [apply buffer_agrees_refl|assumption].
Qed.

Lemma image_agrees_trans (lo hi : Z) (img1 img2 img3 : list (list Z)) :
  image_agrees lo hi img1 img2 -> image_agrees lo hi img2 img3 ->
  image_agrees lo hi img1 img3.
Proof.
  intros H12. revert img3.
  induction H12 as [|p1 p2 l1 l2 Hp _ IH]; intros img3 H23;
    inversion H23; subst; constructor.
  - eapply buffer_agrees_trans; eassumption.
  - apply IH. assumption.
Qed.

Lemma image_agrees_weaken (lo hi lo' hi' : Z) (img img' : list (list Z)) :
  lo' <= lo -> hi <= hi' ->
  image_agrees lo hi img img' -> image_agrees lo' hi' img img'.
Proof.
  intros Hlo Hhi H. eapply Forall2_impl; [exact H|]. intros x y.
  apply buffer_agrees_weaken; assumption.
Qed.

Lemma image_agrees_set_index (lo hi : Z) (img : list (list Z)) (iBand : Z)
    (p' : list Z) :
  buffer_agrees lo hi (at_index [] img iBand) p' ->
  image_agrees lo hi img (set_index img iBand p').
Proof.
  unfold set_index, at_index.
  destruct (iBand <? 0); [intros _; apply image_agrees_refl|].
  intros Hp. apply Forall2_same_length_lookup. split.
  - symmetry. apply length_insert.
  - intros i x y Hx Hy.
    destruct (decide (i = Z.to_nat iBand)) as [->|Hne].
    + rewrite Hx in Hp. simpl in Hp.
      rewrite list_lookup_insert_eq in Hy
        by (apply lookup_lt_is_Some; eauto).
      injection Hy as <-. exact Hp.
    + rewrite list_lookup_insert_ne in Hy by congruence.
      rewrite Hx in Hy. injection Hy as <-. apply buffer_agrees_refl.
Qed.

Lemma GWKSetPixelValue_agrees (k : Kernel) (iBand iDstOffset : Z)
    (d r i : float) :
  0 <= iDstOffset -> 2 * iDstOffset + 1 <= INT_MAX ->
  image_agrees (iDstOffset * pixel_bytes (eWorkingDataType k))
               ((iDstOffset + 1) * pixel_bytes (eWorkingDataType k))
               (papabyDstImage k)
               (papabyDstImage (GWKSetPixelValue k iBand iDstOffset d r i).2).
Proof.
  intros H0 Hmax. unfold GWKSetPixelValue.
  destruct (GWKSetPixelValue_band _ _ _ _ _) as [p'|] eqn:E; simpl.
  - apply image_agrees_set_index.
    eapply GWKSetPixelValue_band_agrees; eassumption.
  - apply image_agrees_refl.
Qed.

Lemma writes_within_refl (k : Kernel) (lo hi : Z) (st : State) :
  config (wk st) = config k -> writes_within k lo hi st st.
Proof. intros Hc. split; [exact Hc|apply image_agrees_refl]. Qed.

Lemma writes_within_trans (k : Kernel) (lo hi : Z) (st1 st2 st3 : State) :
  writes_within k lo hi st1 st2 -> writes_within k lo hi st2 st3 ->
  writes_within k lo hi st1 st3.
Proof.
  intros [_ H1] [Hc H2]. split; [exact Hc|].
  eapply image_agrees_trans; eassumption.
Qed.

Lemma writes_within_weaken (k : Kernel) (lo hi lo' hi' : Z) (st st' : State) :
  lo' <= lo -> hi <= hi' ->
  writes_within k lo hi st st' -> writes_within k lo' hi' st st'.
Proof.
  intros Hlo Hhi [Hc H]. split; [exact Hc|].
  eapply image_agrees_weaken; eassumption.
Qed.

Lemma pixel_bytes_nonneg (eType : GDALDataType) : 0 <= pixel_bytes eType.
Proof. destruct eType; simpl; lia. Qed.

Lemma GWK_band_within (k : Kernel) (iSrcOffset iDstOffset iBand : Z)
    (st : State) :
  config (wk st) = config k ->
  0 <= iDstOffset -> 2 * iDstOffset + 1 <= INT_MAX ->
  writes_within k (iDstOffset * pixel_bytes (eWorkingDataType k))
                ((iDstOffset + 1) * pixel_bytes (eWorkingDataType k))
                st (GWK_band iSrcOffset iDstOffset iBand st).
Proof.
  intros Hc H0 Hmax.
  pose proof (pixel_step_band iSrcOffset iDstOffset iBand st) as Hstep.
  apply pixel_step_views in Hstep as (Hc' & _). split; [congruence|].
  assert (HeT : eWorkingDataType (wk st) = eWorkingDataType k)
    by (config_fields Hc; congruence).
  unfold GWK_band.
  destruct (eResample (wk st)); try apply image_agrees_refl.
  destruct (GWKGetPixelValue _ _ _ _ _ _) as [b [[d r] i]].
  destruct (d =? 0)%float; [apply image_agrees_refl|].
  pose proof (GWKSetPixelValue_agrees (wk st) iBand iDstOffset d r i H0 Hmax)
    as Hset.
  destruct (GWKSetPixelValue _ _ _ _ _ _) as [b' k'].
  simpl in *. rewrite <- HeT. exact Hset.
Qed.

(** Loop invariants of the form [writes_within]. *)
Lemma for_upto_within (k : Kernel) (lo hi n : Z)
    (body : Z -> State -> State) (st : State) :
  config (wk st) = config k ->
  (forall i s, 0 <= i < n -> config (wk s) = config k ->
               writes_within k lo hi s (body i s)) ->
  writes_within k lo hi st (for_upto n body st).
Proof.
  intros Hc Hbody.
  apply (for_upto_ind (fun s => writes_within k lo hi st s)).
  - apply writes_within_refl. exact Hc.
  - intros i s' Hi Hs'. eapply writes_within_trans; [exact Hs'|].
    apply Hbody; [exact Hi|apply Hs'].
Qed.

Lemma GWK_pixel_within (k : Kernel) (w : Z) (padfX padfY : list float)
    (iDstY iDstX : Z) (st : State) :
  config (wk st) = config k -> dst_fits k ->
  0 <= iDstX < nDstXSize k -> 0 <= iDstY < nDstYSize k ->
  let iDstOffset := iDstX + iDstY * nDstXSize k in
  writes_within k (iDstOffset * pixel_bytes (eWorkingDataType k))
                ((iDstOffset + 1) * pixel_bytes (eWorkingDataType k))
                st (GWK_pixel w padfX padfY iDstY iDstX st).
Proof.
  intros Hc Hfit Hx Hy iDstOffset. unfold dst_fits in Hfit.
  assert (HW : nDstXSize (wk st) = nDstXSize k) by (config_fields Hc; congruence).
  assert (Hyw : 0 <= iDstY * nDstXSize k <= (nDstYSize k - 1) * nDstXSize k) by nia.
  assert (Hoff : 0 <= iDstOffset /\ iDstOffset < nDstXSize k * nDstYSize k).
  { unfold iDstOffset. nia. }
  assert (H30 : 2 ^ 30 = 1073741824) by reflexivity.
  assert (Hi1 : int32 (iDstY * nDstXSize k) = iDstY * nDstXSize k).
  { apply int32_small. unfold INT_MIN, INT_MAX.
    change (2 ^ 31) with 2147483648. nia. }
  assert (Hi2 : int32 (iDstX + iDstY * nDstXSize k) = iDstOffset).
  { apply int32_small. unfold INT_MIN, INT_MAX, iDstOffset in *.
    change (2 ^ 31) with 2147483648. lia. }
  unfold GWK_pixel. rewrite HW, Hi1, Hi2.
  repeat (match goal with
          | |- writes_within _ _ _ _ (if ?c then _ else _) => destruct c
          end; try (apply writes_within_refl; exact Hc)).
  apply for_upto_within; [exact Hc|].
  intros iBand s _ Hs. apply GWK_band_within; [exact Hs|lia|].
  unfold INT_MAX. change (2 ^ 31) with 2147483648. lia.
Qed.

Lemma GWK_scanline_within (k : Kernel) (w iDstY : Z) (st : State) :
  config (wk st) = config k -> dst_fits k ->
  0 <= iDstY < nDstYSize k ->
  writes_within k
    (iDstY * nDstXSize k * pixel_bytes (eWorkingDataType k))
    ((iDstY + 1) * nDstXSize k * pixel_bytes (eWorkingDataType k))
    st (GWK_scanline w iDstY st).
Proof.
  intros Hc Hfit Hy.
  pose proof (GWK_scanline_effect w iDstY st) as (Hc' & _).
  split; [simpl in Hc'; congruence|].
  unfold GWK_scanline.
  pose proof (GWK_transform_effect iDstY st) as (Hk1 & _).
  destruct (GWK_transform iDstY st) as [[padfX padfY] st1]. simpl in Hk1.
  assert (Hc1 : config (wk st1) = config k) by (rewrite Hk1; exact Hc).
  assert (Hi1 : papabyDstImage (wk st1) = papabyDstImage (wk st))
    by (rewrite Hk1; reflexivity).
  assert (HW : nDstXSize (wk st) = nDstXSize k) by (config_fields Hc; congruence).
  set (st2 := for_upto _ _ st1).
  assert (H2 : writes_within k
    (iDstY * nDstXSize k * pixel_bytes (eWorkingDataType k))
    ((iDstY + 1) * nDstXSize k * pixel_bytes (eWorkingDataType k)) st1 st2).
  { apply for_upto_within; [exact Hc1|]. intros iDstX s Hx Hs.
    rewrite HW in Hx.
    pose proof (pixel_bytes_nonneg (eWorkingDataType k)) as Hes.
    eapply writes_within_weaken;
      [| |apply (GWK_pixel_within k w padfX padfY iDstY iDstX s Hs Hfit Hx Hy)];
      nia. }
  pose proof (GWK_report_effect iDstY st2) as (Hk3 & _).
  rewrite Hk3. simpl. rewrite <- Hi1. apply H2.
Qed.

Lemma GWK_line_within (k : Kernel) (iDstY : Z) (st : State) :
  config (wk st) = config k -> dst_fits k ->
  0 <= iDstY < nDstYSize k ->
  writes_within k
    (iDstY * nDstXSize k * pixel_bytes (eWorkingDataType k))
    ((iDstY + 1) * nDstXSize k * pixel_bytes (eWorkingDataType k))
    st (GWK_line iDstY st).
Proof.
  intros Hc Hfit Hy. unfold GWK_line.
  destruct (eErr st); [|apply writes_within_refl; exact Hc].
  apply GWK_scanline_within; assumption.
Qed.

Lemma line_bytes_mono (a b w es : Z) :
  a <= b -> 0 <= w -> 0 <= es -> a * w * es <= b * w * es.
Proof.
  intros Hab Hw Hes. rewrite <- !Z.mul_assoc.
  apply Z.mul_le_mono_nonneg_r; [|exact Hab].
  apply Z.mul_nonneg_nonneg; assumption.
Qed.

(** The lines of a list [l] whose members lie in [a, b) write within the
    bytes of the lines [a .. b-1]. *)
Lemma GWK_lines_within (k : Kernel) (a b : Z) (l : list Z) (st : State) :
  config (wk st) = config k -> dst_fits k ->
  0 <= a -> b <= nDstYSize k -> 0 <= nDstXSize k ->
  (forall y, y ∈ l -> a <= y < b) ->
  writes_within k
    (a * nDstXSize k * pixel_bytes (eWorkingDataType k))
    (b * nDstXSize k * pixel_bytes (eWorkingDataType k))
    st (foldl (fun s y => GWK_line y s) st l).
Proof.
  intros Hc Hfit Ha Hb HW. revert st Hc.
  induction l as [|y l IH]; intros st Hc Hl; simpl.
  - apply writes_within_refl. exact Hc.
  - assert (Hy : a <= y < b) by (apply Hl; left).
    pose proof (pixel_bytes_nonneg (eWorkingDataType k)) as Hes.
    assert (H1 : writes_within k
      (a * nDstXSize k * pixel_bytes (eWorkingDataType k))
      (b * nDstXSize k * pixel_bytes (eWorkingDataType k))
      st (GWK_line y st)).
    { eapply writes_within_weaken;
        [| |apply (GWK_line_within k y st Hc Hfit)];
        [apply line_bytes_mono|apply line_bytes_mono|]; lia. }
    eapply writes_within_trans; [exact H1|].
    apply IH; [apply H1|]. intros y' Hy'. apply Hl. right. exact Hy'.
Qed.

End ImageFrame.

(* ================================================================== *)
(** * The pixels do not depend on the progress callback                 *)
(* ================================================================== *)

(** From an equation between two configurations without their progress
    fields to the equations between the fields, used at once to
    rewrite. *)
Ltac warp_fields H :=
  unfold config in H; simpl in H; injection H;
  do 18 (let Heq := fresh "Heq" in intros Heq; rewrite ?Heq in *; clear Heq).

Section Independence.
Context {T P : Type} {ind : Indeterminate}.

Local Abbreviation Kernel := (GDALWarpKernel T P).
Local Abbreviation State := (@GWKState T P).

Lemma for_upto_rel {S1 S2 : Type} (R : S1 -> S2 -> Prop) (n : Z)
    (body1 : Z -> S1 -> S1) (body2 : Z -> S2 -> S2) (s1 : S1) (s2 : S2) :
  R s1 s2 ->
  (forall i a b, 0 <= i < n -> R a b -> R (body1 i a) (body2 i b)) ->
  R (for_upto n body1 s1) (for_upto n body2 s2).
Proof.
  intros Hs Hbody. unfold for_upto.
  assert (Hl : forall i, i ∈ seqZ 0 n -> 0 <= i < n).
  { intros i Hi. apply elem_of_seqZ in Hi. lia. }
  revert s1 s2 Hs Hl. generalize (seqZ 0 n) as l.
  induction l as [|i l IH]; intros s1 s2 Hs Hl; simpl; [exact Hs|].
  apply IH.
  - apply Hbody; [apply Hl; left | exact Hs].
  - intros j Hj. apply Hl. right. exact Hj.
Qed.

Lemma GWKGetPixelValue_same (kA kB : Kernel) (iBand iSrcOffset : Z)
    (d r i : float) :
  (config kA).1 = (config kB).1 ->
  GWKGetPixelValue kA iBand iSrcOffset d r i
  = GWKGetPixelValue kB iBand iSrcOffset d r i.
Proof.
  intros Hc. unfold GWKGetPixelValue. warp_fields Hc. reflexivity.
Qed.

Lemma GWKSetPixelValue_same (kA kB : Kernel) (iBand iDstOffset : Z)
    (d r i : float) :
  (config kA).1 = (config kB).1 ->
  papabyDstImage kA = papabyDstImage kB ->
  papabyDstImage (GWKSetPixelValue kA iBand iDstOffset d r i).2
  = papabyDstImage (GWKSetPixelValue kB iBand iDstOffset d r i).2.
Proof.
  intros Hc. unfold GWKSetPixelValue. warp_fields Hc.
  intros Himg. rewrite Himg.
  destruct (GWKSetPixelValue_band _ _ _ _ _); simpl; [reflexivity|exact Himg].
Qed.

(** A pixel step keeps [same_warp] with the state it started from, up
    to the band buffers. *)
Lemma same_warp_pixel_steps (stA stA' stB stB' : State) :
  same_warp stA stB ->
  pixel_step stA stA' -> pixel_step stB stB' ->
  papabyDstImage (wk stA') = papabyDstImage (wk stB') ->
  same_warp stA' stB'.
Proof.
  intros (Hc & _ & Ht & Hs) (HkA & _ & HsA & _) (HkB & _ & HsB & _) Himg.
  repeat split; try congruence.
  - rewrite HkA, HkB. exact Hc.
  - rewrite HkA, HkB. exact Ht.
Qed.

Lemma same_warp_band (iSrcOffset iDstOffset iBand : Z) (stA stB : State) :
  same_warp stA stB ->
  same_warp (GWK_band iSrcOffset iDstOffset iBand stA)
            (GWK_band iSrcOffset iDstOffset iBand stB).
Proof.
  intros Hsim.
  apply (same_warp_pixel_steps stA _ stB _ Hsim);
    try apply pixel_step_band.
  destruct Hsim as (Hc & Himg & _ & _).
  unfold GWK_band.
  rewrite (GWKGetPixelValue_same (wk stA) (wk stB)) by exact Hc.
  assert (Hm : eResample (wk stA) = eResample (wk stB)).
  { warp_fields Hc. reflexivity. }
  rewrite Hm. destruct (eResample (wk stB)); try exact Himg.
  destruct (GWKGetPixelValue _ _ _ _ _ _) as [b [[d r] i]].
  destruct (d =? 0)%float; [exact Himg|].
  pose proof (GWKSetPixelValue_same (wk stA) (wk stB) iBand iDstOffset d r i
                Hc Himg) as Hset.
  destruct (GWKSetPixelValue (wk stA) _ _ _ _ _) as [bA kA'].
  destruct (GWKSetPixelValue (wk stB) _ _ _ _ _) as [bB kB'].
  exact Hset.
Qed.

Lemma same_warp_pixel (w : Z) (padfX padfY : list float) (iDstY iDstX : Z)
    (stA stB : State) :
  same_warp stA stB ->
  same_warp (GWK_pixel w padfX padfY iDstY iDstX stA)
            (GWK_pixel w padfX padfY iDstY iDstX stB).
Proof.
  intros Hsim. pose proof Hsim as (Hc & Himg & Ht & Hs).
  unfold GWK_pixel. rewrite Hs.
  assert (Hf :
    (nSrcXOff (wk stA), nSrcYOff (wk stA), nSrcXSize (wk stA),
     nSrcYSize (wk stA), nDstXSize (wk stA), panDstValid (wk stA),
     nBands (wk stA))
    = (nSrcXOff (wk stB), nSrcYOff (wk stB), nSrcXSize (wk stB),
       nSrcYSize (wk stB), nDstXSize (wk stB), panDstValid (wk stB),
       nBands (wk stB))).
  { warp_fields Hc. reflexivity. }
  injection Hf as -> -> -> -> -> -> ->.
  repeat (match goal with
          | |- same_warp (if ?c then _ else _) _ => destruct c
          end; try exact Hsim).
  apply for_upto_rel; [exact Hsim|].
  intros iBand a b _ Hab. apply same_warp_band. exact Hab.
Qed.

Lemma same_warp_transform (iDstY : Z) (stA stB : State) :
  same_warp stA stB ->
  (GWK_transform iDstY stA).1 = (GWK_transform iDstY stB).1 /\
  same_warp (GWK_transform iDstY stA).2 (GWK_transform iDstY stB).2.
Proof.
  intros (Hc & Himg & Ht & Hs).
  assert (Hf :
    (nDstXSize (wk stA), nDstXOff (wk stA), nDstYOff (wk stA),
     pfnTransformer (wk stA))
    = (nDstXSize (wk stB), nDstXOff (wk stB), nDstYOff (wk stB),
       pfnTransformer (wk stB))).
  { warp_fields Hc. reflexivity. }
  injection Hf as HW HX HY HT.
  assert (Hcore :
    ((GWK_transform iDstY stA).1,
     pTransformerArg (wk (GWK_transform iDstY stA).2),
     pabSuccess (GWK_transform iDstY stA).2)
    = ((GWK_transform iDstY stB).1,
       pTransformerArg (wk (GWK_transform iDstY stB).2),
       pabSuccess (GWK_transform iDstY stB).2)).
  { unfold GWK_transform. simpl. rewrite Hs, Ht, HW, HX, HY, HT. reflexivity. }
  pose proof (f_equal (fun t => t.1.1) Hcore) as Hxy.
  pose proof (f_equal (fun t => t.1.2) Hcore) as Harg.
  pose proof (f_equal (fun t => t.2) Hcore) as Hsucc.
  cbn [fst snd] in Hxy, Harg, Hsucc. clear Hcore.
  pose proof (GWK_transform_effect iDstY stA) as (HkA & _).
  pose proof (GWK_transform_effect iDstY stB) as (HkB & _).
  cbv zeta in HkA, HkB.
  split; [exact Hxy|]. unfold same_warp.
  split; [rewrite HkA, HkB; exact Hc|].
  split; [rewrite HkA, HkB; exact Himg|].
  split; assumption.
Qed.

Lemma same_warp_report (iDstYA iDstYB : Z) (stA stB : State) :
  same_warp stA stB ->
  same_warp (GWK_report iDstYA stA) (GWK_report iDstYB stB).
Proof.
  intros (Hc & Himg & Ht & Hs).
  pose proof (GWK_report_effect iDstYA stA) as (HkA & HsA & _).
  pose proof (GWK_report_effect iDstYB stB) as (HkB & HsB & _).
  unfold same_warp. rewrite HkA, HkB, HsA, HsB. simpl. auto.
Qed.

Lemma same_warp_scanline (w iDstY : Z) (stA stB : State) :
  same_warp stA stB ->
  same_warp (GWK_scanline w iDstY stA) (GWK_scanline w iDstY stB).
Proof.
  intros Hsim. unfold GWK_scanline.
  assert (HW : nDstXSize (wk stA) = nDstXSize (wk stB)).
  { destruct Hsim as (Hc & _). warp_fields Hc. reflexivity. }
  rewrite HW.
  destruct (same_warp_transform iDstY stA stB Hsim) as [Hxy Hsim1].
  destruct (GWK_transform iDstY stA) as [[xA yA] stA1].
  destruct (GWK_transform iDstY stB) as [[xB yB] stB1].
  simpl in Hxy, Hsim1. injection Hxy as -> ->.
  apply same_warp_report.
  apply for_upto_rel; [exact Hsim1|].
  intros iDstX a b _ Hab. apply same_warp_pixel. exact Hab.
Qed.

End Independence.

(* ================================================================== *)
(** * Runs that are cancelled                                           *)
(* ================================================================== *)

Section Cancellation.
Context {T P : Type} {ind : Indeterminate}.

Local Abbreviation Kernel := (GDALWarpKernel T P).
Local Abbreviation State := (@GWKState T P).

Lemma answers_outer (tr : list event) : answers (outer tr) = answers tr.
Proof.
  unfold answers, progress_calls. f_equal.
  apply omap_outer. intros [] He; simpl in He; tauto.
Qed.

Lemma answers_app (tr1 tr2 : list event) :
  answers (tr1 ++ tr2) = answers tr1 ++ answers tr2.
Proof. unfold answers, progress_calls. rewrite omap_app. apply fmap_app. Qed.

(** What a line adds to the views of the log. *)
Lemma GWK_scanline_views (w iDstY : Z) (st : State) :
  let b := GWK_answer iDstY st in
  let st' := GWK_scanline w iDstY st in
  answers (trace st') = answers (trace st) ++ [b] /\
  errors (trace st')
  = errors (trace st) ++ (if b then [] else [user_terminated]) /\
  allocated (trace st') = allocated (trace st) /\
  freed (trace st') = freed (trace st).
Proof.
  pose proof (GWK_scanline_effect w iDstY st) as (_ & _ & _ & bT & sT & Ht).
  cbv zeta in *.
  rewrite <- answers_outer, <- errors_outer, <- allocated_outer,
          <- freed_outer, Ht.
  rewrite answers_app, answers_outer.
  unfold errors, allocated, freed. rewrite !omap_app.
  fold (errors (outer (trace st))). fold (allocated (outer (trace st))).
  fold (freed (outer (trace st))).
  rewrite errors_outer, allocated_outer, freed_outer.
  destruct (GWK_answer iDstY st); simpl; rewrite ?app_nil_r; auto.
Qed.

Lemma replicate_snoc {A : Type} (n : nat) (x : A) :
  replicate (S n) x = replicate n x ++ [x].
Proof.
  induction n as [|n IH]; [reflexivity|].
  change (x :: replicate (S n) x = x :: (replicate n x ++ [x])).
  f_equal. exact IH.
Qed.

Lemma GWK_lines_outcome (st : State) (n : Z) :
  eErr st = CE_None -> 0 <= n ->
  lines_outcome st (for_upto n GWK_line st) n.
Proof.
  intros He Hn.
  apply (for_upto_rec (fun m s' => lines_outcome st s' m)); [exact Hn| |].
  - left. rewrite for_upto_nonpos by lia. simpl. rewrite app_nil_r. auto 10.
  - intros i s' Hi [(He' & Hs' & Han & Her & Hal & Hfr)
                   |(r & Hr & Her0 & Hs' & He' & Han & Her & Hal & Hfr)].
    + (* no line has been cancelled so far *)
      unfold GWK_line at 1. rewrite He'.
      pose proof (GWK_scanline_effect (GWK_nResWinSize (wk s')) i s')
        as (_ & He2 & _).
      pose proof (GWK_scanline_views (GWK_nResWinSize (wk s')) i s')
        as (Han2 & Her2 & Hal2 & Hfr2).
      cbv zeta in *.
      assert (Hnext : GWK_scanline (GWK_nResWinSize (wk s')) i s'
                      = for_upto (i + 1) GWK_line st).
      { rewrite for_upto_succ by lia. rewrite <- Hs'.
        unfold GWK_line. rewrite He'. reflexivity. }
      destruct (GWK_answer i s') eqn:Hb; rewrite ?app_nil_r in Her2.
      * left. repeat split; try congruence.
        rewrite Han2, Han, <- app_assoc. f_equal.
        rewrite Z2Nat.inj_add by lia. change (Z.to_nat 1) with 1%nat.
        rewrite Nat.add_1_r. symmetry. apply replicate_snoc.
      * right. exists i. rewrite <- Hs'.
        repeat split; try congruence; try lia.
        rewrite Han2, Han, <- app_assoc. reflexivity.
    + (* line r was cancelled: the remaining lines are not run *)
      assert (Hskip : GWK_line i s' = s')
        by (unfold GWK_line; rewrite He'; reflexivity).
      rewrite Hskip. right. exists r.
      repeat split; try assumption; lia.
Qed.

Lemma GWK_line_running (iDstY : Z) (st : State) :
  eErr st = CE_None ->
  GWK_line iDstY st = GWK_scanline (GWK_nResWinSize (wk st)) iDstY st.
Proof. intros He. unfold GWK_line. rewrite He. reflexivity. Qed.

(** While nobody cancels, the loop keeps [eErr] at [CE_None]. *)
Lemma GWK_lines_prefix_continue (st : State) (m : Z) :
  never_cancels (wk st) -> eErr st = CE_None ->
  config (wk (for_upto m GWK_line st)) = config (wk st) /\
  eErr (for_upto m GWK_line st) = CE_None.
Proof.
  intros Hnc He.
  apply (for_upto_ind (fun s => config (wk s) = config (wk st) /\
                                eErr s = CE_None)); [auto|].
  intros i s' _ [Hc He']. unfold GWK_line. rewrite He'.
  pose proof (GWK_scanline_effect (GWK_nResWinSize (wk s')) i s')
    as (Hc2 & He2 & _). cbv zeta in *.
  assert (Hb : GWK_answer i s' = true).
  { apply (never_cancels_config (wk st)); assumption. }
  rewrite Hb in He2. split; congruence.
Qed.

(** As long as the cancelled run has not been cancelled, it is in step
    with the run that nobody cancels. *)
Lemma GWK_lines_in_step (stA stB : State) (m : Z) :
  same_warp stA stB ->
  never_cancels (wk stB) -> eErr stB = CE_None ->
  0 <= m ->
  eErr (for_upto m GWK_line stA) = CE_None ->
  same_warp (for_upto m GWK_line stA) (for_upto m GWK_line stB).
Proof.
  intros Hsim Hnc HeB Hm. pattern m. apply natlike_ind; [| |exact Hm].
  - intros _. rewrite !for_upto_nonpos by lia. exact Hsim.
  - intros x Hx IH. unfold Z.succ. rewrite !for_upto_succ by lia.
    destruct (GWK_lines_prefix_continue stB x Hnc HeB) as [_ HeBx].
    set (sA := for_upto x GWK_line stA) in *.
    set (sB := for_upto x GWK_line stB) in *.
    assert (HB : GWK_line x sB = GWK_scanline (GWK_nResWinSize (wk sB)) x sB)
      by (unfold GWK_line; rewrite HeBx; reflexivity).
    rewrite HB. unfold GWK_line.
    destruct (eErr sA) eqn:HeAx.
    + intros _. specialize (IH eq_refl).
      assert (Hw : GWK_nResWinSize (wk sA) = GWK_nResWinSize (wk sB)).
      { destruct IH as (Hc & _). unfold GWK_nResWinSize.
        warp_fields Hc. reflexivity. }
      rewrite Hw. apply same_warp_scanline. exact IH.
    + intros Habs. rewrite HeAx in Habs. discriminate.
Qed.

Lemma GWKGeneralCase_entered (k : Kernel) :
  GWK_answer stack_garbage (GWK_init k) = true ->
  GWKGeneralCase k = GWK_exit (GWK_lines (GWK_entry k)).
Proof.
  unfold GWK_answer, GWKGeneralCase, GWK_entry, GWK_exit, GWK_init,
         GWK_progress.
  simpl wk. destruct (pfnProgress k _ _ _) as [b pArg]. simpl.
  intros ->. reflexivity.
Qed.

Lemma GWKGeneralCase_refused (k : Kernel) :
  GWK_answer stack_garbage (GWK_init k) = false ->
  answers (trace (GWKGeneralCase k)) = [false].
Proof.
  unfold GWK_answer, GWKGeneralCase, GWK_init, GWK_progress.
  simpl wk. destruct (pfnProgress k _ _ _) as [b pArg]. simpl.
  intros ->. reflexivity.
Qed.

Lemma GWK_entry_facts (k : Kernel) :
  GWK_answer stack_garbage (GWK_init k) = true ->
  let s := GWK_entry k in
  wk s = with_pProgress k (pProgress (wk s)) /\
  eErr s = CE_None /\
  pabSuccess s = heap_garbage <$> seq 0 (Z.to_nat (nDstXSize k)) /\
  answers (trace s) = [true] /\
  errors (trace s) = [] /\
  allocated (trace s) = GWK_arrays /\
  freed (trace s) = [].
Proof.
  unfold GWK_answer, GWK_entry, GWK_init, GWK_progress.
  simpl wk. destruct (pfnProgress k _ _ _) as [b pArg]. simpl.
  intros ->. repeat split.
Qed.

Lemma GWK_exit_facts (st : State) :
  let s := GWK_exit st in
  wk s = wk st /\
  eErr s = eErr st /\
  answers (trace s) = answers (trace st) /\
  errors (trace s) = errors (trace st) /\
  allocated (trace s) = allocated (trace st) /\
  freed (trace s) = freed (trace st) ++ GWK_arrays.
Proof.
  unfold GWK_exit. simpl. repeat split.
  - rewrite !answers_app. simpl. rewrite !app_nil_r. reflexivity.
  - unfold errors. rewrite !omap_app. simpl. rewrite !app_nil_r. reflexivity.
  - unfold allocated. rewrite !omap_app. simpl. rewrite !app_nil_r.
    reflexivity.
  - unfold freed. rewrite !omap_app. simpl. rewrite <- !app_assoc.
    reflexivity.
Qed.

Lemma replicate_true_not_false (n : nat) (l : list bool) :
  replicate n true <> l ++ [false].
Proof.
  intros Heq.
  assert (Hin : false ∈ replicate n true).
  { rewrite Heq. apply elem_of_app. right. left. }
  apply elem_of_replicate in Hin. destruct Hin as [Hin _]. discriminate.
Qed.

End Cancellation.

(** C9.  Let the progress callback answer false for the first time after
    the completed line [R] (its answers in the run are true before the
    first line and after each of the lines [0 .. R-1], then false), in a
    destination window of non-negative width that an [int] can index.
    Then the warp returns [CE_Failure] after reporting
    [CPLE_UserInterrupt]; it frees the four per-scanline arrays that it
    allocated; the bytes of the lines [0 .. R] of every destination band
    are those that the same warp leaves when the progress callback is
    [GDALDummyProgress], which never cancels; and the bytes of the lines
    after [R] are those of the band before the warp. *)
Theorem C9_cancelled_warp_keeps_completed_lines :
  forall (T P : Type) (ind : Indeterminate) (k : GDALWarpKernel T P) (R : Z),
    0 <= nDstXSize k -> dst_fits k ->
    0 <= R < nDstYSize k ->
    answers (trace (PerformWarp k))
    = replicate (Z.to_nat R + 1) true ++ [false] ->
    let res := PerformWarp k in
    let full := PerformWarp (with_pfnProgress k GDALDummyProgress) in
    let line := nDstXSize k * pixel_bytes (eWorkingDataType k) in
    eErr res = CE_Failure /\
    errors (trace res) = [user_terminated] /\
    allocated (trace res) = GWK_arrays /\
    freed (trace res) = GWK_arrays /\
    eErr full = CE_None /\
    image_agrees ((R + 1) * line) (nDstYSize k * line)
                 (papabyDstImage (wk res)) (papabyDstImage (wk full)) /\
    image_agrees 0 ((R + 1) * line)
                 (papabyDstImage k) (papabyDstImage (wk res)).
Proof.
  intros T P ind k R HW Hfit HR Hans res full line.
  subst res full. rewrite !PerformWarp_validated in *.
  (* the first answer is true *)
  destruct (GWK_answer stack_garbage (GWK_init k)) eqn:Hb0.
  2:{ rewrite (GWKGeneralCase_refused k Hb0) in Hans.
      rewrite Nat.add_1_r in Hans. discriminate Hans. }
  rewrite (GWKGeneralCase_entered k Hb0) in *.
  destruct (GWK_entry_facts k Hb0) as (HkA & HeA & HsA & HanA & HerA & HalA & HfrA).
  set (stA := GWK_entry k) in *.
  assert (HcA : config (wk stA) = config k) by (rewrite HkA; reflexivity).
  assert (HH : nDstYSize (wk stA) = nDstYSize k) by (rewrite HkA; reflexivity).
  (* the outcome of the loop over the lines *)
  destruct (GWK_exit_facts (GWK_lines stA)) as (Hk1 & He1 & Han1 & Her1 & Hal1 & Hfr1).
  cbv zeta in *. rewrite Han1 in Hans.
  unfold GWK_lines in *. rewrite HH in *.
  destruct (GWK_lines_outcome stA (nDstYSize k) HeA ltac:(lia))
    as [(_ & _ & Han & _)
       |(r & Hr & Her0 & Hs' & He' & Han & Her & Hal & Hfr)].
  { (* every line completed: the answers would all be true *)
    rewrite Han, HanA in Hans. exfalso.
    apply (replicate_true_not_false (S (Z.to_nat (nDstYSize k)))
                                    (replicate (Z.to_nat R + 1) true)).
    exact Hans. }
  (* line r was cancelled, and r = R *)
  assert (HrR : r = R).
  { rewrite Han, HanA in Hans. apply (f_equal length) in Hans.
    simpl in Hans. rewrite !length_app, !length_replicate in Hans.
    simpl in Hans. lia. }
  subst r.
  (* the run that nobody cancels *)
  set (kB := with_pfnProgress k GDALDummyProgress) in *.
  assert (HncB : never_cancels kB) by (intros f s p; reflexivity).
  assert (Hb0B : GWK_answer stack_garbage (GWK_init kB) = true) by reflexivity.
  change (PerformWarp kB) with (GWKGeneralCase kB).
  pose proof (GWKGeneralCase_entered kB Hb0B) as HentB.
  rewrite HentB. clear HentB.
  destruct (GWK_entry_facts kB Hb0B) as (HkB & HeB & HsB & _).
  set (stB := GWK_entry kB) in *.
  assert (HcB : config (wk stB) = config kB) by (rewrite HkB; reflexivity).
  assert (HncB' : never_cancels (wk stB))
    by (apply (never_cancels_config kB); assumption).
  destruct (GWK_exit_facts (GWK_lines stB)) as (Hk1B & He1B & _).
  cbv zeta in *. unfold GWK_lines in *.
  assert (HHB : nDstYSize (wk stB) = nDstYSize k) by (rewrite HkB; reflexivity).
  rewrite HHB in *.
  assert (Hsim : same_warp stA stB).
  { unfold same_warp. rewrite HkA, HkB, HsA, HsB. repeat split. }
  (* the two runs are in step up to and including line R *)
  assert (Hstep : same_warp (for_upto (R + 1) GWK_line stA)
                            (for_upto (R + 1) GWK_line stB)).
  { pose proof (GWK_lines_in_step stA stB R Hsim HncB' HeB ltac:(lia) Her0)
      as HsimR.
    rewrite !for_upto_succ by lia.
    destruct (GWK_lines_prefix_continue stB R HncB' HeB) as [_ HeBR].
    rewrite (GWK_line_running R _ Her0), (GWK_line_running R _ HeBR).
    assert (Hw : GWK_nResWinSize (wk (for_upto R GWK_line stA))
                 = GWK_nResWinSize (wk (for_upto R GWK_line stB))).
    { destruct HsimR as (Hc & _). unfold GWK_nResWinSize.
      warp_fields Hc. reflexivity. }
    rewrite Hw. apply same_warp_scanline. exact HsimR. }
  destruct Hstep as (_ & Himg & _).
  (* the lines after R of the run that nobody cancels *)
  assert (Hrest : writes_within kB ((R + 1) * line) (nDstYSize k * line)
                    (for_upto (R + 1) GWK_line stB)
                    (for_upto (nDstYSize k) GWK_line stB)).
  { replace (nDstYSize k) with ((R + 1) + (nDstYSize k - R - 1)) at 2 by lia.
    unfold for_upto at 2. rewrite seqZ_app by lia. rewrite foldl_app.
    fold (for_upto (R + 1) GWK_line stB).
    destruct (GWK_lines_prefix_continue stB (R + 1) HncB' HeB) as [HcBR _].
    unfold line. rewrite Z.mul_assoc, Z.mul_assoc.
    apply (GWK_lines_within kB (R + 1) (nDstYSize k)); try assumption;
      try lia; try congruence; try apply Z.le_refl.
    intros y Hy. apply elem_of_seqZ in Hy. lia. }
  (* the lines up to R of the cancelled run *)
  assert (Hdone : writes_within k 0 ((R + 1) * line)
                    stA (for_upto (R + 1) GWK_line stA)).
  { unfold line. rewrite Z.mul_assoc.
    change 0 with (0 * nDstXSize k * pixel_bytes (eWorkingDataType k)).
    apply (GWK_lines_within k 0 (R + 1)); try assumption; try lia.
    intros y Hy. apply elem_of_seqZ in Hy. lia. }
  rewrite Hs' in *.
  repeat split.
  - congruence.
  - rewrite Her1, Her, HerA. reflexivity.
  - rewrite Hal1, Hal. exact HalA.
  - rewrite Hfr1, Hfr, HfrA. reflexivity.
  - rewrite He1B.
    apply (GWK_lines_prefix_continue stB (nDstYSize k) HncB' HeB).
  - rewrite Hk1, Hk1B, Himg. apply Hrest.
  - rewrite Hk1.
    replace (papabyDstImage k) with (papabyDstImage (wk stA))
      by (rewrite HkA; reflexivity).
    apply Hdone.
Qed.

Lemma C9_cancelled_warp_keeps_completed_lines_witness :
  let k := Scenario.S6 in
  let res := PerformWarp (ind := Scenario.x86_64) k in
  let full := PerformWarp (ind := Scenario.x86_64)
                (with_pfnProgress k GDALDummyProgress) in
  (answers (trace res) = [true; true; true; true; false] /\
   papabyDstImage (wk res) = [seqZ 1 8 ++ replicate 8 0] /\
   papabyDstImage (wk full) = [seqZ 1 16]) /\
  (eErr res = CE_Failure /\
   errors (trace res) = [user_terminated] /\
   allocated (trace res) = GWK_arrays /\
   freed (trace res) = GWK_arrays /\
   eErr full = CE_None /\
   image_agrees ((3 + 1) * (2 * 1)) (8 * (2 * 1))
                (papabyDstImage (wk res)) (papabyDstImage (wk full)) /\
   image_agrees 0 ((3 + 1) * (2 * 1))
                (papabyDstImage k) (papabyDstImage (wk res))).
Proof.
  split.
  - repeat split; vm_compute; reflexivity.
  - apply (C9_cancelled_warp_keeps_completed_lines
             unit nat Scenario.x86_64 Scenario.S6 3).
    + simpl. lia.
    + unfold dst_fits. simpl. lia.
    + simpl. lia.
    + vm_compute. reflexivity.
Defined.

(* ================================================================== *)
(** * Points that the transformer could not map                         *)
(* ================================================================== *)

Section Skipped.
Context {T P : Type} {ind : Indeterminate}.

Local Abbreviation Kernel := (GDALWarpKernel T P).
Local Abbreviation State := (@GWKState T P).

Lemma image_keeps_refl (lo hi : Z) (img : list (list Z)) :
  image_keeps lo hi img img.
Proof. induction img; constructor; [split; auto|assumption]. Qed.

Lemma image_keeps_trans (lo hi : Z) (img1 img2 img3 : list (list Z)) :
  image_keeps lo hi img1 img2 -> image_keeps lo hi img2 img3 ->
  image_keeps lo hi img1 img3.
Proof.
  intros H12. revert img3.
  induction H12 as [|p1 p2 l1 l2 [Hl1 Hp] _ IH]; intros img3 H23;
    inversion H23 as [|? p3 ? l3 [Hl2 Hp'] ?]; subst; constructor.
  - split; [congruence|]. intros j Hj. rewrite Hp', Hp; auto.
  - apply IH. assumption.
Qed.

(** Bytes outside a range that is written are kept. *)
Lemma image_agrees_keeps (a b lo hi : Z) (img img' : list (list Z)) :
  hi <= a \/ b <= lo ->
  image_agrees a b img img' -> image_keeps lo hi img img'.
Proof.
  intros Hd H. eapply Forall2_impl; [exact H|].
  intros p p' [Hl Hp]. split; [exact Hl|].
  intros j Hj. apply Hp. lia.
Qed.

Lemma GWK_pixel_failed (w : Z) (padfX padfY : list float) (iDstY iDstX : Z)
    (st : State) :
  at_index 0 (pabSuccess st) iDstX = 0 ->
  GWK_pixel w padfX padfY iDstY iDstX st = st.
Proof. intros Hs. unfold GWK_pixel. rewrite Hs. reflexivity. Qed.

Lemma transformer_calls_outer (tr : list event) :
  transformer_calls (outer tr) = transformer_calls tr.
Proof. apply omap_outer. intros [] He; simpl in He; tauto. Qed.

(** A line keeps the pixels whose success flag the transformer left at
    zero. *)
Lemma GWK_scanline_skips (k : Kernel) (w iDstY iDstX : Z) (st : State) :
  config (wk st) = config k -> dst_fits k ->
  0 <= iDstX < nDstXSize k -> 0 <= iDstY < nDstYSize k ->
  let st' := GWK_scanline w iDstY st in
  exists bT s,
    transformer_calls (trace st')
    = transformer_calls (trace st) ++ [(iDstY, bT, s)] /\
    (at_index 0 s iDstX = 0 ->
     image_keeps (pixel_lo k iDstX iDstY) (pixel_hi k iDstX iDstY)
                 (papabyDstImage (wk st)) (papabyDstImage (wk st'))).
Proof.
  intros Hc Hfit Hx Hy. unfold GWK_scanline.
  pose proof (GWK_transform_effect iDstY st) as (Hk1 & _ & _ & bT & Ht1).
  destruct (GWK_transform iDstY st) as [[padfX padfY] st1]. simpl in Hk1, Ht1.
  assert (Hc1 : config (wk st1) = config k) by (rewrite Hk1; exact Hc).
  assert (Hi1 : papabyDstImage (wk st1) = papabyDstImage (wk st))
    by (rewrite Hk1; reflexivity).
  assert (HW : nDstXSize (wk st) = nDstXSize k) by (config_fields Hc; congruence).
  set (st2 := for_upto _ _ st1).
  assert (Hpx : pixel_step st1 st2).
  { apply pixel_step_for_upto. intros. apply pixel_step_pixel. }
  pose proof (pixel_step_views _ _ Hpx) as (_ & _ & _ & Hout).
  pose proof (GWK_report_effect iDstY st2) as (Hk3 & _ & _ & Ht3).
  exists bT, (pabSuccess st1). split.
  - rewrite <- transformer_calls_outer, Ht3.
    unfold outer at 1. rewrite omap_app. fold (outer (trace st2)).
    rewrite Hout, Ht1. unfold outer at 1. rewrite omap_app.
    fold (outer (trace st)). unfold transformer_calls at 1.
    rewrite !omap_app. fold (transformer_calls (outer (trace st))).
    rewrite transformer_calls_outer.
    destruct (GWK_answer iDstY st2); simpl; rewrite ?app_nil_r; reflexivity.
  - intros Hfail. rewrite Hk3. simpl. rewrite <- Hi1.
    pose proof (pixel_bytes_nonneg (eWorkingDataType k)) as Hes.
    apply (for_upto_ind (fun s =>
      config (wk s) = config k /\ pabSuccess s = pabSuccess st1 /\
      image_keeps (pixel_lo k iDstX iDstY) (pixel_hi k iDstX iDstY)
                  (papabyDstImage (wk st1)) (papabyDstImage (wk s)))).
    + repeat split; auto. apply image_keeps_refl.
    + intros i s' Hi (Hcs & Hss & Hks). rewrite HW in Hi.
      destruct (Z.eq_dec i iDstX) as [->|Hne].
      * rewrite GWK_pixel_failed by congruence. auto.
      * pose proof (pixel_step_pixel w padfX padfY iDstY i s') as Hstep.
        pose proof (GWK_pixel_within k w padfX padfY iDstY i s' Hcs Hfit Hi Hy)
          as [Hc' Hag]. cbv zeta in Hag.
        split; [exact Hc'|]. split; [destruct Hstep as (_ & _ & -> & _); exact Hss|].
        eapply image_keeps_trans; [exact Hks|].
        eapply image_agrees_keeps; [|exact Hag].
        unfold pixel_lo, pixel_hi. nia.
Qed.

Lemma GWK_lines_skip (k : Kernel) (iDstX : Z) (st : State) :
  config (wk st) = config k -> dst_fits k ->
  papabyDstImage (wk st) = papabyDstImage k ->
  transformer_calls (trace st) = [] ->
  0 <= iDstX < nDstXSize k -> 0 <= nDstYSize k ->
  skips_upto k iDstX (nDstYSize k) (for_upto (nDstYSize k) GWK_line st).
Proof.
  intros Hc Hfit Himg Hcalls Hx HH.
  pose proof (pixel_bytes_nonneg (eWorkingDataType k)) as Hes.
  apply (for_upto_rec (skips_upto k iDstX)); [exact HH| |].
  - repeat split; try assumption.
    + rewrite Himg. apply image_agrees_refl.
    + rewrite Hcalls in H. inversion H.
    + rewrite Hcalls in H. inversion H.
    + rewrite Hcalls in H. inversion H.
  - intros m s' Hm (Hcs & Hag & Hold).
    assert (Hag' : image_agrees 0
              ((m + 1) * nDstXSize k * pixel_bytes (eWorkingDataType k))
              (papabyDstImage k) (papabyDstImage (wk s'))).
    { eapply image_agrees_weaken; [| |exact Hag];
        [lia|apply line_bytes_mono; lia]. }
    unfold GWK_line. destruct (eErr s').
    2:{ repeat split; try assumption; apply Hold in H; try lia.
        apply H. }
    pose proof (GWK_scanline_within k (GWK_nResWinSize (wk s')) m s'
                  Hcs Hfit Hm) as [Hc2 Hrow].
    destruct (GWK_scanline_skips k (GWK_nResWinSize (wk s')) m iDstX s'
                Hcs Hfit Hx Hm) as (bT & sT & Hcalls2 & Hskip).
    set (s2 := GWK_scanline _ m s') in *.
    assert (Hag2 : image_agrees 0
              ((m + 1) * nDstXSize k * pixel_bytes (eWorkingDataType k))
              (papabyDstImage k) (papabyDstImage (wk s2))).
    { eapply image_agrees_trans; [exact Hag'|].
      eapply image_agrees_weaken; [| |exact Hrow];
        [apply (line_bytes_mono 0); lia|lia]. }
    split; [exact Hc2|]. split; [exact Hag2|].
    intros y b s Hin. rewrite Hcalls2 in Hin.
    apply elem_of_app in Hin as [Hin|Hin].
    + (* a line before m: line m does not write into it *)
      destruct (Hold y b s Hin) as [Hy Hkeep]. split; [lia|].
      intros Hfail. eapply image_keeps_trans; [apply Hkeep; exact Hfail|].
      eapply image_agrees_keeps; [|exact Hrow].
      left. unfold pixel_hi.
      apply Z.mul_le_mono_nonneg_r; [exact Hes|]. nia.
    + (* line m itself *)
      apply list_elem_of_singleton in Hin. injection Hin as -> -> ->.
      split; [lia|]. intros Hfail.
      eapply image_keeps_trans; [|apply Hskip; exact Hfail].
      eapply image_agrees_keeps; [|exact Hag].
      right. unfold pixel_lo.
      apply Z.mul_le_mono_nonneg_r; [exact Hes|]. lia.
Qed.

Lemma GWK_entry_calls (k : Kernel) :
  transformer_calls (trace (GWK_entry k)) = [].
Proof.
  unfold GWK_entry, GWK_init, GWK_progress. simpl wk.
  destruct (pfnProgress k _ _ _) as [b pArg]. reflexivity.
Qed.

Lemma GWK_exit_calls (st : State) :
  transformer_calls (trace (GWK_exit st)) = transformer_calls (trace st).
Proof.
  unfold GWK_exit. simpl. unfold transformer_calls. rewrite !omap_app.
  simpl. rewrite !app_nil_r. reflexivity.
Qed.

End Skipped.

(* ================================================================== *)
(** * Doubles: order, integral part and integers                    *)
(* ================================================================== *)

Section FloatOrder.

Lemma digits2_pos_bounds (p : positive) :
  2 ^ (Zpos (digits2_pos p) - 1) <= Zpos p < 2 ^ Zpos (digits2_pos p).
Proof.
  induction p as [p IH|p IH|]; simpl digits2_pos.
  - rewrite Pos2Z.inj_succ. replace (Z.succ (Z.pos (digits2_pos p)) - 1)
      with (Z.succ (Z.pos (digits2_pos p) - 1)) by lia.
    rewrite !Z.pow_succ_r by lia. lia.
  - rewrite Pos2Z.inj_succ. replace (Z.succ (Z.pos (digits2_pos p)) - 1)
      with (Z.succ (Z.pos (digits2_pos p) - 1)) by lia.
    rewrite !Z.pow_succ_r by lia. lia.
  - simpl. lia.
Qed.

Lemma bounded_facts (m : positive) (e : Z) :
  bounded prec emax m e = true ->
  -1074 <= e <= 971 /\ Zpos m < 2 ^ 53 /\ (-1074 < e -> 2 ^ 52 <= Zpos m).
Proof.
  unfold bounded, canonical_mantissa, fexp, SpecFloat.emin, prec, emax.
  intros H. apply andb_true_iff in H as [Hc He].
  apply Z.eqb_eq in Hc. apply Z.leb_le in He.
  pose proof (digits2_pos_bounds m) as [Hlo Hhi].
  set (d := Z.pos (digits2_pos m)) in *.
  assert (Hd : d <= 53) by lia.
  split; [lia|]. split.
  - eapply Z.lt_le_trans; [exact Hhi|]. apply Z.pow_le_mono_r; lia.
  - intros He'. assert (d = 53) by lia. subst d.
    replace (2 ^ 52) with (2 ^ (Z.pos (digits2_pos m) - 1)); [exact Hlo|].
    rewrite H. reflexivity.
Qed.

Lemma pos_compare_scaled (m1 m2 : positive) (e1 e2 : Z) :
  bounded prec emax m1 e1 = true -> bounded prec emax m2 e2 = true ->
  match e1 ?= e2 with
  | Lt => Lt
  | Gt => Gt
  | Eq => Pos.compare_cont Eq m1 m2
  end
  = (Zpos m1 * 2 ^ (e1 + 1074) ?= Zpos m2 * 2 ^ (e2 + 1074)).
Proof.
  intros H1 H2.
  apply bounded_facts in H1 as (He1 & Hm1 & Hn1).
  apply bounded_facts in H2 as (He2 & Hm2 & Hn2).
  assert (H53 : 2 ^ 53 = 2 * 2 ^ 52) by reflexivity.
  assert (Hp52 : 0 < 2 ^ 52) by reflexivity.
  destruct (Z.compare_spec e1 e2) as [->|Hlt|Hgt].
  - change (Pos.compare_cont Eq m1 m2) with (Zpos m1 ?= Zpos m2).
    apply Zmult_compare_compat_r. apply Z.lt_gt. apply Z.pow_pos_nonneg; lia.
  - symmetry. apply Z.compare_lt_iff.
    replace (e2 + 1074) with ((e1 + 1074) + (e2 - e1)) by lia.
    rewrite (Z.pow_add_r 2 (e1 + 1074) (e2 - e1)) by lia.
    assert (0 < 2 ^ (e1 + 1074)) by (apply Z.pow_pos_nonneg; lia).
    assert (2 ^ 1 <= 2 ^ (e2 - e1)) by (apply Z.pow_le_mono_r; lia).
    change (2 ^ 1) with 2 in *. specialize (Hn2 ltac:(lia)).
    set (P := 2 ^ (e1 + 1074)) in *. set (Q := 2 ^ (e2 - e1)) in *.
    assert (Hm : Z.pos m1 < 2 * Z.pos m2) by lia.
    apply Z.lt_le_trans with (2 * Z.pos m2 * P).
    { apply Z.mul_lt_mono_pos_r; assumption. }
    rewrite (Z.mul_comm P Q), Z.mul_assoc.
    apply Z.mul_le_mono_nonneg_r; [lia|].
    rewrite (Z.mul_comm 2). apply Z.mul_le_mono_nonneg_l; lia.
  - symmetry. apply Z.compare_gt_iff.
    replace (e1 + 1074) with ((e2 + 1074) + (e1 - e2)) by lia.
    rewrite (Z.pow_add_r 2 (e2 + 1074) (e1 - e2)) by lia.
    assert (0 < 2 ^ (e2 + 1074)) by (apply Z.pow_pos_nonneg; lia).
    assert (2 ^ 1 <= 2 ^ (e1 - e2)) by (apply Z.pow_le_mono_r; lia).
    change (2 ^ 1) with 2 in *. specialize (Hn1 ltac:(lia)).
    set (P := 2 ^ (e2 + 1074)) in *. set (Q := 2 ^ (e1 - e2)) in *.
    assert (Hm : Z.pos m2 < 2 * Z.pos m1) by lia.
    apply Z.lt_le_trans with (2 * Z.pos m1 * P).
    { apply Z.mul_lt_mono_pos_r; assumption. }
    rewrite (Z.mul_comm P Q), Z.mul_assoc.
    apply Z.mul_le_mono_nonneg_r; [lia|].
    rewrite (Z.mul_comm 2). apply Z.mul_le_mono_nonneg_l; lia.
Qed.

Lemma SFcompare_scaled (x y : spec_float) (a b : Z) :
  valid_binary x = true -> valid_binary y = true ->
  SF_scaled x = Some a -> SF_scaled y = Some b ->
  SFcompare x y = Some (a ?= b).
Proof.
  intros Hx Hy Ha Hb.
  destruct x as [sx|sx| |sx mx ex]; try discriminate;
    destruct y as [sy|sy| |sy my ey]; try discriminate;
    cbn [SF_scaled SFcompare valid_binary] in *;
    injection Ha as <-; injection Hb as <-.
  - reflexivity.
  - f_equal. assert (0 < Zpos my * 2 ^ (ey + 1074)).
    { apply bounded_facts in Hy as (? & _).
      apply Z.mul_pos_pos; [lia|apply Z.pow_pos_nonneg; lia]. }
    destruct sy; cbn [cond_Zopp]; symmetry;
      [apply Z.compare_gt_iff|apply Z.compare_lt_iff]; lia.
  - f_equal. assert (0 < Zpos mx * 2 ^ (ex + 1074)).
    { apply bounded_facts in Hx as (? & _).
      apply Z.mul_pos_pos; [lia|apply Z.pow_pos_nonneg; lia]. }
    destruct sx; cbn [cond_Zopp]; symmetry;
      [apply Z.compare_lt_iff|apply Z.compare_gt_iff]; lia.
  - f_equal.
    assert (0 < Zpos mx * 2 ^ (ex + 1074)).
    { pose proof (bounded_facts _ _ Hx) as (? & _).
      apply Z.mul_pos_pos; [lia|apply Z.pow_pos_nonneg; lia]. }
    assert (0 < Zpos my * 2 ^ (ey + 1074)).
    { pose proof (bounded_facts _ _ Hy) as (? & _).
      apply Z.mul_pos_pos; [lia|apply Z.pow_pos_nonneg; lia]. }
    destruct sx, sy; cbn [cond_Zopp].
    + rewrite Z.compare_opp.
      rewrite <- (pos_compare_scaled my mx ey ex Hy Hx).
      rewrite (Z.compare_antisym ey ex).
      destruct (ey ?= ex); simpl; try reflexivity.
      rewrite (Pos.compare_cont_antisym). reflexivity.
    + symmetry. apply Z.compare_lt_iff. lia.
    + symmetry. apply Z.compare_gt_iff. lia.
    + apply pos_compare_scaled; assumption.
Qed.

Lemma SFltb_scaled (x y : spec_float) (a b : Z) :
  valid_binary x = true -> valid_binary y = true ->
  SF_scaled x = Some a -> SF_scaled y = Some b ->
  SFltb x y = (a <? b).
Proof.
  intros Hx Hy Ha Hb. unfold SFltb.
  rewrite (SFcompare_scaled x y a b) by assumption.
  unfold Z.ltb. destruct (a ?= b); reflexivity.
Qed.

Lemma trunc_SF_scaled (x : spec_float) (a : Z) :
  valid_binary x = true -> SF_scaled x = Some a ->
  trunc_SF x = Some (Z.quot a (2 ^ 1074)).
Proof.
  intros Hx Ha. destruct x as [s|s| |s m e]; try discriminate;
    cbn [SF_scaled trunc_SF valid_binary] in *.
  - injection Ha as <-. reflexivity.
  - injection Ha as <-. f_equal.
    apply bounded_facts in Hx as (He & _).
    assert (HK : 0 < 2 ^ 1074) by (apply Z.pow_pos_nonneg; lia).
    assert (Hq : Z.shiftl (Z.pos m) e = Z.quot (Z.pos m * 2 ^ (e + 1074)) (2 ^ 1074)).
    { rewrite Z.quot_div_nonneg; [|apply Z.mul_nonneg_nonneg; [lia|apply Z.pow_nonneg; lia]|exact HK].
      destruct (Z.le_gt_cases 0 e) as [H0|H0].
      - rewrite Z.shiftl_mul_pow2 by lia. rewrite Z.pow_add_r by lia.
        rewrite Z.mul_assoc. rewrite Z.div_mul by lia. reflexivity.
      - rewrite Z.shiftl_div_pow2 by lia.
        replace (2 ^ 1074) with (2 ^ ((- e) + (e + 1074))) by (f_equal; lia).
        rewrite (Z.pow_add_r 2 (- e) (e + 1074)) by lia.
        rewrite Z.div_mul_cancel_r; [reflexivity| |].
        + apply Z.pow_nonzero; lia.
        + apply Z.pow_nonzero; lia. }
    destruct s; cbn [cond_Zopp]; rewrite Hq; [|reflexivity].
    rewrite Z.quot_opp_l by lia. reflexivity.
Qed.

Lemma iter_xO_value (p k : positive) :
  Zpos (Pos.iter xO p k) = Zpos p * 2 ^ Zpos k.
Proof.
  induction k as [|k IH] using Pos.peano_ind.
  - simpl. lia.
  - rewrite Pos.iter_succ, Pos2Z.inj_succ, Z.pow_succ_r by lia.
    rewrite Pos2Z.inj_xO, IH. lia.
Qed.

Lemma iter_xO_digits (p k : positive) :
  digits2_pos (Pos.iter xO p k) = (digits2_pos p + k)%positive.
Proof.
  induction k as [|k IH] using Pos.peano_ind.
  - simpl. rewrite Pos.add_1_r. reflexivity.
  - rewrite Pos.iter_succ. simpl. rewrite IH, Pos.add_succ_r. reflexivity.
Qed.

Lemma binary_round_aux_bounded (s : bool) (m : positive) (e : Z) :
  bounded prec emax m e = true ->
  binary_round_aux prec emax s (Zpos m) e loc_Exact = S754_finite s m e.
Proof.
  intros Hb. pose proof Hb as Hb'. unfold bounded in Hb'.
  apply andb_true_iff in Hb' as [Hc He].
  unfold canonical_mantissa in Hc. apply Z.eqb_eq in Hc.
  unfold binary_round_aux, shr_fexp. cbn [Zdigits2 shr_record_of_loc].
  rewrite Hc, Z.sub_diag. cbn [shr shr_m loc_of_shr_record round_nearest_even].
  cbn [Zdigits2 shr_record_of_loc].
  rewrite Hc, Z.sub_diag. cbn [shr shr_m]. rewrite He. reflexivity.
Qed.

Lemma binary_round_int (s : bool) (p : positive) :
  Zpos p < 2 ^ 53 ->
  exists m e,
    binary_round prec emax s p 0 = S754_finite s m e /\
    bounded prec emax m e = true /\
    Zpos m * 2 ^ (e + 1074) = Zpos p * 2 ^ 1074.
Proof.
  intros Hp. pose proof (digits2_pos_bounds p) as [Hlo Hhi].
  assert (Hd : Zpos (digits2_pos p) <= 53).
  { assert (Z.pos (digits2_pos p) - 1 < 53); [|lia].
    apply (Z.pow_lt_mono_r_iff 2); lia. }
  unfold binary_round, shl_align.
  assert (Hf : fexp prec emax (Z.pos (digits2_pos p) + 0)
               = Z.pos (digits2_pos p) - 53).
  { unfold fexp, SpecFloat.emin, prec, emax. lia. }
  rewrite Hf, Z.sub_0_r.
  destruct (Z.pos (digits2_pos p) - 53) as [|q|q] eqn:Eq; try lia.
  - assert (Hb : bounded prec emax p 0 = true).
    { unfold bounded, canonical_mantissa. rewrite Hf. reflexivity. }
    exists p, 0. rewrite binary_round_aux_bounded by exact Hb.
    split; [reflexivity|]. split; [exact Hb|reflexivity].
  - assert (Hb : bounded prec emax (Pos.iter xO p q) (Z.neg q) = true).
    { unfold bounded, canonical_mantissa. rewrite iter_xO_digits.
      apply andb_true_iff. split; [|apply Z.leb_le; unfold prec, emax; lia].
      apply Z.eqb_eq. unfold fexp, SpecFloat.emin, prec, emax.
      rewrite Pos2Z.inj_add. lia. }
    exists (Pos.iter xO p q), (Z.neg q).
    rewrite binary_round_aux_bounded by exact Hb.
    split; [reflexivity|]. split; [exact Hb|].
    rewrite iter_xO_value, <- Z.mul_assoc, <- Z.pow_add_r by lia.
    f_equal. f_equal. lia.
Qed.

Lemma double_of_Z_scaled (z : Z) :
  - 2 ^ 53 < z < 2 ^ 53 ->
  SF_scaled (Prim2SF (double_of_Z z)) = Some (z * 2 ^ 1074).
Proof.
  intros Hz.
  assert (Hpos : forall p, Zpos p < 2 ^ 53 ->
            exists m e,
              Prim2SF (of_uint63 (Uint63.of_Z (Zpos p))) = S754_finite false m e /\
              Zpos m * 2 ^ (e + 1074) = Zpos p * 2 ^ 1074).
  { intros p Hp. rewrite of_uint63_spec, Uint63.of_Z_spec.
    rewrite Z.mod_small.
    2:{ split; [lia|]. eapply Z.lt_trans; [exact Hp|]. reflexivity. }
    destruct (binary_round_int false p Hp) as (m & e & Hr & _ & Hv).
    exists m, e. split; [exact Hr|exact Hv]. }
  destruct z as [|p|p]; unfold double_of_Z.
  - reflexivity.
  - destruct (Hpos p) as (m & e & -> & Hv); [lia|].
    cbn [SF_scaled cond_Zopp]. rewrite Hv. reflexivity.
  - rewrite opp_spec. destruct (Hpos p) as (m & e & -> & Hv); [lia|].
    cbn [SFopp negb SF_scaled cond_Zopp]. rewrite Hv.
    rewrite <- Z.mul_opp_l. reflexivity.
Qed.

(** On a double, in terms of the scaled value. *)
Lemma ltb_scaled (x y : float) (a b : Z) :
  SF_scaled (Prim2SF x) = Some a -> SF_scaled (Prim2SF y) = Some b ->
  (x <? y)%float = (a <? b).
Proof.
  intros Ha Hb. rewrite ltb_spec.
  apply SFltb_scaled; auto using Prim2SF_valid.
Qed.

Lemma trunc_double_scaled (x : float) (a : Z) :
  SF_scaled (Prim2SF x) = Some a ->
  trunc_double x = Some (Z.quot a (2 ^ 1074)).
Proof.
  intros Ha. apply trunc_SF_scaled; [apply Prim2SF_valid|exact Ha].
Qed.

Lemma trunc_double_of_Z (z : Z) :
  - 2 ^ 53 < z < 2 ^ 53 -> trunc_double (double_of_Z z) = Some z.
Proof.
  intros Hz. rewrite (trunc_double_scaled _ _ (double_of_Z_scaled z Hz)).
  rewrite Z.quot_mul; [reflexivity|]. apply Z.pow_nonzero; lia.
Qed.

Lemma ltb_double_of_Z (a b : Z) :
  - 2 ^ 53 < a < 2 ^ 53 -> - 2 ^ 53 < b < 2 ^ 53 ->
  (double_of_Z a <? double_of_Z b)%float = (a <? b).
Proof.
  intros Ha Hb.
  rewrite (ltb_scaled _ _ _ _ (double_of_Z_scaled a Ha) (double_of_Z_scaled b Hb)).
  assert (HK : 0 < 2 ^ 1074) by (apply Z.pow_pos_nonneg; lia).
  destruct (Z.ltb_spec a b) as [Hab|Hab].
  - apply Z.ltb_lt. apply Z.mul_lt_mono_pos_r; assumption.
  - apply Z.ltb_ge. apply Z.mul_le_mono_nonneg_r; lia.
Qed.

End FloatOrder.

(* ================================================================== *)
(** * Saturating conversions                                        *)
(* ================================================================== *)

Section Saturation.
Context {ind : Indeterminate}.

Lemma is_nan_Prim2SF (x : float) :
  PrimFloat.is_nan x = false -> Prim2SF x <> S754_nan.
Proof.
  unfold PrimFloat.is_nan. rewrite FloatAxioms.eqb_spec. intros H E. rewrite E in H.
  discriminate.
Qed.

Lemma scaled_not_infinite (y : spec_float) (b : Z) :
  SF_scaled y = Some b ->
  (exists s, y = S754_zero s) \/ (exists s m e, y = S754_finite s m e).
Proof. destruct y; try discriminate; eauto. Qed.

(** The two comparisons and the conversion that the integer cases of
    [GWKSetPixelValue] are made of amount to a saturating conversion. *)
Lemma clamp_saturated (signed : bool) (bits lo hi : Z) (x : float) :
  lo = (if signed then - 2 ^ (bits - 1) else 0) ->
  hi = (if signed then 2 ^ (bits - 1) - 1 else 2 ^ bits - 1) ->
  lo <= hi -> - 2 ^ 53 < lo -> hi < 2 ^ 53 ->
  PrimFloat.is_nan x = false ->
  (if (x <? double_of_Z lo)%float then lo
   else if (double_of_Z hi <? x)%float then hi
   else fptoint signed bits x) = saturated lo hi x.
Proof.
  intros Hlo Hhi Hle Hl53 Hh53 Hnan.
  pose proof (double_of_Z_scaled lo ltac:(lia)) as HL.
  pose proof (double_of_Z_scaled hi ltac:(lia)) as HH.
  assert (HK : 0 < 2 ^ 1074) by (apply Z.pow_pos_nonneg; lia).
  assert (H0 : Prim2SF 0%float = S754_zero false) by reflexivity.
  unfold saturated, fptoint.
  destruct (Prim2SF x) as [s|s| |s m e] eqn:E.
  - (* zero *)
    assert (Hx : SF_scaled (Prim2SF x) = Some 0) by (rewrite E; reflexivity).
    rewrite (ltb_scaled _ _ _ _ Hx HL), (ltb_scaled _ _ _ _ HH Hx).
    unfold trunc_double. rewrite E. cbn [trunc_SF].
    rewrite <- Hlo, <- Hhi.
    destruct (Z.ltb_spec 0 (lo * 2 ^ 1074)); destruct (Z.ltb_spec (hi * 2 ^ 1074) 0);
      try (destruct (Z.leb_spec lo 0); destruct (Z.leb_spec 0 hi); cbn [andb]); nia.
  - (* an infinity *)
    unfold trunc_double. rewrite !ltb_spec, E, H0. cbn [trunc_SF].
    destruct (scaled_not_infinite _ _ HL) as [[sl ->]|(sl & ml & el & ->)];
    destruct (scaled_not_infinite _ _ HH) as [[sh ->]|(sh & mh & eh & ->)];
    destruct s; reflexivity.
  - exfalso. exact (is_nan_Prim2SF x Hnan E).
  - (* a finite number *)
    set (a := cond_Zopp s (Z.pos m * 2 ^ (e + 1074))).
    assert (Hx : SF_scaled (Prim2SF x) = Some a) by (rewrite E; reflexivity).
    rewrite (ltb_scaled _ _ _ _ Hx HL), (ltb_scaled _ _ _ _ HH Hx).
    rewrite (trunc_double_scaled x a Hx). rewrite <- Hlo, <- Hhi.
    assert (Hql : lo * 2 ^ 1074 <= a -> lo <= Z.quot a (2 ^ 1074)).
    { intros Hge. apply Z.quot_le_lower_bound; lia. }
    assert (Hqh : a <= hi * 2 ^ 1074 -> Z.quot a (2 ^ 1074) <= hi).
    { intros Hge. apply Z.quot_le_upper_bound; lia. }
    destruct (Z.ltb_spec a (lo * 2 ^ 1074)) as [H1|H1].
    + assert (Z.quot a (2 ^ 1074) <= lo).
      { apply Z.quot_le_upper_bound; lia. } lia.
    + destruct (Z.ltb_spec (hi * 2 ^ 1074) a) as [H2|H2].
      * assert (hi <= Z.quot a (2 ^ 1074)).
        { apply Z.quot_le_lower_bound; lia. } lia.
      * specialize (Hql H1). specialize (Hqh H2).
        destruct (Z.leb_spec lo (Z.quot a (2 ^ 1074))); try lia.
        destruct (Z.leb_spec (Z.quot a (2 ^ 1074)) hi); try lia.
        cbn [andb]. lia.
Qed.

Lemma if_store_int (c1 c2 : bool) (n : nat) (p : list Z) (i a b c : Z) :
  (if c1 then store_int n p i a
   else if c2 then store_int n p i b else store_int n p i c)
  = store_int n p i (if c1 then a else if c2 then b else c).
Proof. destruct c1, c2; reflexivity. Qed.

Lemma Prim2SF_is_nan (x : float) (a : Z) :
  SF_scaled (Prim2SF x) = Some a -> PrimFloat.is_nan x = false.
Proof.
  intros Ha. unfold PrimFloat.is_nan. rewrite FloatAxioms.eqb_spec.
  unfold SFeqb.
  rewrite (SFcompare_scaled _ _ a a) by auto using Prim2SF_valid.
  rewrite Z.compare_refl. reflexivity.
Qed.

Lemma double_of_Z_number (z : Z) :
  - 2 ^ 53 < z < 2 ^ 53 -> PrimFloat.is_nan (double_of_Z z) = false.
Proof. intros Hz. exact (Prim2SF_is_nan _ _ (double_of_Z_scaled z Hz)). Qed.

Lemma saturated_of_Z (lo hi z : Z) :
  - 2 ^ 53 < z < 2 ^ 53 -> lo <= z <= hi ->
  saturated lo hi (double_of_Z z) = z.
Proof.
  intros Hz Hr. unfold saturated. rewrite trunc_double_of_Z by exact Hz. lia.
Qed.

Lemma GWKSetPixelValue_band_integer (pabyDst : list Z) (iDstOffset : Z)
    (dfReal dfImag : float) :
  PrimFloat.is_nan dfReal = false ->
  GWKSetPixelValue_band GDT_Byte pabyDst iDstOffset dfReal dfImag
  = Some (store_int 1 pabyDst iDstOffset (saturated 0 255 dfReal)) /\
  GWKSetPixelValue_band GDT_Int16 pabyDst iDstOffset dfReal dfImag
  = Some (store_int 2 pabyDst iDstOffset (saturated (-32768) 32767 dfReal)) /\
  GWKSetPixelValue_band GDT_UInt16 pabyDst iDstOffset dfReal dfImag
  = Some (store_int 2 pabyDst iDstOffset (saturated 0 65535 dfReal)) /\
  GWKSetPixelValue_band GDT_UInt32 pabyDst iDstOffset dfReal dfImag
  = Some (store_int 4 pabyDst iDstOffset (saturated 0 4294967295 dfReal)).
Proof.
  intros Hnan. unfold GWKSetPixelValue_band.
  rewrite !if_store_int.
  assert (HU : fptoint false 32 4294967295%float = 4294967295) by reflexivity.
  rewrite HU.
  change 0%float with (double_of_Z 0).
  change 255%float with (double_of_Z 255).
  change (-32768)%float with (double_of_Z (-32768)).
  change 32767%float with (double_of_Z 32767).
  change 65535%float with (double_of_Z 65535).
  change 4294967295%float with (double_of_Z 4294967295).
  rewrite (clamp_saturated false 8 0 255 dfReal),
    (clamp_saturated true 16 (-32768) 32767 dfReal),
    (clamp_saturated false 16 0 65535 dfReal),
    (clamp_saturated false 32 0 4294967295 dfReal);
    try reflexivity; try exact Hnan; try lia.
  auto.
Qed.

Lemma complex_offsets (i : Z) :
  0 <= i -> 2 * i + 1 <= INT_MAX ->
  int32 (i * 2) = 2 * i /\ int32 (int32 (i * 2) + 1) = 2 * i + 1.
Proof.
  intros H0 Hmax.
  assert (Hre : int32 (i * 2) = 2 * i).
  { rewrite int32_small; unfold INT_MIN, INT_MAX in *; lia. }
  split; [exact Hre|]. rewrite Hre.
  apply int32_small. unfold INT_MIN, INT_MAX in *. lia.
Qed.

Lemma GWKSetPixelValue_band_complex (pabyDst : list Z) (iDstOffset : Z)
    (dfReal dfImag : float) :
  PrimFloat.is_nan dfReal = false -> PrimFloat.is_nan dfImag = false ->
  0 <= iDstOffset -> 2 * iDstOffset + 1 <= INT_MAX ->
  GWKSetPixelValue_band GDT_CInt16 pabyDst iDstOffset dfReal dfImag
  = Some (store_int 2
            (store_int 2 pabyDst (2 * iDstOffset)
                       (saturated (-32768) 32767 dfReal))
            (2 * iDstOffset + 1) (saturated (-32768) 32767 dfImag)) /\
  GWKSetPixelValue_band GDT_CInt32 pabyDst iDstOffset dfReal dfImag
  = Some (store_int 4
            (store_int 4 pabyDst (2 * iDstOffset)
                       (saturated (-2147483648) 2147483647 dfReal))
            (2 * iDstOffset + 1)
            (saturated (-2147483648) 2147483647 dfImag)).
Proof.
  intros Hre Him H0 Hmax. unfold GWKSetPixelValue_band.
  destruct (complex_offsets iDstOffset H0 Hmax) as [-> ->].
  cbv zeta. rewrite !if_store_int.
  assert (HL : fptoint true 32 (-2147483648)%float = -2147483648) by reflexivity.
  assert (HH : fptoint true 32 2147483647%float = 2147483647) by reflexivity.
  rewrite HL, HH.
  change (-32768)%float with (double_of_Z (-32768)).
  change 32767%float with (double_of_Z 32767).
  change (-2147483648)%float with (double_of_Z (-2147483648)).
  change 2147483647%float with (double_of_Z 2147483647).
  rewrite (clamp_saturated true 16 (-32768) 32767 dfReal),
    (clamp_saturated true 16 (-32768) 32767 dfImag),
    (clamp_saturated true 32 (-2147483648) 2147483647 dfReal),
    (clamp_saturated true 32 (-2147483648) 2147483647 dfImag);
    try reflexivity; try assumption; try lia.
  auto.
Qed.

End Saturation.

(* ================================================================== *)
(** * Reading what was written                                      *)
(* ================================================================== *)

Section Memory.

Lemma at_index_byte (p : list Z) (off : Z) :
  is_bytes p -> 0 <= at_index 0 p off < 256.
Proof.
  intros Hp. unfold at_index. destruct (off <? 0); [lia|].
  destruct (p !! Z.to_nat off) as [b|] eqn:E; simpl; [|lia].
  exact (Forall_lookup_1 _ _ _ _ Hp E).
Qed.

Lemma peek_range (n : nat) (p : list Z) (off : Z) :
  is_bytes p -> 0 <= peek n p off < 256 ^ Z.of_nat n.
Proof.
  intros Hp. revert off. induction n as [|n IH]; intros off.
  - simpl. lia.
  - cbn [peek]. rewrite Nat2Z.inj_succ, Z.pow_succ_r by lia.
    pose proof (at_index_byte p off Hp). specialize (IH (off + 1)). lia.
Qed.

Lemma poke_length (n : nat) (p : list Z) (off v : Z) :
  length (poke n p off v) = length p.
Proof. apply (poke_agrees n p off v). Qed.

Lemma set_index_same {A : Type} (d : A) (p : list A) (off : Z) (x : A) :
  0 <= off < Z.of_nat (length p) ->
  at_index d (set_index p off x) off = x.
Proof.
  intros Hoff. unfold at_index, set_index.
  destruct (Z.ltb_spec off 0); [lia|].
  rewrite list_lookup_insert_eq by lia. reflexivity.
Qed.

Lemma at_index_agrees (lo hi : Z) (p p' : list Z) (off : Z) :
  buffer_agrees lo hi p p' -> off < lo \/ hi <= off ->
  at_index 0 p' off = at_index 0 p off.
Proof.
  intros [_ H] Hoff. unfold at_index.
  destruct (Z.ltb_spec off 0); [reflexivity|].
  rewrite H by lia. reflexivity.
Qed.

Lemma peek_agrees (n : nat) (lo hi : Z) (p p' : list Z) (off : Z) :
  buffer_agrees lo hi p p' -> off + Z.of_nat n <= lo \/ hi <= off ->
  peek n p' off = peek n p off.
Proof.
  intros Hag. revert off. induction n as [|n IH]; intros off Hoff;
    [reflexivity|].
  cbn [peek]. rewrite (at_index_agrees lo hi p p') by (auto; lia).
  rewrite IH by lia. reflexivity.
Qed.

(** What was written is what is read. *)
Lemma peek_poke (n : nat) (p : list Z) (off v : Z) :
  0 <= off -> off + Z.of_nat n <= Z.of_nat (length p) ->
  peek n (poke n p off v) off = v mod 256 ^ Z.of_nat n.
Proof.
  revert p off v. induction n as [|n IH]; intros p off v H0 Hlen.
  - simpl. rewrite Z.mod_1_r. reflexivity.
  - cbn [peek poke].
    set (p1 := set_index p off (v mod 256)).
    assert (Hl1 : length p1 = length p).
    { apply (set_index_agrees p off (v mod 256)). }
    rewrite (at_index_agrees (off + 1) (off + 1 + Z.of_nat n) p1) by
      (try apply poke_agrees; lia).
    unfold p1 at 1. rewrite set_index_same by lia.
    rewrite IH by lia.
    rewrite Nat2Z.inj_succ, Z.pow_succ_r by lia.
    rewrite Z.rem_mul_r; [reflexivity|lia|]. apply Z.pow_pos_nonneg; lia.
Qed.

Lemma pow_256 (n : nat) : 256 ^ Z.of_nat n = 2 ^ (8 * Z.of_nat n).
Proof. change 256 with (2 ^ 8). rewrite <- Z.pow_mul_r by lia. reflexivity. Qed.

Lemma load_uint_store_int (n : nat) (p : list Z) (i v : Z) :
  0 <= i -> Z.of_nat n * (i + 1) <= Z.of_nat (length p) ->
  0 <= v < 2 ^ (8 * Z.of_nat n) ->
  load_uint n (store_int n p i v) i = v.
Proof.
  intros Hi Hlen Hv. unfold load_uint, store_int.
  rewrite peek_poke by nia. rewrite pow_256.
  rewrite Z.mod_mod by lia. apply Z.mod_small. exact Hv.
Qed.

Lemma load_int_store_int (n : nat) (p : list Z) (i v : Z) :
  (0 < n)%nat ->
  0 <= i -> Z.of_nat n * (i + 1) <= Z.of_nat (length p) ->
  - 2 ^ (8 * Z.of_nat n - 1) <= v < 2 ^ (8 * Z.of_nat n - 1) ->
  load_int n (store_int n p i v) i = v.
Proof.
  intros Hn Hi Hlen Hv. unfold load_int, store_int.
  rewrite peek_poke by nia. rewrite pow_256.
  rewrite Z.mod_mod by lia. unfold wrap_int.
  set (w := 8 * Z.of_nat n) in *.
  assert (Hw : 2 ^ w = 2 * 2 ^ (w - 1)).
  { rewrite <- Z.pow_succ_r by lia. f_equal. lia. }
  assert (Hp : 0 < 2 ^ (w - 1)) by (apply Z.pow_pos_nonneg; lia).
  rewrite Zplus_mod_idemp_l.
  rewrite Z.mod_small by lia. lia.
Qed.

Lemma load_uint_range (n : nat) (p : list Z) (i : Z) :
  is_bytes p -> 0 <= load_uint n p i < 2 ^ (8 * Z.of_nat n).
Proof. intros Hp. unfold load_uint. rewrite <- pow_256. apply peek_range, Hp. Qed.

Lemma load_int_range (n : nat) (p : list Z) (i : Z) :
  (0 < n)%nat ->
  - 2 ^ (8 * Z.of_nat n - 1) <= load_int n p i < 2 ^ (8 * Z.of_nat n - 1).
Proof.
  intros Hn. unfold load_int, wrap_int.
  set (w := 8 * Z.of_nat n) in *.
  assert (Hw : 2 ^ w = 2 * 2 ^ (w - 1)).
  { rewrite <- Z.pow_succ_r by lia. f_equal. lia. }
  assert (Hp : 0 < 2 ^ (w - 1)) by (apply Z.pow_pos_nonneg; lia).
  pose proof (Z.mod_pos_bound (peek n p (Z.of_nat n * i) + 2 ^ (w - 1)) (2 ^ w)
                ltac:(lia)). lia.
Qed.

End Memory.

(* ================================================================== *)
(** * The binary64 encoding                                         *)
(* ================================================================== *)

Section Binary64.

(** The three fields of a binary64 bit pattern. *)
Lemma binary64_fields (s : bool) (E F : Z) :
  0 <= E < 2048 -> 0 <= F < 2 ^ 52 ->
  let b := (if s then 2 ^ 63 else 0) + (E * 2 ^ 52 + F) in
  0 <= b < 2 ^ 64 /\
  Z.testbit b 63 = s /\
  Z.land (Z.shiftr b 52) 2047 = E /\
  Z.land b (2 ^ 52 - 1) = F.
Proof.
  intros HE HF b.
  assert (H52 : 2 ^ 52 = 4503599627370496) by reflexivity.
  assert (H63 : 2 ^ 63 = 2048 * 2 ^ 52) by reflexivity.
  assert (H64 : 2 ^ 64 = 2 * 2 ^ 63) by reflexivity.
  assert (Hb : b = ((if s then 1 else 0) * 2048 + E) * 2 ^ 52 + F).
  { unfold b. destruct s; lia. }
  split; [unfold b; destruct s; lia|]. split; [|split].
  - rewrite Z.testbit_odd, Z.shiftr_div_pow2 by lia.
    assert (Hq : b / 2 ^ 63 = if s then 1 else 0).
    { unfold b. destruct s.
      - symmetry. apply (Z.div_unique _ _ 1 (E * 2 ^ 52 + F)); lia.
      - apply Z.div_small. lia. }
    rewrite Hq. destruct s; reflexivity.
  - rewrite Z.shiftr_div_pow2 by lia.
    change 2047 with (Z.ones 11). rewrite Z.land_ones by lia.
    assert (Hq : b / 2 ^ 52 = (if s then 1 else 0) * 2048 + E).
    { symmetry. apply (Z.div_unique _ _ _ F); lia. }
    rewrite Hq. change (2 ^ 11) with 2048.
    rewrite Z.add_comm, Z.mod_add by lia. apply Z.mod_small. lia.
  - change (2 ^ 52 - 1) with (Z.ones 52). rewrite Z.land_ones by lia.
    rewrite Hb, Z.add_comm, Z.mod_add by lia. apply Z.mod_small. lia.
Qed.

Lemma bits_of_SF_fields (y : spec_float) :
  valid_binary y = true ->
  exists (s : bool) (E F : Z),
    0 <= E < 2048 /\ 0 <= F < 2 ^ 52 /\
    bits_of_SF 53 1024 y = (if s then 2 ^ 63 else 0) + (E * 2 ^ 52 + F) /\
    y = (if E =? 0 then
           match F with Zpos m => S754_finite s m (-1074) | _ => S754_zero s end
         else if E =? 2047 then
           (if F =? 0 then S754_infinity s else S754_nan)
         else
           match F + 2 ^ 52 with
           | Zpos m => S754_finite s m (E - 1 + -1074)
           | _ => S754_nan
           end).
Proof.
  intros Hv.
  assert (H52 : 2 ^ 52 = 4503599627370496) by reflexivity.
  assert (H53 : 2 ^ 53 = 9007199254740992) by reflexivity.
  destruct y as [s|s| |s m e].
  - exists s, 0, 0. repeat split; try lia; destruct s; reflexivity.
  - exists s, 2047, 0. repeat split; try lia; destruct s; reflexivity.
  - exists false, 2047, (2 ^ 51). repeat split; try lia; reflexivity.
  - cbn [valid_binary] in Hv.
    destruct (bounded_facts m e Hv) as (He & Hm & Hn).
    unfold bits_of_SF.
    change (53 - 1) with 52. change (3 - 1024 - 53) with (-1074).
    change (Z.shiftl 1 (52 + Z.log2 (2 * 1024))) with (2 ^ 63).
    destruct (Z.ltb_spec (Z.pos m) (2 ^ 52)) as [Hs|Hs].
    + assert (e = -1074) by lia. subst e.
      exists s, 0, (Z.pos m). repeat split; lia.
    + exists s, (e - -1074 + 1), (Z.pos m - 2 ^ 52).
      split; [lia|]. split; [lia|]. split.
      * rewrite Z.shiftl_mul_pow2 by lia. reflexivity.
      * destruct (Z.eqb_spec (e - -1074 + 1) 0); [lia|].
        destruct (Z.eqb_spec (e - -1074 + 1) 2047); [lia|].
        replace (Z.pos m - 2 ^ 52 + 2 ^ 52) with (Z.pos m) by lia.
        f_equal. lia.
Qed.

(** A double that is encoded and decoded is the same double. *)
Lemma double_of_bits_of_double (x : float) :
  0 <= bits_of_double x < 2 ^ 64 /\
  double_of_bits (bits_of_double x) = x.
Proof.
  unfold double_of_bits, bits_of_double.
  destruct (bits_of_SF_fields (Prim2SF x) (Prim2SF_valid x))
    as (s & E & F & HE & HF & Hb & Hy).
  destruct (binary64_fields s E F HE HF) as (Hr & Hs & HEe & HFf).
  cbv zeta in *. rewrite Hb. split; [exact Hr|].
  rewrite <- (SF2Prim_Prim2SF x). f_equal.
  rewrite Hy. unfold SF_of_bits.
  change (53 - 1) with 52. change (3 - 1024 - 53) with (-1074).
  change (52 + Z.log2 (2 * 1024)) with 63.
  change (2 * 1024 - 1) with 2047.
  rewrite Hs, HEe, HFf. reflexivity.
Qed.

Lemma load_double_store_double (p : list Z) (i : Z) (x : float) :
  0 <= i -> 8 * (i + 1) <= Z.of_nat (length p) ->
  load_double (store_double p i x) i = x.
Proof.
  intros Hi Hlen. unfold load_double, store_double.
  rewrite peek_poke by (change (Z.of_nat 8) with 8; lia).
  destruct (double_of_bits_of_double x) as [Hr Hx].
  rewrite (pow_256 8). change (8 * Z.of_nat 8) with 64.
  rewrite Z.mod_small by exact Hr. exact Hx.
Qed.

End Binary64.

(* ================================================================== *)
(** * A pixel that is read and stored                               *)
(* ================================================================== *)

Section Copy.
Context {ind : Indeterminate}.

Lemma store_int_length (n : nat) (p : list Z) (i v : Z) :
  length (store_int n p i v) = length p.
Proof. apply poke_length. Qed.

Lemma load_int_agrees (n : nat) (lo hi : Z) (p p' : list Z) (i : Z) :
  buffer_agrees lo hi p p' ->
  Z.of_nat n * (i + 1) <= lo \/ hi <= Z.of_nat n * i ->
  load_int n p' i = load_int n p i.
Proof.
  intros Hag Hi. unfold load_int. f_equal.
  apply (peek_agrees n lo hi); [exact Hag|lia].
Qed.

(** An integer of at most 32 bits goes through [double] and back
    unchanged. *)
Lemma store_of_Z (lo hi z : Z) :
  lo <= z <= hi -> - 2 ^ 32 <= lo -> hi <= 2 ^ 32 ->
  PrimFloat.is_nan (double_of_Z z) = false /\
  saturated lo hi (double_of_Z z) = z.
Proof.
  intros Hz Hlo Hhi.
  assert (H53 : - 2 ^ 53 < z < 2 ^ 53).
  { change (2 ^ 53) with 9007199254740992.
    change (2 ^ 32) with 4294967296 in *. lia. }
  split; [apply double_of_Z_number|apply saturated_of_Z]; assumption.
Qed.

Lemma GWK_copy_real (eType : GDALDataType) (src dst : list Z)
    (iSrcOffset iDstOffset : Z) (dfReal dfImag : float) :
  eType ∈ [GDT_Byte; GDT_UInt16; GDT_Int16; GDT_UInt32] ->
  is_bytes src ->
  0 <= iDstOffset ->
  pixel_bytes eType * (iDstOffset + 1) <= Z.of_nat (length dst) ->
  GWKGetPixelValue_band eType src iSrcOffset = Some (dfReal, dfImag) ->
  exists dst',
    GWKSetPixelValue_band eType dst iDstOffset dfReal dfImag = Some dst' /\
    GWKGetPixelValue_band eType dst' iDstOffset = Some (dfReal, dfImag).
Proof.
  intros HT Hsrc H0 Hlen Hget.
  repeat (apply elem_of_cons in HT as [->|HT]); [| | | |inversion HT];
    cbn [GWKGetPixelValue_band pixel_bytes] in *;
    injection Hget as <- <-.
  - pose proof (load_uint_range 1 src iSrcOffset Hsrc) as Hr.
    set (z := load_uint 1 src iSrcOffset) in *.
    change (2 ^ (8 * Z.of_nat 1)) with 256 in Hr.
    destruct (store_of_Z 0 255 z) as [Hn Hs]; try lia.
    destruct (GWKSetPixelValue_band_integer dst iDstOffset (double_of_Z z) 0 Hn)
      as (-> & _). rewrite Hs.
    eexists. split; [reflexivity|]. cbn [GWKGetPixelValue_band].
    rewrite load_uint_store_int; [reflexivity|lia|lia|].
    change (2 ^ (8 * Z.of_nat 1)) with 256. lia.
  - pose proof (load_uint_range 2 src iSrcOffset Hsrc) as Hr.
    set (z := load_uint 2 src iSrcOffset) in *.
    change (2 ^ (8 * Z.of_nat 2)) with 65536 in Hr.
    destruct (store_of_Z 0 65535 z) as [Hn Hs]; try lia.
    destruct (GWKSetPixelValue_band_integer dst iDstOffset (double_of_Z z) 0 Hn)
      as (_ & _ & -> & _). rewrite Hs.
    eexists. split; [reflexivity|]. cbn [GWKGetPixelValue_band].
    rewrite load_uint_store_int; [reflexivity|lia|lia|].
    change (2 ^ (8 * Z.of_nat 2)) with 65536. lia.
  - pose proof (load_int_range 2 src iSrcOffset ltac:(lia)) as Hr.
    set (z := load_int 2 src iSrcOffset) in *.
    change (2 ^ (8 * Z.of_nat 2 - 1)) with 32768 in Hr.
    destruct (store_of_Z (-32768) 32767 z) as [Hn Hs]; try lia.
    destruct (GWKSetPixelValue_band_integer dst iDstOffset (double_of_Z z) 0 Hn)
      as (_ & -> & _). rewrite Hs.
    eexists. split; [reflexivity|]. cbn [GWKGetPixelValue_band].
    rewrite load_int_store_int; [reflexivity|lia|lia|lia|].
    change (2 ^ (8 * Z.of_nat 2 - 1)) with 32768. lia.
  - pose proof (load_uint_range 4 src iSrcOffset Hsrc) as Hr.
    set (z := load_uint 4 src iSrcOffset) in *.
    change (2 ^ (8 * Z.of_nat 4)) with 4294967296 in Hr.
    destruct (store_of_Z 0 4294967295 z) as [Hn Hs]; try lia.
    destruct (GWKSetPixelValue_band_integer dst iDstOffset (double_of_Z z) 0 Hn)
      as (_ & _ & _ & ->). rewrite Hs.
    eexists. split; [reflexivity|]. cbn [GWKGetPixelValue_band].
    rewrite load_uint_store_int; [reflexivity|lia|lia|].
    change (2 ^ (8 * Z.of_nat 4)) with 4294967296. lia.
Qed.

Lemma GWK_copy_complex (eType : GDALDataType) (src dst : list Z)
    (iSrcOffset iDstOffset : Z) (dfReal dfImag : float) :
  eType ∈ [GDT_CInt16; GDT_CInt32] ->
  0 <= iDstOffset -> 2 * iDstOffset + 1 <= INT_MAX ->
  pixel_bytes eType * (iDstOffset + 1) <= Z.of_nat (length dst) ->
  GWKGetPixelValue_band eType src iSrcOffset = Some (dfReal, dfImag) ->
  exists dst',
    GWKSetPixelValue_band eType dst iDstOffset dfReal dfImag = Some dst' /\
    GWKGetPixelValue_band eType dst' iDstOffset = Some (dfReal, dfImag).
Proof.
  intros HT H0 Hmax Hlen Hget.
  destruct (complex_offsets iDstOffset H0 Hmax) as [HRe HIm].
  repeat (apply elem_of_cons in HT as [->|HT]); [| |inversion HT];
    cbn [GWKGetPixelValue_band pixel_bytes] in *;
    injection Hget as <- <-.
  - set (iRe := int32 (iSrcOffset * 2)). set (iIm := int32 (iRe + 1)).
    pose proof (load_int_range 2 src iRe ltac:(lia)) as Hr.
    pose proof (load_int_range 2 src iIm ltac:(lia)) as Hi.
    set (zr := load_int 2 src iRe) in *. set (zi := load_int 2 src iIm) in *.
    change (2 ^ (8 * Z.of_nat 2 - 1)) with 32768 in Hr, Hi.
    destruct (store_of_Z (-32768) 32767 zr) as [Hnr Hsr]; try lia;
      try (change (2 ^ 32) with 4294967296; lia).
    destruct (store_of_Z (-32768) 32767 zi) as [Hni Hsi]; try lia;
      try (change (2 ^ 32) with 4294967296; lia).
    destruct (GWKSetPixelValue_band_complex dst iDstOffset (double_of_Z zr)
                (double_of_Z zi) Hnr Hni H0 Hmax) as (-> & _).
    rewrite Hsr, Hsi. eexists. split; [reflexivity|].
    cbn [GWKGetPixelValue_band]. rewrite HRe in HIm |- *. rewrite HIm.
    rewrite (load_int_agrees 2 _ _ _ _ (2 * iDstOffset)
               (store_int_agrees 2 _ (2 * iDstOffset + 1) zi)) by lia.
    rewrite !load_int_store_int; try reflexivity; try lia;
      rewrite ?store_int_length; try lia;
      change (2 ^ (8 * Z.of_nat 2 - 1)) with 32768; lia.
  - set (iRe := int32 (iSrcOffset * 2)). set (iIm := int32 (iRe + 1)).
    pose proof (load_int_range 4 src iRe ltac:(lia)) as Hr.
    pose proof (load_int_range 4 src iIm ltac:(lia)) as Hi.
    set (zr := load_int 4 src iRe) in *. set (zi := load_int 4 src iIm) in *.
    change (2 ^ (8 * Z.of_nat 4 - 1)) with 2147483648 in Hr, Hi.
    destruct (store_of_Z (-2147483648) 2147483647 zr) as [Hnr Hsr]; try lia;
      try (change (2 ^ 32) with 4294967296; lia).
    destruct (store_of_Z (-2147483648) 2147483647 zi) as [Hni Hsi]; try lia;
      try (change (2 ^ 32) with 4294967296; lia).
    destruct (GWKSetPixelValue_band_complex dst iDstOffset (double_of_Z zr)
                (double_of_Z zi) Hnr Hni H0 Hmax) as (_ & ->).
    rewrite Hsr, Hsi. eexists. split; [reflexivity|].
    cbn [GWKGetPixelValue_band]. rewrite HRe in HIm |- *. rewrite HIm.
    rewrite (load_int_agrees 4 _ _ _ _ (2 * iDstOffset)
               (store_int_agrees 4 _ (2 * iDstOffset + 1) zi)) by lia.
    rewrite !load_int_store_int; try reflexivity; try lia;
      rewrite ?store_int_length; try lia;
      change (2 ^ (8 * Z.of_nat 4 - 1)) with 2147483648; lia.
Qed.

(** What is read back after a store of one of the types of doubles:
    the doubles that were stored, whatever they are. *)
Lemma GWK_store_read_double (p : list Z) (iOffset : Z)
    (dfReal dfImag : float) :
  0 <= iOffset -> 2 * iOffset + 1 <= INT_MAX ->
  (8 * (iOffset + 1) <= Z.of_nat (length p) ->
   exists p',
     GWKSetPixelValue_band GDT_Float64 p iOffset dfReal dfImag = Some p' /\
     GWKGetPixelValue_band GDT_Float64 p' iOffset = Some (dfReal, 0%float)) /\
  (16 * (iOffset + 1) <= Z.of_nat (length p) ->
   exists p',
     GWKSetPixelValue_band GDT_CFloat64 p iOffset dfReal dfImag = Some p' /\
     GWKGetPixelValue_band GDT_CFloat64 p' iOffset = Some (dfReal, dfImag)).
Proof.
  intros H0 Hmax.
  destruct (complex_offsets iOffset H0 Hmax) as [HRe HIm].
  split; intros Hlen.
  - eexists. split; [reflexivity|]. cbn [GWKGetPixelValue_band].
    rewrite load_double_store_double by lia. reflexivity.
  - eexists. split; [reflexivity|]. cbn [GWKGetPixelValue_band].
    rewrite HRe in HIm |- *. rewrite HIm.
    unfold load_double at 1.
    rewrite (peek_agrees 8 _ _ _ _ (8 * (2 * iOffset))
               (store_double_agrees _ (2 * iOffset + 1) dfImag))
      by (change (Z.of_nat 8) with 8; lia).
    fold (load_double (store_double p (2 * iOffset) dfReal) (2 * iOffset)).
    rewrite !load_double_store_double; try reflexivity; try lia.
    unfold store_double. rewrite poke_length. lia.
Qed.

Lemma GWK_copy_double (eType : GDALDataType) (src dst : list Z)
    (iSrcOffset iDstOffset : Z) (dfReal dfImag : float) :
  eType ∈ [GDT_Float64; GDT_CFloat64] ->
  0 <= iDstOffset -> 2 * iDstOffset + 1 <= INT_MAX ->
  pixel_bytes eType * (iDstOffset + 1) <= Z.of_nat (length dst) ->
  GWKGetPixelValue_band eType src iSrcOffset = Some (dfReal, dfImag) ->
  exists dst',
    GWKSetPixelValue_band eType dst iDstOffset dfReal dfImag = Some dst' /\
    GWKGetPixelValue_band eType dst' iDstOffset = Some (dfReal, dfImag).
Proof.
  intros HT H0 Hmax Hlen Hget.
  destruct (GWK_store_read_double dst iDstOffset dfReal dfImag H0 Hmax)
    as [H64 HC64].
  repeat (apply elem_of_cons in HT as [->|HT]); [| |inversion HT];
    cbn [pixel_bytes] in Hlen.
  - cbn [GWKGetPixelValue_band] in Hget. injection Hget as Hre Him.
    destruct (H64 Hlen) as (dst' & Hset & Hback). exists dst'.
    rewrite <- Him at 2. auto.
  - exact (HC64 Hlen).
Qed.

(** Every Int32 value, taken from a source band, is below the bound
    with which the Int32 case compares first. *)
Lemma GWK_copy_Int32 (src dst : list Z) (iSrcOffset iDstOffset : Z)
    (dfReal dfImag : float) :
  GWKGetPixelValue_band GDT_Int32 src iSrcOffset = Some (dfReal, dfImag) ->
  GWKSetPixelValue_band GDT_Int32 dst iDstOffset dfReal dfImag
  = Some (store_int 4 dst iDstOffset 0).
Proof.
  cbn [GWKGetPixelValue_band]. intros Hget. injection Hget as <- <-.
  pose proof (load_int_range 4 src iSrcOffset ltac:(lia)) as Hr.
  set (z := load_int 4 src iSrcOffset) in *.
  change (2 ^ (8 * Z.of_nat 4 - 1)) with 2147483648 in Hr.
  cbn [GWKSetPixelValue_band].
  change 2147483648%float with (double_of_Z 2147483648).
  rewrite ltb_double_of_Z.
  - destruct (Z.ltb_spec z 2147483648); [reflexivity|lia].
  - change (2 ^ 53) with 9007199254740992. lia.
  - change (2 ^ 53) with 9007199254740992. lia.
Qed.

End Copy.

(* ================================================================== *)
(** * The protocol of the callbacks                                 *)
(* ================================================================== *)

Section Protocol.
Context {T P : Type} {ind : Indeterminate}.

Local Abbreviation Kernel := (GDALWarpKernel T P).
Local Abbreviation State := (@GWKState T P).

Lemma callbacks_app (tr1 tr2 : list event) :
  callbacks (tr1 ++ tr2) = callbacks tr1 ++ callbacks tr2.
Proof. unfold callbacks. apply omap_app. Qed.

(** What a line adds to the calls of the callbacks. *)
Lemma GWK_scanline_callbacks (w iDstY : Z) (st : State) :
  callbacks (trace (GWK_scanline w iDstY st))
  = callbacks (trace st) ++
    [CallTransformer iDstY;
     CallProgress (GWK_fraction (wk st) iDstY) (GWK_answer iDstY st)].
Proof.
  pose proof (GWK_scanline_effect w iDstY st) as (_ & _ & _ & bT & sT & Ht).
  cbv zeta in Ht.
  rewrite <- callbacks_outer, Ht, callbacks_app, callbacks_outer.
  destruct (GWK_answer iDstY st); reflexivity.
Qed.

(** The calls of the loop over the lines, cancelled or not. *)
Lemma GWK_lines_callbacks (k : Kernel) (st : State) (n : Z) :
  config (wk st) = config k -> eErr st = CE_None -> 0 <= n ->
  let st' := for_upto n GWK_line st in
  config (wk st') = config k /\
  ((eErr st' = CE_None /\
    callbacks (trace st') = callbacks (trace st) ++ line_calls k n)
   \/
   (exists r, 0 <= r < n /\
      eErr st' = CE_Failure /\
      callbacks (trace st')
      = callbacks (trace st) ++ line_calls k r ++
        [CallTransformer r; CallProgress (GWK_fraction k r) false])).
Proof.
  intros Hc He Hn.
  apply (for_upto_rec (fun m st' =>
    config (wk st') = config k /\
    ((eErr st' = CE_None /\
      callbacks (trace st') = callbacks (trace st) ++ line_calls k m)
     \/
     (exists r, 0 <= r < m /\
        eErr st' = CE_Failure /\
        callbacks (trace st')
        = callbacks (trace st) ++ line_calls k r ++
          [CallTransformer r; CallProgress (GWK_fraction k r) false]))));
    [exact Hn| |].
  - split; [exact Hc|]. left. split; [exact He|].
    unfold line_calls. simpl. rewrite app_nil_r. reflexivity.
  - intros i s' Hi [Hcs [[He' Hcb]|(r & Hr & He' & Hcb)]].
    + rewrite (GWK_line_running i s' He').
      pose proof (GWK_scanline_effect (GWK_nResWinSize (wk s')) i s')
        as (Hc2 & He2 & _).
      pose proof (GWK_scanline_callbacks (GWK_nResWinSize (wk s')) i s') as Hcb2.
      cbv zeta in *.
      rewrite (GWK_fraction_config k (wk s')) in Hcb2 by exact Hcs.
      split; [congruence|].
      destruct (GWK_answer i s').
      * left. split; [congruence|].
        rewrite Hcb2, Hcb, line_calls_succ by lia.
        rewrite <- app_assoc. reflexivity.
      * right. exists i. split; [lia|]. split; [exact He2|].
        rewrite Hcb2, Hcb, <- app_assoc. reflexivity.
    + assert (Hskip : GWK_line i s' = s')
        by (unfold GWK_line; rewrite He'; reflexivity).
      rewrite Hskip. split; [exact Hcs|]. right. exists r.
      split; [lia|]. split; assumption.
Qed.

Lemma GWK_entry_callbacks (k : Kernel) :
  GWK_answer stack_garbage (GWK_init k) = true ->
  callbacks (trace (GWK_entry k))
  = [CallProgress (GWK_fraction k stack_garbage) true].
Proof.
  unfold GWK_answer, GWK_entry, GWK_init, GWK_progress.
  simpl wk. destruct (pfnProgress k _ _ _) as [b pArg]. simpl.
  intros ->. reflexivity.
Qed.

Lemma GWK_exit_callbacks (st : State) :
  callbacks (trace (GWK_exit st)) = callbacks (trace st).
Proof.
  unfold GWK_exit. simpl. rewrite !callbacks_app. simpl.
  rewrite !app_nil_r. reflexivity.
Qed.

(** The whole of a run that is refused at the first call of the progress
    callback. *)
Lemma GWKGeneralCase_refused_run (k : Kernel) :
  GWK_answer stack_garbage (GWK_init k) = false ->
  let res := GWKGeneralCase k in
  trace res
  = [EvProgress (GWK_fraction k stack_garbage) false;
     EvError CE_Failure CPLE_UserInterrupt "User terminated"%string] /\
  eErr res = CE_Failure /\
  wk res = with_pProgress k (pProgress (wk res)).
Proof.
  unfold GWK_answer, GWKGeneralCase, GWK_init, GWK_progress.
  simpl wk. destruct (pfnProgress k _ _ _) as [b pArg]. simpl.
  intros ->. repeat split.
Qed.

(** The answers of the progress callback are those of its calls. *)
Lemma answers_callbacks (tr : list event) :
  answers tr
  = omap (fun c => match c with
                   | CallProgress _ b => Some b
                   | CallTransformer _ => None
                   end) (callbacks tr).
Proof.
  unfold answers, progress_calls, callbacks.
  induction tr as [|e tr IH]; [reflexivity|].
  destruct e; simpl; try exact IH. f_equal. exact IH.
Qed.

End Protocol.

Section Runs.
Context {T P : Type} {ind : Indeterminate}.

Local Abbreviation Kernel := (GDALWarpKernel T P).
Local Abbreviation State := (@GWKState T P).

(** The three ways in which a run of [GWKGeneralCase] ends. *)
Lemma GWKGeneralCase_runs (k : Kernel) :
  let res := GWKGeneralCase k in
  let dfFirst := GWK_fraction k stack_garbage in
  (GWK_answer stack_garbage (GWK_init k) = false /\
   callbacks (trace res) = [CallProgress dfFirst false] /\
   eErr res = CE_Failure /\ errors (trace res) = [user_terminated] /\
   allocated (trace res) = [] /\ freed (trace res) = [])
  \/
  (callbacks (trace res)
   = CallProgress dfFirst true :: line_calls k (nDstYSize k) /\
   eErr res = CE_None /\ errors (trace res) = [] /\
   allocated (trace res) = GWK_arrays /\ freed (trace res) = GWK_arrays)
  \/
  (exists R, 0 <= R < nDstYSize k /\
     callbacks (trace res)
     = CallProgress dfFirst true :: line_calls k R ++
       [CallTransformer R; CallProgress (GWK_fraction k R) false] /\
     eErr res = CE_Failure /\ errors (trace res) = [user_terminated] /\
     allocated (trace res) = GWK_arrays /\ freed (trace res) = GWK_arrays).
Proof.
  cbv zeta.
  destruct (GWK_answer stack_garbage (GWK_init k)) eqn:Hb0.
  2:{ left. destruct (GWKGeneralCase_refused_run k Hb0) as (Ht & He & _).
      rewrite Ht. repeat split. exact He. }
  right.
  rewrite (GWKGeneralCase_entered k Hb0).
  destruct (GWK_entry_facts k Hb0) as (Hk0 & He0 & _ & _ & Her0 & Hal0 & Hfr0).
  pose proof (GWK_entry_callbacks k Hb0) as Hcb0.
  destruct (GWK_exit_facts (GWK_lines (GWK_entry k)))
    as (_ & He1 & _ & Her1 & Hal1 & Hfr1).
  cbv zeta in *.
  rewrite GWK_exit_callbacks, He1, Her1, Hal1, Hfr1.
  unfold GWK_lines.
  set (st0 := GWK_entry k) in *.
  assert (Hc0 : config (wk st0) = config k) by (rewrite Hk0; reflexivity).
  assert (HH : nDstYSize (wk st0) = nDstYSize k) by (rewrite Hk0; reflexivity).
  rewrite HH.
  destruct (Z.le_gt_cases 0 (nDstYSize k)) as [Hn|Hn].
  2:{ left. rewrite for_upto_nonpos by lia. unfold line_calls.
      rewrite seqZ_nil by lia. rewrite Hcb0, He0, Her0, Hal0, Hfr0.
      repeat split. }
  destruct (GWK_lines_callbacks k st0 (nDstYSize k) Hc0 He0 Hn) as [_ Hcb].
  destruct (GWK_lines_outcome st0 (nDstYSize k) He0 Hn)
    as [(He & _ & _ & Her & Hal & Hfr)
       |(r & _ & _ & _ & He & _ & Her & Hal & Hfr)];
    destruct Hcb as [[He' Hcb]|(R & HR & He' & Hcb)]; try congruence.
  - left. rewrite Hcb, Hcb0, He, Her, Her0, Hal, Hal0, Hfr, Hfr0.
    repeat split.
  - right. exists R. rewrite Hcb, Hcb0, He, Her, Her0, Hal, Hal0, Hfr, Hfr0.
    repeat split; lia.
Qed.

End Runs.

(** X1.  Every run of [PerformWarp] ends in one of three ways.  Either
    the progress callback refuses at its first call, which is made before
    any line: then nothing else is called.  Or every line is completed:
    then the transformer and the progress callback were called once for
    each line, in turn, and the result is [CE_None] without an error
    report.  Or the progress callback refuses after a line [R]: then the
    lines [0 .. R] were processed in the same way and neither callback is
    called again.  A refusal makes the result [CE_Failure], with exactly
    one error report, "User terminated". *)
Theorem PerformWarp_callback_protocol :
  forall (T P : Type) (ind : Indeterminate) (k : GDALWarpKernel T P),
    let res := PerformWarp k in
    let dfFirst := GWK_fraction k stack_garbage in
    (callbacks (trace res) = [CallProgress dfFirst false] /\
     eErr res = CE_Failure /\ errors (trace res) = [user_terminated])
    \/
    (callbacks (trace res)
     = CallProgress dfFirst true :: line_calls k (nDstYSize k) /\
     eErr res = CE_None /\ errors (trace res) = [])
    \/
    (exists R, 0 <= R < nDstYSize k /\
       callbacks (trace res)
       = CallProgress dfFirst true :: line_calls k R ++
         [CallTransformer R; CallProgress (GWK_fraction k R) false] /\
       eErr res = CE_Failure /\ errors (trace res) = [user_terminated]).
Proof.
  intros T P ind k. cbv zeta. rewrite PerformWarp_validated.
  destruct (GWKGeneralCase_runs k)
    as [(_ & Hcb & He & Her & _)
       |[(Hcb & He & Her & _)|(R & HR & Hcb & He & Her & _)]].
  - left. auto.
  - right. left. auto.
  - right. right. exists R. auto.
Qed.

(** X2.  [PerformWarp] frees what it allocates: the four arrays of one
    scanline are allocated and freed once each, in every run but the one
    that the progress callback refuses at its first call, in which
    nothing is allocated. *)
Theorem PerformWarp_frees_its_arrays :
  forall (T P : Type) (ind : Indeterminate) (k : GDALWarpKernel T P),
    let tr := trace (PerformWarp k) in
    freed tr = allocated tr /\
    (allocated tr = GWK_arrays \/
     (allocated tr = [] /\ answers tr = [false])).
Proof.
  intros T P ind k. cbv zeta. rewrite PerformWarp_validated.
  destruct (GWKGeneralCase_runs k)
    as [(_ & Hcb & _ & _ & Hal & Hfr)
       |[(_ & _ & _ & Hal & Hfr)|(R & _ & _ & _ & _ & Hal & Hfr)]];
    rewrite Hal, Hfr; split; auto.
  right. split; [reflexivity|].
  rewrite answers_callbacks, Hcb. reflexivity.
Qed.

(** X3.  When the progress callback refuses at its first call, the warp
    does nothing else: it reports "User terminated" and returns
    [CE_Failure] without calling the transformer, allocating an array or
    touching a pixel, and the destination image is what it was. *)
Theorem PerformWarp_refused_at_once :
  forall (T P : Type) (ind : Indeterminate) (k : GDALWarpKernel T P),
    head (answers (trace (PerformWarp k))) = Some false ->
    let res := PerformWarp k in
    trace res
    = [EvProgress (GWK_fraction k stack_garbage) false;
       EvError CE_Failure CPLE_UserInterrupt "User terminated"%string] /\
    eErr res = CE_Failure /\
    papabyDstImage (wk res) = papabyDstImage k /\
    pTransformerArg (wk res) = pTransformerArg k.
Proof.
  intros T P ind k Hans. cbv zeta. rewrite PerformWarp_validated in *.
  rewrite answers_callbacks in Hans.
  destruct (GWKGeneralCase_runs k)
    as [(Hb0 & _)|[(Hcb & _)|(R & _ & Hcb & _)]];
    [|rewrite Hcb in Hans; discriminate..].
  destruct (GWKGeneralCase_refused_run k Hb0) as (Ht & He & Hk).
  split; [exact Ht|]. split; [exact He|]. rewrite Hk. split; reflexivity.
Qed.

Lemma PerformWarp_refused_at_once_witness :
  let k := Scenario.plain_kernel GDT_Byte 2 8 (seqZ 1 16) 2 8 (replicate 16 0)
             Scenario.identity_transformer tt (Scenario.cancel_at 0) 0%nat in
  let res := PerformWarp (ind := Scenario.x86_64) k in
  head (answers (trace res)) = Some false /\
  (trace res
   = [EvProgress (GWK_fraction k (@stack_garbage Scenario.x86_64)) false;
      EvError CE_Failure CPLE_UserInterrupt "User terminated"%string] /\
   eErr res = CE_Failure /\
   papabyDstImage (wk res) = papabyDstImage k /\
   pTransformerArg (wk res) = pTransformerArg k).
Proof.
  split.
  - vm_compute. reflexivity.
  - apply (PerformWarp_refused_at_once unit nat Scenario.x86_64).
    vm_compute. reflexivity.
Defined.

(* ================================================================== *)
(** * The events of a run                                           *)
(* ================================================================== *)

Section Events.
Context {T P : Type} {ind : Indeterminate}.

Local Abbreviation Kernel := (GDALWarpKernel T P).
Local Abbreviation State := (@GWKState T P).

Lemma grows_refl (Q : event -> Prop) (st : State) : grows Q st st.
Proof. exists []. rewrite app_nil_r. auto. Qed.

Lemma grows_trans (Q : event -> Prop) (st1 st2 st3 : State) :
  grows Q st1 st2 -> grows Q st2 st3 -> grows Q st1 st3.
Proof.
  intros (l & Ht & Hl) (l' & Ht' & Hl'). exists (l ++ l').
  rewrite Ht', Ht, app_assoc. split; [reflexivity|].
  apply Forall_app; auto.
Qed.

Lemma grows_weaken (Q Q' : event -> Prop) (st st' : State) :
  (forall e, Q e -> Q' e) -> grows Q st st' -> grows Q' st st'.
Proof.
  intros HQ (l & Ht & Hl). exists l. split; [exact Ht|].
  eapply Forall_impl; eauto.
Qed.

Lemma grows_Forall (Q : event -> Prop) (st st' : State) :
  grows Q st st' -> Forall Q (trace st) -> Forall Q (trace st').
Proof.
  intros (l & Ht & Hl) H. rewrite Ht. apply Forall_app; auto.
Qed.

(** The events of the work on a band. *)
Lemma GWK_band_grows (iSrcOffset iDstOffset iBand : Z) (st : State) :
  grows (fun e => e = EvGetPixel iBand iSrcOffset \/
                  e = EvSetPixel iBand iDstOffset)
        st (GWK_band iSrcOffset iDstOffset iBand st).
Proof.
  unfold GWK_band.
  destruct (eResample (wk st)); try apply grows_refl.
  destruct (GWKGetPixelValue _ _ _ _ _ _) as [b [[d r] i]].
  destruct (d =? 0)%float.
  - exists [EvGetPixel iBand iSrcOffset]. split; [reflexivity|].
    constructor; [left; reflexivity|constructor].
  - destruct (GWKSetPixelValue _ _ _ _ _ _) as [b' k'].
    exists [EvGetPixel iBand iSrcOffset; EvSetPixel iBand iDstOffset].
    simpl. rewrite <- app_assoc. split; [reflexivity|].
    constructor; [left; reflexivity|].
    constructor; [right; reflexivity|constructor].
Qed.

(** The events of the loop over the bands. *)
Lemma GWK_bands_grows (iSrcOffset iDstOffset n : Z) (st : State) :
  grows (fun e => exists iBand, 0 <= iBand < n /\
                    (e = EvGetPixel iBand iSrcOffset \/
                     e = EvSetPixel iBand iDstOffset))
        st (for_upto n (GWK_band iSrcOffset iDstOffset) st).
Proof.
  apply (for_upto_ind (fun s => grows _ st s)); [apply grows_refl|].
  intros i s' Hi Hs'. eapply grows_trans; [exact Hs'|].
  eapply grows_weaken; [|apply GWK_band_grows].
  intros e He. exists i. auto.
Qed.

Lemma trunc_double_Some (x : float) (z : Z) :
  trunc_double x = Some z ->
  exists a, SF_scaled (Prim2SF x) = Some a /\ z = Z.quot a (2 ^ 1074).
Proof.
  intros Hz. unfold trunc_double in Hz.
  destruct (Prim2SF x) as [s|s| |s m e] eqn:E; try discriminate.
  - exists 0. split; [reflexivity|]. cbn [trunc_SF] in Hz.
    injection Hz as <-. symmetry. apply Z.quot_0_l.
    apply Z.pow_nonzero; lia.
  - eexists. split; [reflexivity|].
    assert (Hx : SF_scaled (Prim2SF x)
                 = Some (cond_Zopp s (Z.pos m * 2 ^ (e + 1074))))
      by (rewrite E; reflexivity).
    pose proof (trunc_double_scaled x _ Hx) as Ht.
    unfold trunc_double in Ht. rewrite E in Ht. congruence.
Qed.

Lemma fptoint_int (x : float) (z : Z) :
  trunc_double x = Some z -> INT_MIN <= z <= INT_MAX ->
  fptoint true 32 x = z.
Proof.
  intros Hz Hr. unfold fptoint. rewrite Hz.
  unfold INT_MIN, INT_MAX in Hr. change (32 - 1) with 31.
  destruct (Z.leb_spec (- 2 ^ 31) z); [|lia].
  destruct (Z.leb_spec z (2 ^ 31 - 1)); [reflexivity|lia].
Qed.

(** One axis of the choice of the source pixel: a coordinate that an
    [int] can hold and that passes the two tests of the driver is the
    coordinate of a pixel of the source window. *)
Lemma GWK_source_axis (nOff nSize : Z) (x : float) (z : Z) :
  0 <= nOff <= INT_MAX -> 0 <= nSize <= INT_MAX ->
  trunc_double x = Some z -> INT_MIN <= z <= INT_MAX ->
  (x <? double_of_Z (int32 (nOff + 0)))%float = false ->
  (int32 (fptoint true 32 x - nOff) >=? int32 (nSize - 0)) = false ->
  int32 (fptoint true 32 x - nOff) = z - nOff /\ 0 <= z - nOff < nSize.
Proof.
  intros HO HS Hz Hr Hlow Hup.
  rewrite (fptoint_int x z Hz Hr) in *.
  rewrite Z.add_0_r, Z.sub_0_r in *.
  unfold INT_MIN, INT_MAX in *.
  change (2 ^ 31) with 2147483648 in *.
  rewrite (int32_small nOff) in Hlow
    by (unfold INT_MIN, INT_MAX; change (2 ^ 31) with 2147483648; lia).
  rewrite (int32_small nSize) in Hup
    by (unfold INT_MIN, INT_MAX; change (2 ^ 31) with 2147483648; lia).
  destruct (trunc_double_Some x z Hz) as (a & Ha & Hq).
  assert (HO53 : - 2 ^ 53 < nOff < 2 ^ 53)
    by (change (2 ^ 53) with 9007199254740992; lia).
  rewrite (ltb_scaled _ _ _ _ Ha (double_of_Z_scaled nOff HO53)) in Hlow.
  apply Z.ltb_ge in Hlow.
  assert (HK : 0 < 2 ^ 1074) by (apply Z.pow_pos_nonneg; lia).
  assert (Hge : nOff <= z).
  { subst z. apply Z.quot_le_lower_bound; lia. }
  rewrite (int32_small (z - nOff)) in *
    by (unfold INT_MIN, INT_MAX; change (2 ^ 31) with 2147483648; lia).
  split; [reflexivity|].
  destruct (Z.geb_spec (z - nOff) nSize); [discriminate|lia].
Qed.

Lemma GWK_nResWinSize_nearest (k : Kernel) :
  eResample k = GRA_NearestNeighbour -> GWK_nResWinSize k = 0.
Proof. unfold GWK_nResWinSize. intros ->. reflexivity. Qed.

(** The pixel reads of the work on a destination pixel. *)
Lemma GWK_pixel_reads (k : Kernel) (padfX padfY : list float)
    (iDstY iDstX : Z) (st : State) :
  config (wk st) = config k -> src_fits k ->
  (at_index 0 (pabSuccess st) iDstX <> 0 ->
   int_coordinate (at_index 0%float padfX iDstX) /\
   int_coordinate (at_index 0%float padfY iDstX)) ->
  grows (reads_source k) st
        (GWK_pixel (GWK_nResWinSize k) padfX padfY iDstY iDstX st).
Proof.
  intros Hc (HXO & HYO & HXS & HYS & Hprod) Hxy.
  assert (Hf :
    (eResample (wk st), nSrcXOff (wk st), nSrcYOff (wk st),
     nSrcXSize (wk st), nSrcYSize (wk st), nBands (wk st))
    = (eResample k, nSrcXOff k, nSrcYOff k,
       nSrcXSize k, nSrcYSize k, nBands k)).
  { config_fields Hc. congruence. }
  injection Hf as HeR HxO HyO HxS HyS HnB.
  destruct (eResample k) eqn:HR.
  2,3: rewrite GWK_pixel_stub by (rewrite HeR; discriminate);
       apply grows_refl.
  rewrite (GWK_nResWinSize_nearest k HR).
  unfold GWK_pixel. rewrite HxO, HyO, HxS, HyS, HnB.
  destruct (Z.eqb_spec (at_index 0 (pabSuccess st) iDstX) 0) as [|Hs];
    [apply grows_refl|].
  destruct (Hxy Hs) as [(zx & Hzx & Hrx) (zy & Hzy & Hry)].
  set (x := at_index 0%float padfX iDstX) in *.
  set (y := at_index 0%float padfY iDstX) in *.
  destruct (orb _ _) eqn:Hlow; [apply grows_refl|].
  apply orb_false_iff in Hlow as [Hlx Hly].
  destruct (orb _ _) eqn:Hup; [apply grows_refl|].
  apply orb_false_iff in Hup as [Hux Huy].
  destruct (GWK_source_axis (nSrcXOff k) (nSrcXSize k) x zx HXO HXS Hzx Hrx
              Hlx Hux) as [HiX HrX].
  destruct (GWK_source_axis (nSrcYOff k) (nSrcYSize k) y zy HYO HYS Hzy Hry
              Hly Huy) as [HiY HrY].
  rewrite HiX, HiY.
  match goal with |- context [if ?c then _ else _] => destruct c end;
    [apply grows_refl|].
  eapply grows_weaken; [|apply GWK_bands_grows].
  intros e (iBand & HB & [->| ->]); [|exact I].
  split; [exact HB|].
  exists (zx - nSrcXOff k), (zy - nSrcYOff k).
  split; [exact HrX|]. split; [exact HrY|].
  unfold INT_MAX in *. change (2 ^ 31) with 2147483648 in *.
  assert (Hm : 0 <= (zy - nSrcYOff k) * nSrcXSize k
               <= (nSrcYSize k - 1) * nSrcXSize k) by nia.
  rewrite (int32_small ((zy - nSrcYOff k) * nSrcXSize k))
    by (unfold INT_MIN, INT_MAX; change (2 ^ 31) with 2147483648; nia).
  apply int32_small.
  unfold INT_MIN, INT_MAX; change (2 ^ 31) with 2147483648. nia.
Qed.

Lemma GWK_line_arrays_config (k k' : Kernel) (pArg : T) (S : list Z)
    (iDstY : Z) :
  config k' = config k ->
  GWK_line_x k' pArg S iDstY = GWK_line_x k pArg S iDstY /\
  GWK_line_y k' pArg S iDstY = GWK_line_y k pArg S iDstY /\
  GWK_line_success k' pArg S iDstY = GWK_line_success k pArg S iDstY.
Proof.
  intros Hc.
  assert (Hf : (nDstXSize k', nDstXOff k', nDstYOff k', pfnTransformer k')
               = (nDstXSize k, nDstXOff k, nDstYOff k, pfnTransformer k)).
  { config_fields Hc. congruence. }
  injection Hf as HW HX HY HT.
  unfold GWK_line_x, GWK_line_y, GWK_line_success, GWK_transformed,
         GWK_padfX, GWK_padfY, GWK_padfZ.
  rewrite HW, HX, HY, HT. auto.
Qed.

(** What the first half of a line leaves: the arrays of the line. *)
Lemma GWK_transform_arrays (iDstY : Z) (st : State) :
  let pArg := pTransformerArg (wk st) in
  let S := pabSuccess st in
  (GWK_transform iDstY st).1
  = (GWK_line_x (wk st) pArg S iDstY, GWK_line_y (wk st) pArg S iDstY) /\
  pabSuccess (GWK_transform iDstY st).2
  = GWK_line_success (wk st) pArg S iDstY.
Proof. split; reflexivity. Qed.

(** An induction principle for the runs of [GWKGeneralCase]: a property
    of the destination image and the log that holds at the start, that
    the events other than pixel events keep, and that the work on each
    destination pixel keeps, holds at the end. *)
Lemma GWKGeneralCase_invariant (k : Kernel)
    (Inv : list (list Z) -> list event -> Prop) :
  Inv (papabyDstImage k) [] ->
  (forall img tr e, ~ is_pixel_event e -> Inv img tr -> Inv img (tr ++ [e])) ->
  (forall pArg S iDstY iDstX s,
     0 <= iDstY < nDstYSize k -> 0 <= iDstX < nDstXSize k ->
     config (wk s) = config k ->
     pabSuccess s = GWK_line_success k pArg S iDstY ->
     Inv (papabyDstImage (wk s)) (trace s) ->
     let s' := GWK_pixel (GWK_nResWinSize k)
                         (GWK_line_x k pArg S iDstY)
                         (GWK_line_y k pArg S iDstY) iDstY iDstX s in
     Inv (papabyDstImage (wk s')) (trace s')) ->
  Inv (papabyDstImage (wk (GWKGeneralCase k))) (trace (GWKGeneralCase k)).
Proof.
  intros Hinit Hout Hpix.
  assert (Hmany : forall img l tr,
            Forall (fun e => ~ is_pixel_event e) l ->
            Inv img tr -> Inv img (tr ++ l)).
  { intros img l. induction l as [|e l IH]; intros tr Hl Htr.
    - rewrite app_nil_r. exact Htr.
    - inversion Hl; subst.
      change (e :: l) with ([e] ++ l). rewrite app_assoc.
      apply IH; [assumption|]. apply Hout; assumption. }
  destruct (GWK_answer stack_garbage (GWK_init k)) eqn:Hb0.
  2:{ destruct (GWKGeneralCase_refused_run k Hb0) as (Ht & _ & Hk).
      rewrite Ht, Hk. apply (Hmany _ _ []); [|exact Hinit].
      repeat constructor; simpl; tauto. }
  rewrite (GWKGeneralCase_entered k Hb0).
  destruct (GWK_entry_facts k Hb0) as (Hk0 & _).
  assert (Hc0 : config (wk (GWK_entry k)) = config k)
    by (rewrite Hk0; reflexivity).
  assert (Ht0 : Inv (papabyDstImage (wk (GWK_entry k)))
                    (trace (GWK_entry k))).
  { unfold GWK_entry, GWK_init, GWK_progress. simpl wk.
    destruct (pfnProgress k _ _ _) as [b pArg]. simpl.
    apply (Hmany _ _ []); [|exact Hinit].
    repeat constructor; simpl; tauto. }
  assert (Hlines : Inv (papabyDstImage (wk (GWK_lines (GWK_entry k))))
                       (trace (GWK_lines (GWK_entry k)))).
  { unfold GWK_lines.
    assert (HH : nDstYSize (wk (GWK_entry k)) = nDstYSize k)
      by (rewrite Hk0; reflexivity).
    rewrite HH.
    apply (for_upto_ind (fun s => config (wk s) = config k /\
                                  Inv (papabyDstImage (wk s)) (trace s)));
      [auto|].
    intros iDstY s Hy [Hcs Hts]. unfold GWK_line.
    destruct (eErr s); [|auto].
    pose proof (GWK_scanline_effect (GWK_nResWinSize (wk s)) iDstY s)
      as (Hc2 & _). cbv zeta in Hc2.
    split; [congruence|].
    assert (Hw : GWK_nResWinSize (wk s) = GWK_nResWinSize k).
    { assert (HeR : eResample (wk s) = eResample k)
        by (config_fields Hcs; congruence).
      unfold GWK_nResWinSize. rewrite HeR. reflexivity. }
    assert (HW : nDstXSize (wk s) = nDstXSize k)
      by (config_fields Hcs; congruence).
    rewrite Hw. unfold GWK_scanline. rewrite HW.
    pose proof (GWK_transform_arrays iDstY s) as [Harr Hsucc].
    pose proof (GWK_transform_effect iDstY s) as (Hk1 & _ & _ & bT & Ht1).
    cbv zeta in *.
    destruct (GWK_line_arrays_config k (wk s) (pTransformerArg (wk s))
                (pabSuccess s) iDstY Hcs) as (HX & HY & HS).
    rewrite HX, HY in Harr. rewrite HS in Hsucc.
    destruct (GWK_transform iDstY s) as [[padfX padfY] st1].
    simpl in Harr, Hsucc, Hk1, Ht1. injection Harr as -> ->.
    assert (Hc1 : config (wk st1) = config k) by (rewrite Hk1; exact Hcs).
    assert (Ht1' : Inv (papabyDstImage (wk st1)) (trace st1)).
    { rewrite Ht1, Hk1. apply Hout; [simpl; tauto|]. exact Hts. }
    set (st2 := for_upto _ _ st1).
    assert (H2 : config (wk st2) = config k /\
                 pabSuccess st2 = pabSuccess st1 /\
                 Inv (papabyDstImage (wk st2)) (trace st2)).
    { apply for_upto_ind; [auto|].
      intros iDstX s' Hx (Hcs' & Hss' & Hts').
      pose proof (pixel_step_pixel (GWK_nResWinSize k)
                    (GWK_line_x k (pTransformerArg (wk s)) (pabSuccess s) iDstY)
                    (GWK_line_y k (pTransformerArg (wk s)) (pabSuccess s) iDstY)
                    iDstY iDstX s') as Hstep.
      pose proof (pixel_step_views _ _ Hstep) as (Hcv & _).
      destruct Hstep as (_ & _ & Hsv & _).
      split; [congruence|]. split; [congruence|].
      apply Hpix; try assumption. congruence. }
    destruct H2 as (_ & _ & Ht2).
    pose proof (GWK_report_effect iDstY st2) as (Hk3 & _ & _ & Ht3).
    cbv zeta in Ht3, Hk3. rewrite Ht3, Hk3.
    change (papabyDstImage (with_pProgress (wk st2) _))
      with (papabyDstImage (wk st2)).
    apply Hmany; [|exact Ht2].
    destruct (GWK_answer iDstY st2); repeat constructor; simpl; tauto. }
  unfold GWK_exit, emit. cbn [wk trace]. rewrite <- !app_assoc.
  apply Hmany; [|exact Hlines]. repeat constructor; simpl; tauto.
Qed.

(** A property of the events of a run follows from the property for
    the events of the work on each destination pixel. *)
Lemma GWKGeneralCase_events (k : Kernel) (Q : event -> Prop) :
  (forall e, ~ is_pixel_event e -> Q e) ->
  (forall pArg S iDstY iDstX s,
     0 <= iDstY < nDstYSize k -> 0 <= iDstX < nDstXSize k ->
     config (wk s) = config k ->
     pabSuccess s = GWK_line_success k pArg S iDstY ->
     grows Q s (GWK_pixel (GWK_nResWinSize k)
                          (GWK_line_x k pArg S iDstY)
                          (GWK_line_y k pArg S iDstY) iDstY iDstX s)) ->
  Forall Q (trace (GWKGeneralCase k)).
Proof.
  intros Hout Hpix.
  apply (GWKGeneralCase_invariant k (fun _ tr => Forall Q tr)).
  - constructor.
  - intros img tr e He Htr. apply Forall_app. split; [exact Htr|].
    repeat constructor. apply Hout. exact He.
  - intros pArg S iDstY iDstX s Hy Hx Hc Hs Htr. cbv zeta.
    eapply grows_Forall; [|exact Htr]. apply Hpix; assumption.
Qed.

End Events.

(** X4.  The source pixels that a warp reads lie inside the source
    window, provided that the window is one that an [int] can index and
    that the transformer leaves coordinates that an [int] can hold at the
    points it flags as transformed: every read is of a band of the kernel
    and of a pixel [(iSrcX, iSrcY)] with [0 <= iSrcX < nSrcXSize] and
    [0 <= iSrcY < nSrcYSize]. *)
Theorem PerformWarp_reads_inside_source :
  forall (T P : Type) (ind : Indeterminate) (k : GDALWarpKernel T P),
    src_fits k -> transformer_in_range k ->
    forall iBand iSrcOffset,
      (iBand, iSrcOffset) ∈ get_pixels (trace (PerformWarp k)) ->
      0 <= iBand < nBands k /\
      in_window (nSrcXSize k) (nSrcYSize k) iSrcOffset.
Proof.
  intros T P ind k Hfit Htr iBand iSrcOffset Hin.
  rewrite PerformWarp_validated in Hin.
  assert (Hall : Forall (reads_source k) (trace (GWKGeneralCase k))).
  { apply GWKGeneralCase_events.
    - intros [] He; simpl in *; tauto.
    - intros pArg S iDstY iDstX s Hy Hx Hc Hs.
      apply GWK_pixel_reads; try assumption.
      rewrite Hs. apply Htr; assumption. }
  unfold get_pixels in Hin. apply list_elem_of_omap in Hin as (e & He & Hf).
  rewrite Forall_forall in Hall. specialize (Hall e He).
  destruct e; try discriminate. injection Hf as -> ->. exact Hall.
Qed.

Lemma PerformWarp_reads_inside_source_witness :
  let k := Scenario.S1 in
  (src_fits k /\ transformer_in_range k /\
   (0, 5) ∈ get_pixels (trace (PerformWarp (ind := Scenario.x86_64) k))) /\
  (0 <= 0 < nBands k /\ in_window (nSrcXSize k) (nSrcYSize k) 5).
Proof.
  assert (Hfit : src_fits Scenario.S1).
  { unfold src_fits, INT_MAX. simpl. lia. }
  assert (Htr : transformer_in_range Scenario.S1).
  { intros pArg S iDstY iDstX Hy Hx _.
    change (nDstYSize Scenario.S1) with 4 in Hy.
    change (nDstXSize Scenario.S1) with 4 in Hx.
    assert (Hy' : iDstY = 0 \/ iDstY = 1 \/ iDstY = 2 \/ iDstY = 3) by lia.
    assert (Hx' : iDstX = 0 \/ iDstX = 1 \/ iDstX = 2 \/ iDstX = 3) by lia.
    destruct Hy' as [->|[->|[->| ->]]]; destruct Hx' as [->|[->|[->| ->]]];
      split; eexists; (split; [vm_compute; reflexivity|vm_compute; split; discriminate]). }
  assert (Hin : (0, 5) ∈ get_pixels
                  (trace (PerformWarp (ind := Scenario.x86_64) Scenario.S1))).
  { vm_compute. repeat (try (left; fail); right). }
  split; [auto|].
  exact (PerformWarp_reads_inside_source unit unit Scenario.x86_64
           Scenario.S1 Hfit Htr 0 5 Hin).
Defined.

(* ================================================================== *)
(** * The destination window                                        *)
(* ================================================================== *)

Section Whole.
Context {T P : Type} {ind : Indeterminate}.

Local Abbreviation Kernel := (GDALWarpKernel T P).
Local Abbreviation State := (@GWKState T P).

(** The two shapes of a run. *)
Lemma GWKGeneralCase_shape (k : Kernel) :
  (GWK_answer stack_garbage (GWK_init k) = false /\
   wk (GWKGeneralCase k) = with_pProgress k (pProgress (wk (GWKGeneralCase k))))
  \/
  (GWK_answer stack_garbage (GWK_init k) = true /\
   wk (GWK_entry k) = with_pProgress k (pProgress (wk (GWK_entry k))) /\
   eErr (GWK_entry k) = CE_None /\
   wk (GWKGeneralCase k)
   = wk (for_upto (nDstYSize k) GWK_line (GWK_entry k))).
Proof.
  destruct (GWK_answer stack_garbage (GWK_init k)) eqn:Hb0.
  - right. split; [reflexivity|].
    destruct (GWK_entry_facts k Hb0) as (Hk0 & He0 & _).
    split; [exact Hk0|]. split; [exact He0|].
    rewrite (GWKGeneralCase_entered k Hb0).
    destruct (GWK_exit_facts (GWK_lines (GWK_entry k))) as (Hk1 & _).
    cbv zeta in Hk1. rewrite Hk1. unfold GWK_lines.
    assert (HH : nDstYSize (wk (GWK_entry k)) = nDstYSize k)
      by (rewrite Hk0; reflexivity).
    rewrite HH. reflexivity.
  - left. split; [reflexivity|].
    apply (GWKGeneralCase_refused_run k Hb0).
Qed.

Lemma GWKGeneralCase_within (k : Kernel) :
  0 <= nDstXSize k -> dst_fits k ->
  image_agrees 0 (nDstYSize k * nDstXSize k * pixel_bytes (eWorkingDataType k))
               (papabyDstImage k) (papabyDstImage (wk (GWKGeneralCase k))).
Proof.
  intros HW Hfit.
  destruct (GWKGeneralCase_shape k) as [[_ Hk]|(_ & Hk0 & He0 & Hk)];
    rewrite Hk.
  - apply image_agrees_refl.
  - assert (Hc0 : config (wk (GWK_entry k)) = config k)
      by (rewrite Hk0; reflexivity).
    assert (Hi0 : papabyDstImage (wk (GWK_entry k)) = papabyDstImage k)
      by (rewrite Hk0; reflexivity).
    rewrite <- Hi0 at 1.
    destruct (Z.le_gt_cases 0 (nDstYSize k)) as [Hn|Hn].
    2:{ rewrite for_upto_nonpos by lia. apply image_agrees_refl. }
    change 0 with (0 * nDstXSize k * pixel_bytes (eWorkingDataType k)) at 1.
    apply (GWK_lines_within k 0 (nDstYSize k)); try assumption; try lia.
    intros y Hy. apply elem_of_seqZ in Hy. lia.
Qed.

End Whole.

(** X5.  A warp writes inside the destination window only: in a window
    of non-negative width that an [int] can index, every destination band
    keeps its size, and the bytes that follow the [nDstXSize * nDstYSize]
    pixels of the window are those from before the warp. *)
Theorem PerformWarp_writes_inside_window :
  forall (T P : Type) (ind : Indeterminate) (k : GDALWarpKernel T P),
    0 <= nDstXSize k -> dst_fits k ->
    image_agrees 0
      (nDstYSize k * nDstXSize k * pixel_bytes (eWorkingDataType k))
      (papabyDstImage k) (papabyDstImage (wk (PerformWarp k))).
Proof.
  intros T P ind k HW Hfit. rewrite PerformWarp_validated.
  apply GWKGeneralCase_within; assumption.
Qed.

Lemma PerformWarp_writes_inside_window_witness :
  let k := Scenario.plain_kernel GDT_Byte 2 2 [1; 2; 3; 4]
             2 2 [9; 9; 9; 9; 9; 9]
             Scenario.identity_transformer tt GDALDummyProgress tt in
  let res := PerformWarp (ind := Scenario.x86_64) k in
  (0 <= nDstXSize k /\ dst_fits k /\
   papabyDstImage (wk res) = [[1; 2; 3; 4; 9; 9]]) /\
  image_agrees 0
    (nDstYSize k * nDstXSize k * pixel_bytes (eWorkingDataType k))
    (papabyDstImage k) (papabyDstImage (wk res)).
Proof.
  split.
  - split; [simpl; lia|]. split; [unfold dst_fits; simpl; lia|].
    vm_compute. reflexivity.
  - apply (PerformWarp_writes_inside_window unit unit Scenario.x86_64).
    + simpl. lia.
    + unfold dst_fits. simpl. lia.
Defined.

(* ================================================================== *)
(** * The order of reads and writes                                 *)
(* ================================================================== *)

Section Order.
Context {T P : Type} {ind : Indeterminate}.

Local Abbreviation Kernel := (GDALWarpKernel T P).
Local Abbreviation State := (@GWKState T P).

Lemma written_after_read_snoc (tr : list event) (e : event) :
  (forall b o, e <> EvSetPixel b o) ->
  written_after_read tr -> written_after_read (tr ++ [e]).
Proof.
  intros He Htr i b o Hi.
  destruct (decide (i < length tr)%nat) as [Hlt|Hge].
  - rewrite lookup_app_l in Hi by exact Hlt.
    destruct (Htr i b o Hi) as (j & o' & -> & Hj).
    exists j, o'. split; [reflexivity|].
    rewrite lookup_app_l by lia. exact Hj.
  - rewrite lookup_app_r in Hi by lia.
    destruct (i - length tr)%nat as [|n]; simpl in Hi; [|discriminate].
    injection Hi as Hi. exfalso. exact (He b o Hi).
Qed.

Lemma written_after_read_pair (tr : list event) (b so do : Z) :
  written_after_read tr ->
  written_after_read (tr ++ [EvGetPixel b so; EvSetPixel b do]).
Proof.
  intros Htr i b' o Hi.
  destruct (decide (i < length tr)%nat) as [Hlt|Hge].
  - rewrite lookup_app_l in Hi by exact Hlt.
    destruct (Htr i b' o Hi) as (j & o' & -> & Hj).
    exists j, o'. split; [reflexivity|].
    rewrite lookup_app_l by lia. exact Hj.
  - rewrite lookup_app_r in Hi by lia.
    destruct (i - length tr)%nat as [|[|n]] eqn:E; simpl in Hi;
      try discriminate.
    injection Hi as <- <-.
    exists (length tr), so. split; [lia|].
    rewrite lookup_app_r by lia. rewrite Nat.sub_diag. reflexivity.
Qed.

(** What the work on a band adds to the log. *)
Lemma GWK_band_trace (iSrcOffset iDstOffset iBand : Z) (st : State) :
  let st' := GWK_band iSrcOffset iDstOffset iBand st in
  st' = st \/
  st' = emit (EvGetPixel iBand iSrcOffset) st \/
  trace st' = trace st ++ [EvGetPixel iBand iSrcOffset;
                           EvSetPixel iBand iDstOffset].
Proof.
  unfold GWK_band.
  destruct (eResample (wk st)); auto.
  destruct (GWKGetPixelValue _ _ _ _ _ _) as [b [[d r] i]].
  destruct (d =? 0)%float; auto.
  destruct (GWKSetPixelValue _ _ _ _ _ _) as [b' k'].
  right. right. simpl. rewrite <- app_assoc. reflexivity.
Qed.

Lemma GWK_pixel_written_after_read (w : Z) (padfX padfY : list float)
    (iDstY iDstX : Z) (st : State) :
  written_after_read (trace st) ->
  written_after_read (trace (GWK_pixel w padfX padfY iDstY iDstX st)).
Proof.
  intros Hst. unfold GWK_pixel.
  repeat (match goal with
          | |- written_after_read (trace (if ?c then _ else _)) => destruct c
          end; try exact Hst).
  apply (for_upto_ind (fun s => written_after_read (trace s))); [exact Hst|].
  intros iBand s _ Hs.
  destruct (GWK_band_trace
              (int32
                 (int32 (fptoint true 32 (at_index 0%float padfX iDstX)
                         - nSrcXOff (wk st)) +
                  int32 (int32 (fptoint true 32 (at_index 0%float padfY iDstX)
                                - nSrcYOff (wk st)) * nSrcXSize (wk st))))
              (int32 (iDstX + int32 (iDstY * nDstXSize (wk st)))) iBand s)
    as [->|[->| ->]].
  - exact Hs.
  - apply written_after_read_snoc; [discriminate|exact Hs].
  - apply written_after_read_pair. exact Hs.
Qed.

(** A kernel of the data type [GDT_Unknown] reads no value. *)
Lemma GWK_band_unknown (iSrcOffset iDstOffset iBand : Z) (st : State) :
  eWorkingDataType (wk st) = GDT_Unknown ->
  let st' := GWK_band iSrcOffset iDstOffset iBand st in
  st' = st \/ st' = emit (EvGetPixel iBand iSrcOffset) st.
Proof.
  intros HT. unfold GWK_band.
  destruct (eResample (wk st)); auto.
  assert (Hget : forall d r i,
            GWKGetPixelValue (wk st) iBand iSrcOffset d r i
            = (false, (0%float, r, i))).
  { intros d r i. unfold GWKGetPixelValue. rewrite HT.
    cbn [GWKGetPixelValue_band].
    repeat match goal with
           | |- context [if ?c then _ else _] => destruct c
           end; reflexivity. }
  rewrite Hget.
  assert (Hz : (0 =? 0)%float = true) by reflexivity.
  rewrite Hz. auto.
Qed.

Lemma GWK_pixel_unknown (k : Kernel) (w : Z) (padfX padfY : list float)
    (iDstY iDstX : Z) (st : State) :
  eWorkingDataType k = GDT_Unknown -> config (wk st) = config k ->
  let st' := GWK_pixel w padfX padfY iDstY iDstX st in
  papabyDstImage (wk st') = papabyDstImage (wk st) /\
  set_pixels (trace st') = set_pixels (trace st).
Proof.
  intros HT Hc. cbv zeta. unfold GWK_pixel.
  repeat (match goal with
          | |- context [if ?c then _ else _] => destruct c
          end; try (split; reflexivity)).
  enough (H3 : forall n body,
            body = GWK_band
                     (int32
                        (int32 (fptoint true 32 (at_index 0%float padfX iDstX)
                                - nSrcXOff (wk st)) +
                         int32 (int32 (fptoint true 32
                                         (at_index 0%float padfY iDstX)
                                       - nSrcYOff (wk st))
                                * nSrcXSize (wk st))))
                     (int32 (iDstX + int32 (iDstY * nDstXSize (wk st)))) ->
            papabyDstImage (wk (for_upto n body st)) = papabyDstImage (wk st) /\
            set_pixels (trace (for_upto n body st)) = set_pixels (trace st) /\
            eWorkingDataType (wk (for_upto n body st)) = GDT_Unknown).
  { destruct (H3 (nBands (wk st)) _ eq_refl) as (? & ? & _). auto. }
  intros n body ->.
  apply (for_upto_ind (fun s =>
    papabyDstImage (wk s) = papabyDstImage (wk st) /\
    set_pixels (trace s) = set_pixels (trace st) /\
    eWorkingDataType (wk s) = GDT_Unknown)).
  - repeat split. config_fields Hc. congruence.
  - intros iBand s _ (Hi & Hs & HTs).
    match goal with |- context [GWK_band ?a ?b iBand s] =>
      destruct (GWK_band_unknown a b iBand s HTs) as [->| ->] end.
    + auto.
    + cbn [emit wk trace]. unfold set_pixels in *. rewrite omap_app.
      rewrite Hs. simpl. rewrite app_nil_r. auto.
Qed.

End Order.

(** X6.  A warp writes no destination pixel without having read a source
    pixel for it: in the log of every run, each write of a destination
    pixel comes directly after the read of a source pixel of the same
    band. *)
Theorem PerformWarp_writes_after_reading :
  forall (T P : Type) (ind : Indeterminate) (k : GDALWarpKernel T P),
    written_after_read (trace (PerformWarp k)).
Proof.
  intros T P ind k. rewrite PerformWarp_validated.
  apply (GWKGeneralCase_invariant k (fun _ tr => written_after_read tr)).
  - intros i b o Hi. discriminate Hi.
  - intros img tr e He Htr. apply written_after_read_snoc; [|exact Htr].
    intros b o ->. apply He. exact I.
  - intros pArg S iDstY iDstX s _ _ _ _ Hs. cbv zeta.
    apply GWK_pixel_written_after_read. exact Hs.
Qed.

(** X7.  The warp of a kernel whose working data type is [GDT_Unknown],
    which is what the constructor sets, writes nothing: no destination
    pixel is written, and the destination image is what it was. *)
Theorem PerformWarp_of_unknown_type_writes_nothing :
  forall (T P : Type) (ind : Indeterminate) (k : GDALWarpKernel T P),
    eWorkingDataType k = GDT_Unknown ->
    let res := PerformWarp k in
    set_pixels (trace res) = [] /\
    papabyDstImage (wk res) = papabyDstImage k.
Proof.
  intros T P ind k HT. cbv zeta. rewrite PerformWarp_validated.
  apply and_comm.
  apply (GWKGeneralCase_invariant k (fun img tr =>
           img = papabyDstImage k /\ set_pixels tr = [])).
  - auto.
  - intros img tr e He [Hi Hs]. split; [exact Hi|].
    unfold set_pixels in *. rewrite omap_app, Hs.
    destruct e; simpl in *; try reflexivity. tauto.
  - intros pArg S iDstY iDstX s _ _ Hc _ [Hi Hs]. cbv zeta.
    destruct (GWK_pixel_unknown k (GWK_nResWinSize k)
                (GWK_line_x k pArg S iDstY) (GWK_line_y k pArg S iDstY)
                iDstY iDstX s HT Hc) as [Hi' Hs'].
    split; congruence.
Qed.

Lemma PerformWarp_of_unknown_type_writes_nothing_witness :
  let k := Scenario.plain_kernel GDT_Unknown 2 2 [1; 2; 3; 4] 2 2 [5; 6; 7; 8]
             Scenario.identity_transformer tt GDALDummyProgress tt in
  let res := PerformWarp (ind := Scenario.x86_64) k in
  (eWorkingDataType k = GDT_Unknown /\
   get_pixels (trace res) = [(0, 0); (0, 1); (0, 2); (0, 3)]) /\
  (set_pixels (trace res) = [] /\
   papabyDstImage (wk res) = papabyDstImage k).
Proof.
  split.
  - split; vm_compute; reflexivity.
  - apply (PerformWarp_of_unknown_type_writes_nothing
             unit unit Scenario.x86_64). reflexivity.
Defined.

(* ================================================================== *)
(** * What a warp leaves alone                                      *)
(* ================================================================== *)

Section Shape.
Context {T P : Type} {ind : Indeterminate}.

Local Abbreviation Kernel := (GDALWarpKernel T P).
Local Abbreviation State := (@GWKState T P).

Lemma store_float_length (p : list Z) (i : Z) (x : float) :
  length (store_float p i x) = length p.
Proof. apply poke_length. Qed.

Lemma store_double_length (p : list Z) (i : Z) (x : float) :
  length (store_double p i x) = length p.
Proof. apply poke_length. Qed.

(** A store keeps the size of the band buffer. *)
Lemma GWKSetPixelValue_band_length (eType : GDALDataType) (p p' : list Z)
    (iDstOffset : Z) (dfReal dfImag : float) :
  GWKSetPixelValue_band eType p iDstOffset dfReal dfImag = Some p' ->
  length p' = length p.
Proof.
  intros Hp. destruct eType; simpl in Hp; try discriminate;
    injection Hp as <-;
    repeat match goal with
           | |- context [if ?c then _ else _] => destruct c
           end;
    rewrite ?store_int_length, ?store_float_length, ?store_double_length,
            ?store_int_length;
    reflexivity.
Qed.

Lemma same_sizes_refl (img : list (list Z)) :
  Forall2 (fun p p' => length p' = length p) img img.
Proof. induction img; constructor; auto. Qed.

Lemma GWKSetPixelValue_sizes (k : Kernel) (img : list (list Z))
    (iBand iDstOffset : Z) (d r i : float) :
  Forall2 (fun p p' => length p' = length p) img (papabyDstImage k) ->
  Forall2 (fun p p' => length p' = length p) img
          (papabyDstImage (GWKSetPixelValue k iBand iDstOffset d r i).2).
Proof.
  intros Himg. unfold GWKSetPixelValue.
  destruct (GWKSetPixelValue_band _ _ _ _ _) as [p'|] eqn:E; simpl;
    [|exact Himg].
  apply GWKSetPixelValue_band_length in E.
  unfold set_index, at_index in *. destruct (iBand <? 0); [exact Himg|].
  apply Forall2_same_length_lookup. split.
  - rewrite length_insert. eapply Forall2_length. exact Himg.
  - intros j x y Hx Hy.
    destruct (decide (j = Z.to_nat iBand)) as [->|Hne].
    + destruct (papabyDstImage k !! Z.to_nat iBand) as [q|] eqn:Hq.
      * rewrite list_lookup_insert_eq in Hy
          by (apply lookup_lt_is_Some; eauto).
        injection Hy as <-. simpl in E. rewrite E.
        exact (Forall2_lookup_lr _ _ _ _ _ _ Himg Hx Hq).
      * pose proof Hq as Hge. apply lookup_ge_None in Hge.
        rewrite list_insert_ge in Hy by lia. congruence.
    + rewrite list_lookup_insert_ne in Hy by congruence.
      exact (Forall2_lookup_lr _ _ _ _ _ _ Himg Hx Hy).
Qed.

Lemma GWK_pixel_sizes (img : list (list Z)) (w : Z)
    (padfX padfY : list float) (iDstY iDstX : Z) (st : State) :
  Forall2 (fun p p' => length p' = length p) img (papabyDstImage (wk st)) ->
  Forall2 (fun p p' => length p' = length p) img
          (papabyDstImage (wk (GWK_pixel w padfX padfY iDstY iDstX st))).
Proof.
  intros Hst. unfold GWK_pixel.
  repeat (match goal with
          | |- context [if ?c then _ else _] => destruct c
          end; try exact Hst).
  apply for_upto_ind; [exact Hst|].
  intros iBand s _ Hs. unfold GWK_band.
  destruct (eResample (wk s)); try exact Hs.
  destruct (GWKGetPixelValue _ _ _ _ _ _) as [b [[d r] i]].
  destruct (d =? 0)%float; [exact Hs|].
  pose proof (GWKSetPixelValue_sizes (wk s) img iBand
    (int32 (iDstX + int32 (iDstY * nDstXSize (wk st)))) d r i Hs) as Hset.
  destruct (GWKSetPixelValue _ _ _ _ _ _) as [b' k']. exact Hset.
Qed.

End Shape.

(** X8.  A warp changes nothing but destination pixels: the fields of the
    kernel object that describe the source (image, validity and density
    planes, window) and the job are those from before the warp, and the
    destination image keeps its number of bands and every band its
    size. *)
Theorem PerformWarp_changes_destination_pixels_only :
  forall (T P : Type) (ind : Indeterminate) (k : GDALWarpKernel T P),
    let k' := wk (PerformWarp k) in
    papabySrcImage k' = papabySrcImage k /\
    papanBandSrcValid k' = papanBandSrcValid k /\
    panUnifiedSrcValid k' = panUnifiedSrcValid k /\
    pafUnifiedSrcDensity k' = pafUnifiedSrcDensity k /\
    (nSrcXSize k', nSrcYSize k', nSrcXOff k', nSrcYOff k')
    = (nSrcXSize k, nSrcYSize k, nSrcXOff k, nSrcYOff k) /\
    (nDstXSize k', nDstYSize k', nDstXOff k', nDstYOff k')
    = (nDstXSize k, nDstYSize k, nDstXOff k, nDstYOff k) /\
    (eResample k', eWorkingDataType k', nBands k')
    = (eResample k, eWorkingDataType k, nBands k) /\
    Forall2 (fun p p' => length p' = length p)
            (papabyDstImage k) (papabyDstImage k').
Proof.
  intros T P ind k. cbv zeta. rewrite PerformWarp_validated.
  pose proof (GWKGeneralCase_config k) as Hc.
  repeat (split; [config_fields Hc; congruence|]).
  apply (GWKGeneralCase_invariant k (fun img _ =>
           Forall2 (fun p p' => length p' = length p) (papabyDstImage k) img)).
  - apply same_sizes_refl.
  - auto.
  - intros pArg S iDstY iDstX s _ _ _ _ Hs. cbv zeta.
    apply GWK_pixel_sizes. exact Hs.
Qed.

(** X9.  The pixels that a warp leaves do not depend on the progress
    callback, as long as it does not cancel: with another progress
    callback and another context for it, the destination image and the
    context of the transformer are left the same. *)
Theorem PerformWarp_ignores_the_progress_callback :
  forall (T P : Type) (ind : Indeterminate) (k : GDALWarpKernel T P)
         (pfn : GDALProgressFunc P) (pArg : P),
    never_cancels k ->
    (forall f s p, (pfn f s p).1 = true) ->
    let other := with_pProgress (with_pfnProgress k pfn) pArg in
    papabyDstImage (wk (PerformWarp other))
    = papabyDstImage (wk (PerformWarp k)) /\
    pTransformerArg (wk (PerformWarp other))
    = pTransformerArg (wk (PerformWarp k)).
Proof.
  intros T P ind k pfn pArg Hnc Hpfn other.
  assert (HncB : never_cancels other) by (intros f s p; apply Hpfn).
  change (PerformWarp other) with (GWKGeneralCase other).
  change (PerformWarp k) with (GWKGeneralCase k).
  destruct (GWKGeneralCase_shape k) as [[Hb _]|(_ & HkA & HeA & ->)].
  { rewrite (Hnc _ _ _ : GWK_answer stack_garbage (GWK_init k) = true) in Hb.
    discriminate. }
  destruct (GWKGeneralCase_shape other) as [[Hb _]|(_ & HkB & HeB & ->)].
  { rewrite (HncB _ _ _ : GWK_answer stack_garbage (GWK_init other) = true)
      in Hb. discriminate. }
  change (nDstYSize other) with (nDstYSize k).
  set (stA := GWK_entry k) in *. set (stB := GWK_entry other) in *.
  assert (Hsim : same_warp stB stA).
  { unfold same_warp. rewrite HkA, HkB.
    repeat split. }
  assert (HncA' : never_cancels (wk stA)).
  { apply (never_cancels_config k); [rewrite HkA; reflexivity|exact Hnc]. }
  assert (HncB' : never_cancels (wk stB)).
  { apply (never_cancels_config other); [rewrite HkB; reflexivity|exact HncB]. }
  destruct (Z.le_gt_cases 0 (nDstYSize k)) as [Hn|Hn].
  - destruct (GWK_lines_prefix_continue stB (nDstYSize k) HncB' HeB)
      as [_ HeBn].
    destruct (GWK_lines_in_step stB stA (nDstYSize k) Hsim HncA' HeA Hn HeBn)
      as (_ & Himg & Harg & _).
    auto.
  - rewrite !for_upto_nonpos by lia. destruct Hsim as (_ & Himg & Harg & _).
    auto.
Qed.

Lemma PerformWarp_ignores_the_progress_callback_witness :
  let k := Scenario.plain_kernel GDT_Byte 2 2 [1; 2; 3; 4] 2 2 [0; 0; 0; 0]
             Scenario.identity_transformer tt GDALDummyProgress 0%nat in
  let pfn : GDALProgressFunc nat := fun _ _ nCalls => (true, S nCalls) in
  let other := with_pProgress (with_pfnProgress k pfn) 5%nat in
  (never_cancels k /\ (forall f s p, (pfn f s p).1 = true) /\
   pProgress (wk (PerformWarp (ind := Scenario.x86_64) other)) = 8%nat /\
   pProgress (wk (PerformWarp (ind := Scenario.x86_64) k)) = 0%nat) /\
  (papabyDstImage (wk (PerformWarp (ind := Scenario.x86_64) other))
   = papabyDstImage (wk (PerformWarp (ind := Scenario.x86_64) k)) /\
   pTransformerArg (wk (PerformWarp (ind := Scenario.x86_64) other))
   = pTransformerArg (wk (PerformWarp (ind := Scenario.x86_64) k))).
Proof.
  split.
  - split; [intros f s p; reflexivity|]. split; [intros f s p; reflexivity|].
    split; vm_compute; reflexivity.
  - apply (PerformWarp_ignores_the_progress_callback unit nat Scenario.x86_64).
    + intros f s p. reflexivity.
    + intros f s p. reflexivity.
Defined.

(* ================================================================== *)
(** * What the nearest neighbour resampling computes                *)
(* ================================================================== *)

Section Nearest.
Context {T P : Type} {ind : Indeterminate}.

Local Abbreviation Kernel := (GDALWarpKernel T P).
Local Abbreviation State := (@GWKState T P).

(** A loop whose round [i] works on a part [i] of the state of its own:
    when every round turns "part [i] is untouched" into "part [i] is
    done" and leaves the other parts alone, all parts are done at the
    end. *)
Lemma for_upto_each {S : Type} (n : Z) (body : Z -> S -> S)
    (Pre : S -> Prop) (U D : Z -> S -> Prop) (s0 : S) :
  Pre s0 ->
  (forall i, 0 <= i < n -> U i s0) ->
  (forall j s, 0 <= j < n -> Pre s -> Pre (body j s)) ->
  (forall i j s, 0 <= i < n -> 0 <= j < n -> i <> j ->
                 Pre s -> U i s -> U i (body j s)) ->
  (forall i j s, 0 <= i < n -> 0 <= j < n -> i <> j ->
                 Pre s -> D i s -> D i (body j s)) ->
  (forall i s, 0 <= i < n -> Pre s -> U i s -> D i (body i s)) ->
  Pre (for_upto n body s0) /\
  forall i, 0 <= i < n -> D i (for_upto n body s0).
Proof.
  intros Hpre HU Hstep HUf HDf Hdo.
  destruct (Z.le_gt_cases 0 n) as [Hn|Hn].
  2:{ rewrite for_upto_nonpos by lia. split; [exact Hpre|]. intros i Hi. lia. }
  enough (H : Pre (for_upto n body s0) /\
              (forall i, 0 <= i < n -> D i (for_upto n body s0)) /\
              (forall i, n <= i < n -> U i (for_upto n body s0))).
  { destruct H as (H1 & H2 & _). auto. }
  apply (for_upto_rec (fun m s =>
           Pre s /\ (forall i, 0 <= i < m -> D i s) /\
           (forall i, m <= i < n -> U i s))); [exact Hn| |].
  - split; [exact Hpre|]. split; [intros i Hi; lia|]. intros i Hi.
    apply HU. lia.
  - intros m s Hm (Hp & HD & HUs). split; [apply Hstep; assumption|]. split.
    + intros i Hi. destruct (Z.eq_dec i m) as [->|Hne].
      * apply Hdo; try assumption. apply HUs. lia.
      * apply HDf; try assumption; try lia. apply HD. lia.
    + intros i Hi. apply HUf; try assumption; try lia. apply HUs. lia.
Qed.

(** The same when what is known before a round depends on the number of
    the round. *)
Lemma for_upto_each_at {S : Type} (n : Z) (body : Z -> S -> S)
    (Pre : Z -> S -> Prop) (U D : Z -> S -> Prop) (s0 : S) :
  Pre 0 s0 ->
  (forall i, 0 <= i < n -> U i s0) ->
  (forall j s, 0 <= j < n -> Pre j s -> Pre (j + 1) (body j s)) ->
  (forall i j s, 0 <= i < n -> 0 <= j < n -> i <> j ->
                 Pre j s -> U i s -> U i (body j s)) ->
  (forall i j s, 0 <= i < n -> 0 <= j < n -> i <> j ->
                 Pre j s -> D i s -> D i (body j s)) ->
  (forall i s, 0 <= i < n -> Pre i s -> U i s -> D i (body i s)) ->
  (0 <= n -> Pre n (for_upto n body s0)) /\
  forall i, 0 <= i < n -> D i (for_upto n body s0).
Proof.
  intros Hpre HU Hstep HUf HDf Hdo.
  destruct (Z.le_gt_cases 0 n) as [Hn|Hn].
  2:{ split; intros; lia. }
  enough (H : Pre n (for_upto n body s0) /\
              (forall i, 0 <= i < n -> D i (for_upto n body s0)) /\
              (forall i, n <= i < n -> U i (for_upto n body s0))).
  { destruct H as (H1 & H2 & _). auto. }
  apply (for_upto_rec (fun m s =>
           Pre m s /\ (forall i, 0 <= i < m -> D i s) /\
           (forall i, m <= i < n -> U i s))); [exact Hn| |].
  - split; [exact Hpre|]. split; [intros i Hi; lia|]. intros i Hi.
    apply HU. lia.
  - intros m s Hm (Hp & HD & HUs). split; [apply Hstep; assumption|]. split.
    + intros i Hi. destruct (Z.eq_dec i m) as [->|Hne].
      * apply Hdo; try assumption. apply HUs. lia.
      * apply (HDf i m); try assumption; try lia. apply HD. lia.
    + intros i Hi. apply (HUf i m); try assumption; try lia. apply HUs. lia.
Qed.

Lemma load_uint_agrees (n : nat) (lo hi : Z) (p p' : list Z) (i : Z) :
  buffer_agrees lo hi p p' ->
  Z.of_nat n * (i + 1) <= lo \/ hi <= Z.of_nat n * i ->
  load_uint n p' i = load_uint n p i.
Proof.
  intros Hag Hi. unfold load_uint.
  apply (peek_agrees n lo hi); [exact Hag|lia].
Qed.

Lemma load_float_agrees (lo hi : Z) (p p' : list Z) (i : Z) :
  buffer_agrees lo hi p p' -> 4 * (i + 1) <= lo \/ hi <= 4 * i ->
  load_float p' i = load_float p i.
Proof.
  intros Hag Hi. unfold load_float. f_equal.
  apply (peek_agrees 4 lo hi); [exact Hag|lia].
Qed.

Lemma load_double_agrees (lo hi : Z) (p p' : list Z) (i : Z) :
  buffer_agrees lo hi p p' -> 8 * (i + 1) <= lo \/ hi <= 8 * i ->
  load_double p' i = load_double p i.
Proof.
  intros Hag Hi. unfold load_double. f_equal.
  apply (peek_agrees 8 lo hi); [exact Hag|lia].
Qed.

(** The value of a pixel depends on the bytes of the pixel only. *)
Lemma GWKGetPixelValue_band_local (eType : GDALDataType) (lo hi : Z)
    (p p' : list Z) (i : Z) :
  buffer_agrees lo hi p p' ->
  0 <= i -> 2 * i + 1 <= INT_MAX ->
  (i + 1) * pixel_bytes eType <= lo \/ hi <= i * pixel_bytes eType ->
  GWKGetPixelValue_band eType p' i = GWKGetPixelValue_band eType p i.
Proof.
  intros Hag H0 Hmax Hr.
  destruct (complex_offsets i H0 Hmax) as [HRe HIm].
  unfold GWKGetPixelValue_band. rewrite HRe in HIm |- *. rewrite HIm.
  destruct eType; cbn [pixel_bytes] in Hr; try reflexivity;
    rewrite ?(load_uint_agrees 1 lo hi p p'), ?(load_uint_agrees 2 lo hi p p'),
            ?(load_uint_agrees 4 lo hi p p'),
            ?(load_int_agrees 2 lo hi p p'), ?(load_int_agrees 4 lo hi p p'),
            ?(load_float_agrees lo hi p p'), ?(load_double_agrees lo hi p p')
      by (try exact Hag; lia);
    reflexivity.
Qed.

Lemma at_index_image_agrees (lo hi : Z) (img img' : list (list Z)) (b : Z) :
  image_agrees lo hi img img' ->
  buffer_agrees lo hi (at_index [] img b) (at_index [] img' b).
Proof.
  intros Himg. unfold at_index. destruct (b <? 0); [apply buffer_agrees_refl|].
  destruct (img !! Z.to_nat b) as [p|] eqn:Hp.
  - destruct (Forall2_lookup_l _ _ _ _ _ Himg Hp) as (p' & Hp' & Hag).
    rewrite Hp'. exact Hag.
  - assert (Hn : img' !! Z.to_nat b = None).
    { apply lookup_ge_None. apply lookup_ge_None in Hp.
      rewrite <- (Forall2_length _ _ _ Himg). exact Hp. }
    rewrite Hn. apply buffer_agrees_refl.
Qed.

Lemma buffer_keeps_agrees (a b lo hi : Z) (p0 p p' : list Z) :
  b <= lo \/ hi <= a ->
  buffer_keeps a b p0 p -> buffer_agrees lo hi p p' ->
  buffer_keeps a b p0 p'.
Proof.
  intros Hd [Hl Hk] [Hl' Hag]. split; [congruence|].
  intros j Hj. rewrite Hag by lia. apply Hk. exact Hj.
Qed.

(** [masked_nearest_pixel] is about the bytes of the pixel only. *)
Lemma masked_nearest_pixel_local (k : Kernel) (padfX padfY : list float)
    (panSuccess : list Z) (iDstX iDstY iBand : Z) (lo hi : Z)
    (img img' : list (list Z)) :
  0 <= iDstX + iDstY * nDstXSize k ->
  2 * (iDstX + iDstY * nDstXSize k) + 1 <= INT_MAX ->
  pixel_hi k iDstX iDstY <= lo \/ hi <= pixel_lo k iDstX iDstY ->
  image_agrees lo hi img img' ->
  masked_nearest_pixel k padfX padfY panSuccess iDstX iDstY iBand img ->
  masked_nearest_pixel k padfX padfY panSuccess iDstX iDstY iBand img'.
Proof.
  intros H0 Hmax Hd Himg. unfold masked_nearest_pixel. cbv zeta.
  pose proof (at_index_image_agrees lo hi img img' iBand Himg) as Hag.
  assert (Hkept :
    buffer_keeps (pixel_lo k iDstX iDstY) (pixel_hi k iDstX iDstY)
      (at_index [] (papabyDstImage k) iBand) (at_index [] img iBand) ->
    buffer_keeps (pixel_lo k iDstX iDstY) (pixel_hi k iDstX iDstY)
      (at_index [] (papabyDstImage k) iBand) (at_index [] img' iBand)).
  { intros Hk. eapply buffer_keeps_agrees; [|exact Hk|exact Hag]. lia. }
  destruct (if _ =? 0 then _ else _) as [[iSrcX iSrcY]|]; [|exact Hkept].
  destruct (GWK_dst_taken k _); [exact Hkept|].
  destruct (GWKGetPixelValue k iBand _ 0 0 0).1; [|exact Hkept].
  intros <-. unfold pixel_lo, pixel_hi in Hd.
  apply (GWKGetPixelValue_band_local _ lo hi); try assumption.
Qed.

(** Without validity and density planes, [masked_nearest_pixel] is
    [nearest_pixel]. *)
Lemma masked_nearest_pixel_plain (k : Kernel) (padfX padfY : list float)
    (panSuccess : list Z) (iDstX iDstY iBand : Z) (img : list (list Z)) :
  plain_copy_job k ->
  masked_nearest_pixel k padfX padfY panSuccess iDstX iDstY iBand img ->
  nearest_pixel k padfX padfY panSuccess iDstX iDstY iBand img.
Proof.
  intros (_ & HT & (HM1 & HM2 & HM3 & HM4) & _).
  unfold masked_nearest_pixel, nearest_pixel. cbv zeta.
  destruct (if _ =? 0 then _ else _) as [[iSrcX iSrcY]|]; [|auto].
  unfold GWK_dst_taken. rewrite HM4.
  unfold GWKGetPixelValue. rewrite HM1, HM2, HM3.
  assert (Hget : exists re im,
            GWKGetPixelValue_band (eWorkingDataType k)
              (at_index [] (papabySrcImage k) iBand)
              (iSrcX + iSrcY * nSrcXSize k) = Some (re, im)).
  { unfold GWK_exact_types in HT.
    repeat (apply elem_of_cons in HT as [->|HT]); try (inversion HT; fail);
      eexists; eexists; reflexivity. }
  destruct Hget as (re & im & Hget). rewrite Hget.
  assert (H10 : (1 =? 0)%float = false) by reflexivity.
  rewrite H10. cbn [negb fst]. auto.
Qed.

Lemma plain_copy_job_copy_job (k : Kernel) : plain_copy_job k -> copy_job k.
Proof.
  intros (HR & HT & _ & HW & HB & Hlen & Hsrc). unfold copy_job.
  repeat split; try assumption; apply HB.
Qed.

(** What [GWKGetPixelValue] returns: TRUE exactly when the density it
    leaves is not zero, and then the values it leaves are those of the
    source pixel. *)
Lemma GWKGetPixelValue_contract (k : Kernel) (iBand iSrcOffset : Z)
    (d0 r0 i0 : float) :
  let res := GWKGetPixelValue k iBand iSrcOffset d0 r0 i0 in
  res.1 = negb (res.2.1.1 =? 0)%float /\
  (res.1 = true ->
   GWKGetPixelValue_band (eWorkingDataType k)
     (at_index [] (papabySrcImage k) iBand) iSrcOffset
   = Some (res.2.1.2, res.2.2)).
Proof.
  cbv zeta. unfold GWKGetPixelValue.
  assert (H00 : (0 =? 0)%float = true) by reflexivity.
  destruct (match panUnifiedSrcValid k with Some _ => _ | None => _ end);
    [cbn [fst snd]; rewrite ?H00; split; [reflexivity|discriminate]|].
  destruct (match papanBandSrcValid k with Some _ => _ | None => _ end);
    [cbn [fst snd]; rewrite ?H00; split; [reflexivity|discriminate]|].
  destruct (GWKGetPixelValue_band _ _ _) as [[re im]|];
    [|cbn [fst snd]; rewrite ?H00; split; [reflexivity|discriminate]].
  simpl. split; reflexivity.
Qed.

Lemma is_bytes_at_index (img : list (list Z)) (b : Z) :
  Forall is_bytes img -> is_bytes (at_index [] img b).
Proof.
  intros Himg. unfold at_index. destruct (b <? 0); [constructor|].
  destruct (img !! Z.to_nat b) as [p|] eqn:Hp; simpl; [|constructor].
  exact (Forall_lookup_1 _ _ _ _ Himg Hp).
Qed.

(** A pixel of one of the exact types that is read from a source band
    and stored in a destination band is read back from there as it was
    read from the source. *)
Lemma GWK_copy (eType : GDALDataType) (src dst : list Z)
    (iSrcOffset iDstOffset : Z) :
  eType ∈ GWK_exact_types ->
  is_bytes src ->
  0 <= iDstOffset -> 2 * iDstOffset + 1 <= INT_MAX ->
  pixel_bytes eType * (iDstOffset + 1) <= Z.of_nat (length dst) ->
  exists dfReal dfImag dst',
    GWKGetPixelValue_band eType src iSrcOffset = Some (dfReal, dfImag) /\
    GWKSetPixelValue_band eType dst iDstOffset dfReal dfImag = Some dst' /\
    GWKGetPixelValue_band eType dst' iDstOffset = Some (dfReal, dfImag).
Proof.
  intros HT Hsrc H0 Hmax Hlen.
  assert (Hget : exists re im,
            GWKGetPixelValue_band eType src iSrcOffset = Some (re, im)).
  { unfold GWK_exact_types in HT.
    repeat (apply elem_of_cons in HT as [->|HT]); try (inversion HT; fail);
      eexists; eexists; reflexivity. }
  destruct Hget as (re & im & Hget). exists re, im.
  assert (Hcase : eType ∈ [GDT_Byte; GDT_UInt16; GDT_Int16; GDT_UInt32] \/
                  eType ∈ [GDT_CInt16; GDT_CInt32] \/
                  eType ∈ [GDT_Float64; GDT_CFloat64]).
  { unfold GWK_exact_types in HT.
    repeat (apply elem_of_cons in HT as [->|HT]); try (inversion HT; fail);
      first [left; repeat constructor; fail
            |right; left; repeat constructor; fail
            |right; right; repeat constructor]. }
  destruct Hcase as [Hc|[Hc|Hc]].
  - destruct (GWK_copy_real eType src dst iSrcOffset iDstOffset re im
                Hc Hsrc H0 Hlen Hget) as (dst' & Hset & Hback).
    exists dst'. auto.
  - destruct (GWK_copy_complex eType src dst iSrcOffset iDstOffset re im
                Hc H0 Hmax Hlen Hget) as (dst' & Hset & Hback).
    exists dst'. auto.
  - destruct (GWK_copy_double eType src dst iSrcOffset iDstOffset re im
                Hc H0 Hmax Hlen Hget) as (dst' & Hset & Hback).
    exists dst'. auto.
Qed.

Lemma copying_pixel_step (k : Kernel) (st st' : State) :
  copying k st -> pixel_step st st' ->
  Forall2 (fun p p' => length p' = length p)
          (papabyDstImage k) (papabyDstImage (wk st')) ->
  copying k st'.
Proof.
  intros [Hc _] Hstep Hsz. split; [|exact Hsz].
  apply pixel_step_views in Hstep as (Hc' & _). congruence.
Qed.

Lemma at_index_set_index_ne {A : Type} (d : A) (l : list A) (i j : Z) (x : A) :
  i <> j -> 0 <= i -> at_index d (set_index l j x) i = at_index d l i.
Proof.
  intros Hne Hi. unfold at_index, set_index.
  destruct (Z.ltb_spec i 0); [lia|].
  destruct (Z.ltb_spec j 0); [reflexivity|].
  rewrite list_lookup_insert_ne by lia. reflexivity.
Qed.

Lemma band_length (k : Kernel) (st : State) (iBand : Z) :
  copying k st ->
  Forall (fun p => nDstXSize k * nDstYSize k * pixel_bytes (eWorkingDataType k)
                   <= Z.of_nat (length p)) (papabyDstImage k) ->
  0 <= iBand < Z.of_nat (length (papabyDstImage k)) ->
  nDstXSize k * nDstYSize k * pixel_bytes (eWorkingDataType k)
  <= Z.of_nat (length (at_index [] (papabyDstImage (wk st)) iBand)) /\
  0 <= iBand < Z.of_nat (length (papabyDstImage (wk st))).
Proof.
  intros [_ Hsz] Hlen Hb.
  pose proof (Forall2_length _ _ _ Hsz) as Hn.
  split; [|lia].
  unfold at_index. destruct (Z.ltb_spec iBand 0); [lia|].
  destruct (lookup_lt_is_Some_2 (papabyDstImage k) (Z.to_nat iBand)
              ltac:(lia)) as [p Hp].
  destruct (Forall2_lookup_l _ _ _ _ _ Hsz Hp) as (p' & Hp' & Hl).
  rewrite Hp'. simpl. rewrite Hl.
  exact (Forall_lookup_1 _ _ _ _ Hlen Hp).
Qed.

(** The work on one band of a destination pixel, in a job of
    [copy_job]. *)
Lemma GWK_band_masked (k : Kernel) (iSrcOffset iDstOffset iBand : Z)
    (st : State) :
  copy_job k -> copying k st ->
  0 <= iBand < nBands k ->
  0 <= iDstOffset < nDstXSize k * nDstYSize k ->
  2 * iDstOffset + 1 <= INT_MAX ->
  let st' := GWK_band iSrcOffset iDstOffset iBand st in
  (forall b, 0 <= b -> b <> iBand ->
     at_index [] (papabyDstImage (wk st')) b
     = at_index [] (papabyDstImage (wk st)) b) /\
  (if (GWKGetPixelValue k iBand iSrcOffset 0 0 0).1
   then GWKGetPixelValue_band (eWorkingDataType k)
          (at_index [] (papabyDstImage (wk st')) iBand) iDstOffset
        = GWKGetPixelValue_band (eWorkingDataType k)
            (at_index [] (papabySrcImage k) iBand) iSrcOffset
   else at_index [] (papabyDstImage (wk st')) iBand
        = at_index [] (papabyDstImage (wk st)) iBand).
Proof.
  intros (HR & HT & HW & HB & Hlen & Hsrc) Hcp Hb Hoff Hmax.
  pose proof Hcp as [Hc Hsz].
  assert (Hf : (eResample (wk st), eWorkingDataType (wk st))
               = (eResample k, eWorkingDataType k)).
  { config_fields Hc. congruence. }
  injection Hf as HeR HeT.
  destruct (band_length k st iBand Hcp Hlen ltac:(lia)) as [Hbl Hbn].
  pose proof (pixel_bytes_nonneg (eWorkingDataType k)) as Hes.
  destruct (GWK_copy (eWorkingDataType k)
              (at_index [] (papabySrcImage k) iBand)
              (at_index [] (papabyDstImage (wk st)) iBand)
              iSrcOffset iDstOffset HT
              (is_bytes_at_index _ _ Hsrc) ltac:(lia) Hmax)
    as (re & im & dst' & Hget & Hset & Hback).
  { eapply Z.le_trans; [|exact Hbl]. nia. }
  cbv zeta. unfold GWK_band. rewrite HeR, HR.
  rewrite (GWKGetPixelValue_same (wk st) k iBand iSrcOffset 0 0 0)
    by (rewrite Hc; reflexivity).
  pose proof (GWKGetPixelValue_contract k iBand iSrcOffset 0 0 0)
    as [Hret Hval]. cbv zeta in Hret, Hval.
  destruct (GWKGetPixelValue k iBand iSrcOffset 0 0 0) as [ok [[d r] i]].
  cbn [fst snd] in Hret, Hval |- *.
  destruct ok.
  - specialize (Hval eq_refl). rewrite Hget in Hval.
    injection Hval as <- <-.
    symmetry in Hret. apply negb_true_iff in Hret. rewrite Hret.
    unfold GWKSetPixelValue. rewrite HeT, Hset.
    cbn [emit set_wk wk with_papabyDstImage papabyDstImage].
    split.
    + intros b Hb0 Hne. apply at_index_set_index_ne; assumption.
    + rewrite set_index_same by lia. rewrite Hback, Hget. reflexivity.
  - symmetry in Hret. apply negb_false_iff in Hret. rewrite Hret.
    cbn [emit wk]. split; reflexivity.
Qed.

Lemma GWK_band_sizes (img : list (list Z)) (iSrcOffset iDstOffset iBand : Z)
    (st : State) :
  Forall2 (fun p p' => length p' = length p) img (papabyDstImage (wk st)) ->
  Forall2 (fun p p' => length p' = length p) img
          (papabyDstImage (wk (GWK_band iSrcOffset iDstOffset iBand st))).
Proof.
  intros Hs. unfold GWK_band.
  destruct (eResample (wk st)); try exact Hs.
  destruct (GWKGetPixelValue _ _ _ _ _ _) as [b [[d r] i]].
  destruct (d =? 0)%float; [exact Hs|].
  pose proof (GWKSetPixelValue_sizes (wk st) img iBand iDstOffset d r i Hs)
    as Hset.
  destruct (GWKSetPixelValue _ _ _ _ _ _) as [b' k']. exact Hset.
Qed.

Lemma copying_band (k : Kernel) (iSrcOffset iDstOffset iBand : Z)
    (st : State) :
  copying k st -> copying k (GWK_band iSrcOffset iDstOffset iBand st).
Proof.
  intros Hcp. eapply copying_pixel_step; [exact Hcp|apply pixel_step_band|].
  apply GWK_band_sizes. apply Hcp.
Qed.

Lemma copying_pixel (k : Kernel) (w : Z) (padfX padfY : list float)
    (iDstY iDstX : Z) (st : State) :
  copying k st -> copying k (GWK_pixel w padfX padfY iDstY iDstX st).
Proof.
  intros Hcp. eapply copying_pixel_step; [exact Hcp|apply pixel_step_pixel|].
  apply GWK_pixel_sizes. apply Hcp.
Qed.

(** The loop over the bands of a destination pixel, in a job of
    [copy_job]. *)
Lemma GWK_bands_masked (k : Kernel) (iSrcOffset iDstOffset : Z) (st : State) :
  copy_job k -> copying k st ->
  0 <= iDstOffset < nDstXSize k * nDstYSize k ->
  2 * iDstOffset + 1 <= INT_MAX ->
  let st' := for_upto (nBands k) (GWK_band iSrcOffset iDstOffset) st in
  forall iBand, 0 <= iBand < nBands k ->
    if (GWKGetPixelValue k iBand iSrcOffset 0 0 0).1
    then GWKGetPixelValue_band (eWorkingDataType k)
           (at_index [] (papabyDstImage (wk st')) iBand) iDstOffset
         = GWKGetPixelValue_band (eWorkingDataType k)
             (at_index [] (papabySrcImage k) iBand) iSrcOffset
    else at_index [] (papabyDstImage (wk st')) iBand
         = at_index [] (papabyDstImage (wk st)) iBand.
Proof.
  intros Hjob Hcp Hoff Hmax. cbv zeta.
  apply (for_upto_each (nBands k) (GWK_band iSrcOffset iDstOffset)
           (copying k)
           (fun b s => at_index [] (papabyDstImage (wk s)) b
                       = at_index [] (papabyDstImage (wk st)) b)
           (fun b s =>
              if (GWKGetPixelValue k b iSrcOffset 0 0 0).1
              then GWKGetPixelValue_band (eWorkingDataType k)
                     (at_index [] (papabyDstImage (wk s)) b) iDstOffset
                   = GWKGetPixelValue_band (eWorkingDataType k)
                       (at_index [] (papabySrcImage k) b) iSrcOffset
              else at_index [] (papabyDstImage (wk s)) b
                   = at_index [] (papabyDstImage (wk st)) b)).
  - exact Hcp.
  - reflexivity.
  - intros j s _ Hs. apply copying_band. exact Hs.
  - intros i j s Hi Hj Hne Hs HU.
    destruct (GWK_band_masked k iSrcOffset iDstOffset j s Hjob Hs Hj Hoff Hmax)
      as [Hother _].
    rewrite Hother by lia. exact HU.
  - intros i j s Hi Hj Hne Hs HD.
    destruct (GWK_band_masked k iSrcOffset iDstOffset j s Hjob Hs Hj Hoff Hmax)
      as [Hother _].
    rewrite Hother by lia. exact HD.
  - intros i s Hi Hs HU.
    destruct (GWK_band_masked k iSrcOffset iDstOffset i s Hjob Hs Hi Hoff Hmax)
      as [_ Hthis].
    destruct (GWKGetPixelValue k i iSrcOffset 0 0 0).1; [exact Hthis|].
    rewrite Hthis. exact HU.
Qed.

Lemma lower_test (x : float) (z nOff : Z) :
  trunc_double x = Some z -> 0 <= nOff <= INT_MAX ->
  (x <? double_of_Z nOff)%float = false -> nOff <= z.
Proof.
  intros Hz HO Hlow.
  destruct (trunc_double_Some x z Hz) as (a & Ha & Hq).
  assert (HO53 : - 2 ^ 53 < nOff < 2 ^ 53).
  { unfold INT_MAX in HO. change (2 ^ 31) with 2147483648 in HO.
    change (2 ^ 53) with 9007199254740992. lia. }
  rewrite (ltb_scaled _ _ _ _ Ha (double_of_Z_scaled nOff HO53)) in Hlow.
  apply Z.ltb_ge in Hlow.
  assert (HK : 0 < 2 ^ 1074) by (apply Z.pow_pos_nonneg; lia).
  subst z. apply Z.quot_le_lower_bound; lia.
Qed.

(** The choice that [GWKGeneralCase] makes for a destination pixel, in a
    nearest neighbour job. *)
Lemma GWK_pixel_choice (k : Kernel) (padfX padfY : list float)
    (iDstY iDstX : Z) (st : State) :
  config (wk st) = config k ->
  eResample k = GRA_NearestNeighbour ->
  src_fits k -> dst_fits k ->
  0 <= iDstX < nDstXSize k -> 0 <= iDstY < nDstYSize k ->
  (at_index 0 (pabSuccess st) iDstX <> 0 ->
   int_coordinate (at_index 0%float padfX iDstX) /\
   int_coordinate (at_index 0%float padfY iDstX)) ->
  GWK_pixel (GWK_nResWinSize k) padfX padfY iDstY iDstX st
  = match (if at_index 0 (pabSuccess st) iDstX =? 0 then None
           else GWK_source_pixel k (at_index 0%float padfX iDstX)
                                   (at_index 0%float padfY iDstX)) with
    | Some (iSrcX, iSrcY) =>
        if GWK_dst_taken k (iDstX + iDstY * nDstXSize k) then st
        else for_upto (nBands k)
               (GWK_band (iSrcX + iSrcY * nSrcXSize k)
                         (iDstX + iDstY * nDstXSize k)) st
    | None => st
    end.
Proof.
  intros Hc HR (HXO & HYO & HXS & HYS & Hprod) Hfit Hx Hy Hxy.
  assert (Hf :
    (nSrcXOff (wk st), nSrcYOff (wk st), nSrcXSize (wk st),
     nSrcYSize (wk st), nBands (wk st), nDstXSize (wk st),
     panDstValid (wk st))
    = (nSrcXOff k, nSrcYOff k, nSrcXSize k, nSrcYSize k, nBands k,
       nDstXSize k, panDstValid k)).
  { config_fields Hc. congruence. }
  injection Hf as HxO HyO HxS HyS HnB HnW HnV.
  rewrite (GWK_nResWinSize_nearest k HR).
  unfold GWK_pixel, GWK_dst_taken.
  rewrite HxO, HyO, HxS, HyS, HnB, HnW, HnV.
  destruct (Z.eqb_spec (at_index 0 (pabSuccess st) iDstX) 0) as [|Hs];
    [reflexivity|].
  destruct (Hxy Hs) as [(zx & Hzx & Hrx) (zy & Hzy & Hry)].
  set (x := at_index 0%float padfX iDstX) in *.
  set (y := at_index 0%float padfY iDstX) in *.
  unfold GWK_source_pixel. rewrite Hzx, Hzy.
  rewrite !Z.add_0_r, !Z.sub_0_r.
  unfold INT_MIN, INT_MAX, dst_fits in *.
  change (2 ^ 31) with 2147483648 in *. change (2 ^ 30) with 1073741824 in *.
  assert (Hsmall : forall z, -2147483648 <= z <= 2147483647 -> int32 z = z).
  { intros z Hz. apply int32_small. unfold INT_MIN, INT_MAX.
    change (2 ^ 31) with 2147483648. lia. }
  rewrite (Hsmall (nSrcXOff k)), (Hsmall (nSrcYOff k)),
          (Hsmall (nSrcXSize k)), (Hsmall (nSrcYSize k)) by lia.
  destruct (orb _ _) eqn:Hlow; [reflexivity|].
  apply orb_false_iff in Hlow as [Hlx Hly].
  assert (Hgx : nSrcXOff k <= zx).
  { apply (lower_test x); assumption. }
  assert (Hgy : nSrcYOff k <= zy).
  { apply (lower_test y); assumption. }
  rewrite (fptoint_int x zx Hzx), (fptoint_int y zy Hzy)
    by (unfold INT_MIN, INT_MAX; change (2 ^ 31) with 2147483648; lia).
  rewrite (Hsmall (zx - nSrcXOff k)), (Hsmall (zy - nSrcYOff k)) by lia.
  destruct (Z.geb_spec (zx - nSrcXOff k) (nSrcXSize k)) as [Hux|Hux];
    destruct (Z.ltb_spec (zx - nSrcXOff k) (nSrcXSize k)); try lia;
    cbn [orb andb]; try reflexivity.
  destruct (Z.geb_spec (zy - nSrcYOff k) (nSrcYSize k)) as [Huy|Huy];
    destruct (Z.ltb_spec (zy - nSrcYOff k) (nSrcYSize k)); try lia;
    cbn [orb andb]; try reflexivity.
  assert (Hm : 0 <= (zy - nSrcYOff k) * nSrcXSize k
               <= (nSrcYSize k - 1) * nSrcXSize k) by nia.
  assert (Hd : 0 <= iDstY * nDstXSize k <= (nDstYSize k - 1) * nDstXSize k)
    by nia.
  rewrite (Hsmall ((zy - nSrcYOff k) * nSrcXSize k)) by nia.
  rewrite (Hsmall (zx - nSrcXOff k + (zy - nSrcYOff k) * nSrcXSize k)) by nia.
  rewrite (Hsmall (iDstY * nDstXSize k)) by nia.
  rewrite (Hsmall (iDstX + iDstY * nDstXSize k)) by nia.
  reflexivity.
Qed.

Lemma image_keeps_weaken (lo hi lo' hi' : Z) (img img' : list (list Z)) :
  lo <= lo' -> hi' <= hi ->
  image_keeps lo hi img img' -> image_keeps lo' hi' img img'.
Proof.
  intros Hlo Hhi H. eapply Forall2_impl; [exact H|].
  intros p p' [Hl Hk]. split; [exact Hl|]. intros j Hj. apply Hk. lia.
Qed.

Lemma at_index_image_keeps (lo hi : Z) (img img' : list (list Z)) (b : Z) :
  image_keeps lo hi img img' ->
  buffer_keeps lo hi (at_index [] img b) (at_index [] img' b).
Proof.
  intros Himg. unfold at_index.
  destruct (b <? 0); [split; auto|].
  destruct (img !! Z.to_nat b) as [p|] eqn:Hp.
  - destruct (Forall2_lookup_l _ _ _ _ _ Himg Hp) as (p' & Hp' & Hag).
    rewrite Hp'. exact Hag.
  - assert (Hn : img' !! Z.to_nat b = None).
    { apply lookup_ge_None. apply lookup_ge_None in Hp.
      rewrite <- (Forall2_length _ _ _ Himg). exact Hp. }
    rewrite Hn. split; auto.
Qed.

Lemma copying_agrees (k : Kernel) (lo hi : Z) (st st' : State) :
  copying k st -> writes_within k lo hi st st' -> copying k st'.
Proof.
  intros [_ Hsz] [Hc Hag]. split; [exact Hc|].
  apply Forall2_same_length_lookup. split.
  - rewrite (Forall2_length _ _ _ Hsz). exact (Forall2_length _ _ _ Hag).
  - intros i p p' Hp Hp'.
    destruct (Forall2_lookup_l _ _ _ _ _ Hsz Hp) as (q & Hq & Hl).
    pose proof (Forall2_lookup_lr _ _ _ _ _ _ Hag Hq Hp') as [Hl' _].
    congruence.
Qed.

Lemma dst_offset_bounds (k : Kernel) (iDstX iDstY : Z) :
  dst_fits k -> 0 <= iDstX < nDstXSize k -> 0 <= iDstY < nDstYSize k ->
  0 <= iDstX + iDstY * nDstXSize k < nDstXSize k * nDstYSize k /\
  2 * (iDstX + iDstY * nDstXSize k) + 1 <= INT_MAX.
Proof.
  intros Hfit Hx Hy. unfold dst_fits, INT_MAX in *.
  change (2 ^ 31) with 2147483648. change (2 ^ 30) with 1073741824 in Hfit.
  assert (0 <= iDstY * nDstXSize k <= (nDstYSize k - 1) * nDstXSize k) by nia.
  nia.
Qed.

(** The pixels of a line, in a job of [copy_job]. *)
Lemma GWK_pixels_masked (k : Kernel) (pArg : T) (S : list Z)
    (iDstY : Z) (st : State) :
  copy_job k -> dst_fits k -> src_fits k -> transformer_in_range k ->
  0 <= iDstY < nDstYSize k ->
  copying k st ->
  pabSuccess st = GWK_line_success k pArg S iDstY ->
  image_keeps (iDstY * nDstXSize k * pixel_bytes (eWorkingDataType k))
              ((iDstY + 1) * nDstXSize k * pixel_bytes (eWorkingDataType k))
              (papabyDstImage k) (papabyDstImage (wk st)) ->
  let st' := for_upto (nDstXSize k)
               (GWK_pixel (GWK_nResWinSize k) (GWK_line_x k pArg S iDstY)
                          (GWK_line_y k pArg S iDstY) iDstY) st in
  forall iDstX iBand,
    0 <= iDstX < nDstXSize k -> 0 <= iBand < nBands k ->
    masked_nearest_pixel k (GWK_line_x k pArg S iDstY)
      (GWK_line_y k pArg S iDstY) (GWK_line_success k pArg S iDstY)
      iDstX iDstY iBand (papabyDstImage (wk st')).
Proof.
  intros Hjob Hfit Hsrc Htr Hy Hcp Hsucc Hun. cbv zeta.
  pose proof Hjob as (HR & HT & HW & _).
  pose proof (pixel_bytes_nonneg (eWorkingDataType k)) as Hes.
  set (X := GWK_line_x k pArg S iDstY). set (Y := GWK_line_y k pArg S iDstY).
  set (S' := GWK_line_success k pArg S iDstY) in *.
  intros iDstX iBand Hx Hb. revert iBand Hb. revert iDstX Hx.
  apply (for_upto_each (nDstXSize k)
           (GWK_pixel (GWK_nResWinSize k) X Y iDstY)
           (fun s => copying k s /\ pabSuccess s = S')
           (fun x s => image_keeps (pixel_lo k x iDstY) (pixel_hi k x iDstY)
                                   (papabyDstImage k) (papabyDstImage (wk s)))
           (fun x s => forall b, 0 <= b < nBands k ->
                         masked_nearest_pixel k X Y S' x iDstY b
                                              (papabyDstImage (wk s)))).
  - auto.
  - intros i Hi. eapply image_keeps_weaken; [| |exact Hun];
      unfold pixel_lo, pixel_hi; nia.
  - intros j s Hj [Hs Hss]. split; [apply copying_pixel; exact Hs|].
    destruct (pixel_step_pixel (GWK_nResWinSize k) X Y iDstY j s)
      as (_ & _ & -> & _). exact Hss.
  - intros i j s Hi Hj Hne [[Hc _] _] HU.
    pose proof (GWK_pixel_within k (GWK_nResWinSize k) X Y iDstY j s
                  Hc Hfit Hj Hy) as [_ Hag]. cbv zeta in Hag.
    eapply image_keeps_trans; [exact HU|].
    eapply image_agrees_keeps; [|exact Hag].
    unfold pixel_lo, pixel_hi. nia.
  - intros i j s Hi Hj Hne [[Hc _] _] HD b Hb.
    pose proof (GWK_pixel_within k (GWK_nResWinSize k) X Y iDstY j s
                  Hc Hfit Hj Hy) as [_ Hag]. cbv zeta in Hag.
    destruct (dst_offset_bounds k i iDstY Hfit Hi Hy) as [Ho Hm].
    eapply masked_nearest_pixel_local; [| | |exact Hag|apply HD; exact Hb];
      try lia.
    unfold pixel_lo, pixel_hi. nia.
  - intros i s Hi [Hs Hss] HU b Hb.
    destruct (dst_offset_bounds k i iDstY Hfit Hi Hy) as [Ho Hm].
    rewrite (GWK_pixel_choice k X Y iDstY i s); try assumption;
      try apply Hs.
    2:{ rewrite Hss. intros Hflag. apply (Htr pArg S iDstY i Hy Hi Hflag). }
    unfold masked_nearest_pixel. cbv zeta. rewrite Hss.
    pose proof (at_index_image_keeps _ _ _ _ b HU) as Hkept.
    destruct (if _ =? 0 then _ else _) as [[iSrcX iSrcY]|]; [|exact Hkept].
    destruct (GWK_dst_taken k _); [exact Hkept|].
    pose proof (GWK_bands_masked k (iSrcX + iSrcY * nSrcXSize k)
                  (i + iDstY * nDstXSize k) s Hjob Hs Ho Hm b Hb) as Hband.
    cbv zeta in Hband.
    destruct (GWKGetPixelValue k b _ 0 0 0).1; [exact Hband|].
    rewrite Hband. exact Hkept.
Qed.

(** The call of the transformer that a line logs. *)
Lemma GWK_transformed_config (k k' : Kernel) (pArg : T) (S : list Z)
    (iDstY : Z) :
  config k' = config k ->
  GWK_transformed k' pArg S iDstY = GWK_transformed k pArg S iDstY.
Proof.
  intros Hc.
  assert (Hf : (nDstXSize k', nDstXOff k', nDstYOff k', pfnTransformer k')
               = (nDstXSize k, nDstXOff k, nDstYOff k, pfnTransformer k)).
  { config_fields Hc. congruence. }
  injection Hf as HW HX HY HT.
  unfold GWK_transformed, GWK_padfX, GWK_padfY, GWK_padfZ.
  rewrite HW, HX, HY, HT. reflexivity.
Qed.

Lemma GWK_scanline_call (k : Kernel) (w iDstY : Z) (st : State) :
  config (wk st) = config k ->
  transformer_calls (trace (GWK_scanline w iDstY st))
  = transformer_calls (trace st) ++
    [(iDstY,
      tr_ok (GWK_transformed k (pTransformerArg (wk st)) (pabSuccess st)
                             iDstY),
      GWK_line_success k (pTransformerArg (wk st)) (pabSuccess st) iDstY)].
Proof.
  intros Hc.
  destruct (GWK_line_arrays_config k (wk st) (pTransformerArg (wk st))
              (pabSuccess st) iDstY Hc) as (_ & _ & <-).
  rewrite <- (GWK_transformed_config k (wk st) _ _ _ Hc).
  unfold GWK_scanline.
  assert (Ht1 : trace (GWK_transform iDstY st).2
                = trace st ++
                  [EvTransform iDstY
                     (tr_ok (GWK_transformed (wk st) (pTransformerArg (wk st))
                                             (pabSuccess st) iDstY))
                     (GWK_line_success (wk st) (pTransformerArg (wk st))
                                       (pabSuccess st) iDstY)])
    by reflexivity.
  destruct (GWK_transform iDstY st) as [[padfX padfY] st1]. simpl in Ht1.
  set (st2 := for_upto _ _ st1).
  assert (Hpx : pixel_step st1 st2).
  { apply pixel_step_for_upto. intros. apply pixel_step_pixel. }
  pose proof (pixel_step_views _ _ Hpx) as (_ & _ & _ & Hout).
  pose proof (GWK_report_effect iDstY st2) as (_ & _ & _ & Ht3).
  rewrite <- transformer_calls_outer, Ht3.
  unfold outer at 1. rewrite omap_app. fold (outer (trace st2)).
  rewrite Hout, Ht1. unfold outer at 1. rewrite omap_app.
  fold (outer (trace st)). unfold transformer_calls at 1.
  rewrite !omap_app. fold (transformer_calls (outer (trace st))).
  rewrite transformer_calls_outer.
  destruct (GWK_answer iDstY st2); simpl; rewrite ?app_nil_r; reflexivity.
Qed.

(** What a line hands on to the next: the context that the transformer
    left and the success array. *)
Lemma GWK_scanline_hands_on (k : Kernel) (w iDstY : Z) (st : State) :
  config (wk st) = config k ->
  let st' := GWK_scanline w iDstY st in
  pTransformerArg (wk st')
  = tr_arg (GWK_transformed k (pTransformerArg (wk st)) (pabSuccess st) iDstY)
  /\
  pabSuccess st'
  = GWK_line_success k (pTransformerArg (wk st)) (pabSuccess st) iDstY.
Proof.
  intros Hc. cbv zeta.
  destruct (GWK_line_arrays_config k (wk st) (pTransformerArg (wk st))
              (pabSuccess st) iDstY Hc) as (_ & _ & <-).
  rewrite <- (GWK_transformed_config k (wk st) _ _ _ Hc).
  unfold GWK_scanline.
  assert (H1 : pTransformerArg (wk (GWK_transform iDstY st).2)
               = tr_arg (GWK_transformed (wk st) (pTransformerArg (wk st))
                                         (pabSuccess st) iDstY) /\
               pabSuccess (GWK_transform iDstY st).2
               = GWK_line_success (wk st) (pTransformerArg (wk st))
                                  (pabSuccess st) iDstY)
    by (split; reflexivity).
  destruct (GWK_transform iDstY st) as [[padfX padfY] st1].
  simpl in H1. destruct H1 as [Ha1 Hs1].
  set (st2 := for_upto _ _ st1).
  assert (Hpx : pixel_step st1 st2).
  { apply pixel_step_for_upto. intros. apply pixel_step_pixel. }
  destruct Hpx as (Hk2 & _ & Hs2 & _).
  pose proof (GWK_report_effect iDstY st2) as (Hk3 & Hs3 & _).
  cbv zeta in Hk3, Hs3. rewrite Hk3, Hs3, Hs2. split; [|exact Hs1].
  cbn [pTransformerArg with_pProgress]. rewrite Hk2. exact Ha1.
Qed.

(** The lines of a window, in a job of [copy_job] that nobody cancels:
    the calls of the transformer that the log holds, and the pixels of
    every line, given the arrays that the call for the line left. *)
Lemma GWK_lines_masked (k : Kernel) (st : State) :
  copy_job k -> dst_fits k -> src_fits k -> transformer_in_range k ->
  never_cancels k ->
  copying k st -> eErr st = CE_None ->
  papabyDstImage (wk st) = papabyDstImage k ->
  (pTransformerArg (wk st), pabSuccess st) = GWK_handed_on k 0 ->
  let st' := for_upto (nDstYSize k) GWK_line st in
  eErr st' = CE_None /\
  transformer_calls (trace st')
  = transformer_calls (trace st) ++
    (GWK_run_call k <$> seqZ 0 (nDstYSize k)) /\
  forall iDstY, 0 <= iDstY < nDstYSize k ->
    forall iDstX iBand,
      0 <= iDstX < nDstXSize k -> 0 <= iBand < nBands k ->
      masked_nearest_pixel k (GWK_run_x k iDstY) (GWK_run_y k iDstY)
        (GWK_run_success k iDstY) iDstX iDstY iBand
        (papabyDstImage (wk st')).
Proof.
  intros Hjob Hfit Hsrc Htr Hnc Hcp He Himg Hfirst. cbv zeta.
  pose proof Hjob as (HR & HT & HW & _).
  pose proof (pixel_bytes_nonneg (eWorkingDataType k)) as Hes.
  set (line := nDstXSize k * pixel_bytes (eWorkingDataType k)).
  assert (Hline : 0 <= line) by (apply Z.mul_nonneg_nonneg; assumption).
  pose proof (for_upto_each_at (nDstYSize k) GWK_line
           (fun m s => copying k s /\ eErr s = CE_None /\
                       (pTransformerArg (wk s), pabSuccess s)
                       = GWK_handed_on k (Z.to_nat m) /\
                       transformer_calls (trace s)
                       = transformer_calls (trace st) ++
                         (GWK_run_call k <$> seqZ 0 m))
           (fun y s => image_keeps (y * line) ((y + 1) * line)
                                   (papabyDstImage k) (papabyDstImage (wk s)))
           (fun y s =>
              forall iDstX iBand,
                0 <= iDstX < nDstXSize k -> 0 <= iBand < nBands k ->
                masked_nearest_pixel k (GWK_run_x k y) (GWK_run_y k y)
                  (GWK_run_success k y) iDstX y iBand
                  (papabyDstImage (wk s))) st) as Hloop.
  destruct Hloop as [Hend Hall].
  - split; [exact Hcp|]. split; [exact He|]. split; [exact Hfirst|].
    rewrite seqZ_nil by lia. rewrite app_nil_r. reflexivity.
  - intros i Hi. rewrite Himg. apply image_keeps_refl.
  - intros j s Hj (Hs & Hes' & Heq & Hcalls). pose proof Hs as [Hc _].
    split; [|split; [|split]].
    + eapply copying_agrees; [exact Hs|].
      apply (GWK_line_within k j s Hc Hfit Hj).
    + rewrite (GWK_line_running j s Hes').
      pose proof (GWK_scanline_effect (GWK_nResWinSize (wk s)) j s)
        as (_ & He2 & _). cbv zeta in He2.
      rewrite (never_cancels_config k (wk s) Hc Hnc _ _ _
               : GWK_answer j s = true) in He2. congruence.
    + rewrite (GWK_line_running j s Hes').
      destruct (GWK_scanline_hands_on k (GWK_nResWinSize (wk s)) j s Hc)
        as [-> ->].
      rewrite Z2Nat.inj_add by lia. rewrite Nat.add_1_r.
      cbn [GWK_handed_on]. rewrite <- Heq, Z2Nat.id by lia. reflexivity.
    + rewrite (GWK_line_running j s Hes').
      rewrite (GWK_scanline_call k _ j s Hc), Hcalls.
      rewrite seqZ_app by lia. rewrite fmap_app, <- app_assoc.
      rewrite (seqZ_cons (0 + j) 1) by lia.
      rewrite (seqZ_nil _ (Z.pred 1)) by lia.
      rewrite Z.add_0_l. cbn [fmap list_fmap].
      unfold GWK_run_call, GWK_run_transformed, GWK_run_success.
      rewrite <- Heq. reflexivity.
  - intros i j s Hi Hj Hne ([Hc _] & _) HU.
    pose proof (GWK_line_within k j s Hc Hfit Hj) as [_ Hag].
    eapply image_keeps_trans; [exact HU|].
    eapply image_agrees_keeps; [|exact Hag].
    unfold line. rewrite !Z.mul_assoc. nia.
  - intros i j s Hi Hj Hne ([Hc _] & _) HD.
    pose proof (GWK_line_within k j s Hc Hfit Hj) as [_ Hag].
    intros iDstX iBand Hx Hb.
    destruct (dst_offset_bounds k iDstX i Hfit Hx Hi) as [Ho Hm].
    eapply masked_nearest_pixel_local; [| | |exact Hag|apply HD; assumption];
      try lia.
    unfold pixel_lo, pixel_hi. nia.
  - intros i s Hi (Hs & Hes' & Heq & _) HU. pose proof Hs as [Hc Hsz].
    unfold GWK_run_x, GWK_run_y, GWK_run_success. rewrite <- Heq.
    cbn [fst snd].
    rewrite (GWK_line_running i s Hes').
    assert (Hw : GWK_nResWinSize (wk s) = GWK_nResWinSize k).
    { assert (HeR : eResample (wk s) = eResample k)
        by (config_fields Hc; congruence).
      unfold GWK_nResWinSize. rewrite HeR. reflexivity. }
    assert (HnW : nDstXSize (wk s) = nDstXSize k)
      by (config_fields Hc; congruence).
    rewrite Hw. unfold GWK_scanline. rewrite HnW.
    pose proof (GWK_transform_arrays i s) as [Harr Hsucc].
    pose proof (GWK_transform_effect i s) as (Hk1 & _ & _ & bT & Ht1).
    cbv zeta in *.
    destruct (GWK_line_arrays_config k (wk s) (pTransformerArg (wk s))
                (pabSuccess s) i Hc) as (HX & HY & HS).
    rewrite HX, HY in Harr. rewrite HS in Hsucc.
    destruct (GWK_transform i s) as [[padfX padfY] st1].
    simpl in Harr, Hsucc, Hk1, Ht1. injection Harr as -> ->.
    assert (Hcp1 : copying k st1).
    { split; rewrite Hk1; [exact Hc|exact Hsz]. }
    assert (Hun1 : image_keeps (i * line) ((i + 1) * line)
                     (papabyDstImage k) (papabyDstImage (wk st1))).
    { rewrite Hk1. exact HU. }
    intros iDstX iBand Hx Hb.
    pose proof (GWK_pixels_masked k (pTransformerArg (wk s)) (pabSuccess s)
                  i st1 Hjob Hfit Hsrc Htr Hi Hcp1 Hsucc) as Hpix.
    unfold line in Hun1. rewrite !Z.mul_assoc in Hun1.
    specialize (Hpix Hun1 iDstX iBand Hx Hb). cbv zeta in Hpix.
    match goal with
    | |- context [GWK_report i ?s2] =>
        pose proof (GWK_report_effect i s2) as (Hk3 & _)
    end.
    cbv zeta in Hk3. rewrite Hk3. exact Hpix.
  - destruct (Z.le_gt_cases 0 (nDstYSize k)) as [Hn|Hn].
    + destruct (Hend Hn) as (_ & He' & _ & Hcalls).
      split; [exact He'|]. split; [exact Hcalls|]. exact Hall.
    + rewrite for_upto_nonpos by lia. split; [exact He|].
      split; [rewrite seqZ_nil by lia; rewrite app_nil_r; reflexivity|].
      intros iDstY Hy. lia.
Qed.

(** A whole warp, in a job of [copy_job] that nobody cancels. *)
Lemma GWK_warp_masked (k : Kernel) :
  copy_job k -> dst_fits k -> src_fits k -> transformer_in_range k ->
  never_cancels k ->
  let res := PerformWarp k in
  eErr res = CE_None /\
  transformer_calls (trace res)
  = GWK_run_call k <$> seqZ 0 (nDstYSize k) /\
  forall iDstY iDstX iBand,
    0 <= iDstY < nDstYSize k ->
    0 <= iDstX < nDstXSize k -> 0 <= iBand < nBands k ->
    masked_nearest_pixel k (GWK_run_x k iDstY) (GWK_run_y k iDstY)
      (GWK_run_success k iDstY) iDstX iDstY iBand (papabyDstImage (wk res)).
Proof.
  intros Hjob Hfit Hsrc Htr Hnc. cbv zeta.
  rewrite PerformWarp_validated.
  assert (Hb0 : GWK_answer stack_garbage (GWK_init k) = true) by apply Hnc.
  rewrite (GWKGeneralCase_entered k Hb0).
  destruct (GWK_entry_facts k Hb0) as (Hk0 & He0 & Hs0 & _).
  destruct (GWK_exit_facts (GWK_lines (GWK_entry k))) as (Hk1 & He1 & _).
  cbv zeta in *. rewrite Hk1, He1, GWK_exit_calls. unfold GWK_lines.
  assert (HH : nDstYSize (wk (GWK_entry k)) = nDstYSize k)
    by (rewrite Hk0; reflexivity).
  rewrite HH.
  destruct (GWK_lines_masked k (GWK_entry k) Hjob Hfit Hsrc Htr Hnc)
    as (He & Hcalls & Hpix); try assumption.
  - split; rewrite Hk0; [reflexivity|apply same_sizes_refl].
  - rewrite Hk0. reflexivity.
  - rewrite Hk0, Hs0. reflexivity.
  - split; [exact He|]. split.
    + rewrite Hcalls, GWK_entry_calls. reflexivity.
    + intros iDstY iDstX iBand Hy Hx Hb.
      exact (Hpix iDstY Hy iDstX iBand Hx Hb).
Qed.

End Nearest.

(** X10.  What a nearest neighbour warp computes.  Take a job for the
    nearest neighbour resampling of one of the types Byte, UInt16, Int16,
    UInt32, CInt16, CInt32, Float64 and CFloat64, without validity or
    density planes, with windows that an [int] can index and band buffers
    that hold them, a transformer that leaves coordinates that an [int]
    can hold, and a progress callback that never cancels.  Then the warp
    returns [CE_None]; the calls of the transformer in its log are, line
    after line, the calls [GWK_run_call], each with the context and the
    success array that the call before it left; and the arrays that the
    call for a line leaves decide all the pixels of the line: in every
    band, the pixel holds the value of the source pixel in which its
    transformed centre lies when the transformer flagged the point and
    the point lies in the source window, and otherwise the bytes from
    before the warp. *)
Theorem PerformWarp_nearest_neighbour :
  forall (T P : Type) (ind : Indeterminate) (k : GDALWarpKernel T P),
    plain_copy_job k -> dst_fits k -> src_fits k ->
    transformer_in_range k -> never_cancels k ->
    let res := PerformWarp k in
    eErr res = CE_None /\
    transformer_calls (trace res)
    = GWK_run_call k <$> seqZ 0 (nDstYSize k) /\
    forall iDstY iDstX iBand,
      0 <= iDstY < nDstYSize k ->
      0 <= iDstX < nDstXSize k -> 0 <= iBand < nBands k ->
      nearest_pixel k (GWK_run_x k iDstY) (GWK_run_y k iDstY)
                    (GWK_run_success k iDstY) iDstX iDstY iBand
                    (papabyDstImage (wk res)).
Proof.
  intros T P ind k Hjob Hfit Hsrc Htr Hnc.
  destruct (GWK_warp_masked k (plain_copy_job_copy_job k Hjob)
              Hfit Hsrc Htr Hnc) as (He & Hcalls & Hpix).
  cbv zeta. split; [exact He|]. split; [exact Hcalls|].
  intros iDstY iDstX iBand Hy Hx Hb.
  apply masked_nearest_pixel_plain; [exact Hjob|].
  apply Hpix; assumption.
Qed.

(** X16.  What a nearest neighbour warp computes when there are validity
    and density planes.  Take a job for the nearest neighbour resampling
    of one of the types Byte, UInt16, Int16, UInt32, CInt16, CInt32,
    Float64 and CFloat64 that may have a unified source validity plane,
    source validity planes per band, a source density plane and a
    destination validity plane, with windows that an [int] can index and
    band buffers that hold them, a transformer that leaves coordinates
    that an [int] can hold, and a progress callback that never cancels.
    Then the warp
    returns [CE_None]; the calls of the transformer in its log are, line
    after line, the calls [GWK_run_call]; and the arrays that the call
    for a line leaves decide all the pixels of the line: in every band, a
    pixel whose transformed centre was flagged and lies in the source
    window holds the value of the source pixel there, whatever its
    density, when the test on the destination validity plane lets the
    pixel through and [GWKGetPixelValue] returns TRUE for the source
    pixel; every other pixel holds the bytes from before the warp. *)
Theorem PerformWarp_nearest_neighbour_with_masks :
  forall (T P : Type) (ind : Indeterminate) (k : GDALWarpKernel T P),
    copy_job k -> dst_fits k -> src_fits k ->
    transformer_in_range k -> never_cancels k ->
    let res := PerformWarp k in
    eErr res = CE_None /\
    transformer_calls (trace res)
    = GWK_run_call k <$> seqZ 0 (nDstYSize k) /\
    forall iDstY iDstX iBand,
      0 <= iDstY < nDstYSize k ->
      0 <= iDstX < nDstXSize k -> 0 <= iBand < nBands k ->
      masked_nearest_pixel k (GWK_run_x k iDstY) (GWK_run_y k iDstY)
        (GWK_run_success k iDstY) iDstX iDstY iBand (papabyDstImage (wk res)).
Proof.
  intros T P ind k. exact (GWK_warp_masked k).
Qed.

Lemma PerformWarp_nearest_neighbour_witness :
  let k := Scenario.S1 in
  let res := PerformWarp (ind := Scenario.x86_64) k in
  (plain_copy_job k /\ dst_fits k /\ src_fits k /\
   transformer_in_range k /\ never_cancels k) /\
  (GWK_run_call (ind := Scenario.x86_64) k 2 = (2, true, [1; 1; 1; 1]) /\
   papabyDstImage (wk res) = [seqZ 0 16]) /\
  (eErr res = CE_None /\
   transformer_calls (trace res)
   = GWK_run_call (ind := Scenario.x86_64) k <$> seqZ 0 (nDstYSize k) /\
   forall iDstY iDstX iBand,
     0 <= iDstY < nDstYSize k ->
     0 <= iDstX < nDstXSize k -> 0 <= iBand < nBands k ->
     nearest_pixel k (GWK_run_x (ind := Scenario.x86_64) k iDstY)
                   (GWK_run_y (ind := Scenario.x86_64) k iDstY)
                   (GWK_run_success (ind := Scenario.x86_64) k iDstY)
                   iDstX iDstY iBand (papabyDstImage (wk res))).
Proof.
  assert (Hjob : plain_copy_job Scenario.S1).
  { unfold plain_copy_job, GWK_exact_types. simpl.
    repeat split; try lia.
    - left.
    - repeat constructor. simpl. lia.
    - constructor; [|constructor]. unfold is_bytes. apply Forall_forall.
      intros b Hb. apply elem_of_seqZ in Hb. lia. }
  assert (Hfit : dst_fits Scenario.S1) by (unfold dst_fits; simpl; lia).
  assert (Hsrc : src_fits Scenario.S1).
  { unfold src_fits, INT_MAX. simpl. lia. }
  assert (Htr : transformer_in_range Scenario.S1).
  { intros pArg S iDstY iDstX Hy Hx _.
    change (nDstYSize Scenario.S1) with 4 in Hy.
    change (nDstXSize Scenario.S1) with 4 in Hx.
    assert (Hy' : iDstY = 0 \/ iDstY = 1 \/ iDstY = 2 \/ iDstY = 3) by lia.
    assert (Hx' : iDstX = 0 \/ iDstX = 1 \/ iDstX = 2 \/ iDstX = 3) by lia.
    destruct Hy' as [->|[->|[->| ->]]]; destruct Hx' as [->|[->|[->| ->]]];
      split; eexists;
      (split; [vm_compute; reflexivity|vm_compute; split; discriminate]). }
  assert (Hnc : never_cancels Scenario.S1) by (intros f s p; reflexivity).
  split; [auto|].
  split; [split; vm_compute; reflexivity|].
  exact (PerformWarp_nearest_neighbour unit unit Scenario.x86_64 Scenario.S1
           Hjob Hfit Hsrc Htr Hnc).
Defined.

Lemma PerformWarp_nearest_neighbour_with_masks_witness :
  let k := S1_half_dense in
  let res := PerformWarp (ind := Scenario.x86_64) k in
  (copy_job k /\ dst_fits k /\ src_fits k /\
   transformer_in_range k /\ never_cancels k) /\
  (GWK_run_call (ind := Scenario.x86_64) k 2 = (2, true, [1; 1; 1; 1]) /\
   (GWKGetPixelValue k 0 4 0 0 0).1 = true /\
   (GWKGetPixelValue k 0 5 0 0 0).1 = false /\
   papabyDstImage (wk res)
   = [[0; 0; 2; 0; 4; 0; 6; 0; 8; 0; 10; 0; 12; 0; 14; 0]]) /\
  (eErr res = CE_None /\
   transformer_calls (trace res)
   = GWK_run_call (ind := Scenario.x86_64) k <$> seqZ 0 (nDstYSize k) /\
   forall iDstY iDstX iBand,
     0 <= iDstY < nDstYSize k ->
     0 <= iDstX < nDstXSize k -> 0 <= iBand < nBands k ->
     masked_nearest_pixel k (GWK_run_x (ind := Scenario.x86_64) k iDstY)
       (GWK_run_y (ind := Scenario.x86_64) k iDstY)
       (GWK_run_success (ind := Scenario.x86_64) k iDstY)
       iDstX iDstY iBand (papabyDstImage (wk res))).
Proof.
  assert (Hjob : copy_job S1_half_dense).
  { unfold copy_job, GWK_exact_types. simpl.
    repeat split; try lia.
    - left.
    - repeat constructor. simpl. lia.
    - constructor; [|constructor]. unfold is_bytes. apply Forall_forall.
      intros b Hb. apply elem_of_seqZ in Hb. lia. }
  assert (Hfit : dst_fits S1_half_dense) by (unfold dst_fits; simpl; lia).
  assert (Hsrc : src_fits S1_half_dense).
  { unfold src_fits, INT_MAX. simpl. lia. }
  assert (Htr : transformer_in_range S1_half_dense).
  { intros pArg S iDstY iDstX Hy Hx _.
    change (nDstYSize S1_half_dense) with 4 in Hy.
    change (nDstXSize S1_half_dense) with 4 in Hx.
    assert (Hy' : iDstY = 0 \/ iDstY = 1 \/ iDstY = 2 \/ iDstY = 3) by lia.
    assert (Hx' : iDstX = 0 \/ iDstX = 1 \/ iDstX = 2 \/ iDstX = 3) by lia.
    destruct Hy' as [->|[->|[->| ->]]]; destruct Hx' as [->|[->|[->| ->]]];
      split; eexists;
      (split; [vm_compute; reflexivity|vm_compute; split; discriminate]). }
  assert (Hnc : never_cancels S1_half_dense) by (intros f s p; reflexivity).
  split; [auto|].
  split; [repeat split; vm_compute; reflexivity|].
  exact (PerformWarp_nearest_neighbour_with_masks unit unit Scenario.x86_64
           S1_half_dense Hjob Hfit Hsrc Htr Hnc).
Defined.

(* ================================================================== *)
(** * Stores and what is read back                                  *)
(* ================================================================== *)

Section ReadBack.
Context {ind : Indeterminate}.

Lemma saturated_range (lo hi : Z) (x : float) :
  lo <= hi -> lo <= saturated lo hi x <= hi.
Proof.
  intros Hle. unfold saturated.
  destruct (trunc_double x); [lia|]. destruct (x <? 0)%float; lia.
Qed.

(** What is read back after a store of one of the integer types that
    have no imaginary part. *)
Lemma GWK_store_read_real (eType : GDALDataType) (lo hi : Z) (p : list Z)
    (iOffset : Z) (dfReal dfImag : float) :
  eType ∈ [GDT_Byte; GDT_UInt16; GDT_Int16; GDT_UInt32] ->
  GWK_integer_range eType = Some (lo, hi) ->
  PrimFloat.is_nan dfReal = false ->
  0 <= iOffset ->
  pixel_bytes eType * (iOffset + 1) <= Z.of_nat (length p) ->
  exists p',
    GWKSetPixelValue_band eType p iOffset dfReal dfImag = Some p' /\
    GWKGetPixelValue_band eType p' iOffset
    = Some (double_of_Z (saturated lo hi dfReal), 0%float).
Proof.
  intros HT Hrange Hnan H0 Hlen.
  destruct (GWKSetPixelValue_band_integer p iOffset dfReal dfImag Hnan)
    as (HB & HI & HU & HW).
  repeat (apply elem_of_cons in HT as [->|HT]); [| | | |inversion HT];
    cbn [GWK_integer_range pixel_bytes] in *; injection Hrange as <- <-;
    eexists; (split; [eassumption|]); cbn [GWKGetPixelValue_band].
  - pose proof (saturated_range 0 255 dfReal ltac:(lia)).
    rewrite load_uint_store_int; [reflexivity|lia|lia|].
    change (2 ^ (8 * Z.of_nat 1)) with 256. lia.
  - pose proof (saturated_range 0 65535 dfReal ltac:(lia)).
    rewrite load_uint_store_int; [reflexivity|lia|lia|].
    change (2 ^ (8 * Z.of_nat 2)) with 65536. lia.
  - pose proof (saturated_range (-32768) 32767 dfReal ltac:(lia)).
    rewrite load_int_store_int; [reflexivity|lia|lia|lia|].
    change (2 ^ (8 * Z.of_nat 2 - 1)) with 32768. lia.
  - pose proof (saturated_range 0 4294967295 dfReal ltac:(lia)).
    rewrite load_uint_store_int; [reflexivity|lia|lia|].
    change (2 ^ (8 * Z.of_nat 4)) with 4294967296. lia.
Qed.

(** The same for the two complex integer types. *)
Lemma GWK_store_read_complex (eType : GDALDataType) (lo hi : Z) (p : list Z)
    (iOffset : Z) (dfReal dfImag : float) :
  eType ∈ [GDT_CInt16; GDT_CInt32] ->
  GWK_integer_range eType = Some (lo, hi) ->
  PrimFloat.is_nan dfReal = false -> PrimFloat.is_nan dfImag = false ->
  0 <= iOffset -> 2 * iOffset + 1 <= INT_MAX ->
  pixel_bytes eType * (iOffset + 1) <= Z.of_nat (length p) ->
  exists p',
    GWKSetPixelValue_band eType p iOffset dfReal dfImag = Some p' /\
    GWKGetPixelValue_band eType p' iOffset
    = Some (double_of_Z (saturated lo hi dfReal),
            double_of_Z (saturated lo hi dfImag)).
Proof.
  intros HT Hrange Hre Him H0 Hmax Hlen.
  destruct (GWKSetPixelValue_band_complex p iOffset dfReal dfImag
              Hre Him H0 Hmax) as (H16 & H32).
  destruct (complex_offsets iOffset H0 Hmax) as [HRe HIm].
  repeat (apply elem_of_cons in HT as [->|HT]); [| |inversion HT];
    cbn [GWK_integer_range pixel_bytes] in *; injection Hrange as <- <-;
    eexists; (split; [eassumption|]); cbn [GWKGetPixelValue_band];
    rewrite HRe in HIm |- *; rewrite HIm.
  - pose proof (saturated_range (-32768) 32767 dfReal ltac:(lia)).
    pose proof (saturated_range (-32768) 32767 dfImag ltac:(lia)).
    rewrite (load_int_agrees 2 _ _ _ _ (2 * iOffset)
               (store_int_agrees 2 _ (2 * iOffset + 1) _)) by lia.
    rewrite !load_int_store_int; try reflexivity; try lia;
      rewrite ?store_int_length; try lia;
      change (2 ^ (8 * Z.of_nat 2 - 1)) with 32768; lia.
  - pose proof (saturated_range (-2147483648) 2147483647 dfReal ltac:(lia)).
    pose proof (saturated_range (-2147483648) 2147483647 dfImag ltac:(lia)).
    rewrite (load_int_agrees 4 _ _ _ _ (2 * iOffset)
               (store_int_agrees 4 _ (2 * iOffset + 1) _)) by lia.
    rewrite !load_int_store_int; try reflexivity; try lia;
      rewrite ?store_int_length; try lia;
      change (2 ^ (8 * Z.of_nat 4 - 1)) with 2147483648; lia.
Qed.

End ReadBack.

(** X11.  The stores of the types Byte, UInt16, Int16 and UInt32
    saturate.  When [GWKSetPixelValue] has stored a double that is not a
    NaN in a pixel of one of these types, [GWKGetPixelValue] reads back
    the integral part of the double, limited to the range of the type (an
    infinity is read back as the limit on its side); nothing that C++
    leaves undefined is evaluated, and the imaginary part is not looked
    at. *)
Theorem GWKSetPixelValue_saturates :
  forall (ind : Indeterminate) (eType : GDALDataType) (lo hi : Z)
         (pabyDst : list Z) (iDstOffset : Z) (dfReal dfImag : float),
    eType ∈ [GDT_Byte; GDT_UInt16; GDT_Int16; GDT_UInt32] ->
    GWK_integer_range eType = Some (lo, hi) ->
    PrimFloat.is_nan dfReal = false ->
    0 <= iDstOffset ->
    pixel_bytes eType * (iDstOffset + 1) <= Z.of_nat (length pabyDst) ->
    exists pabyDst',
      GWKSetPixelValue_band eType pabyDst iDstOffset dfReal dfImag
      = Some pabyDst' /\
      GWKGetPixelValue_band eType pabyDst' iDstOffset
      = Some (double_of_Z (saturated lo hi dfReal), 0%float).
Proof.
  intros ind eType lo hi pabyDst iDstOffset dfReal dfImag.
  apply GWK_store_read_real.
Qed.

Lemma GWKSetPixelValue_saturates_witness :
  let x := (-40000.75)%float in
  let p := [9; 9; 9; 9] in
  (GDT_Int16 ∈ [GDT_Byte; GDT_UInt16; GDT_Int16; GDT_UInt32] /\
   GWK_integer_range GDT_Int16 = Some (-32768, 32767) /\
   PrimFloat.is_nan x = false /\
   0 <= 1 /\ pixel_bytes GDT_Int16 * (1 + 1) <= Z.of_nat (length p) /\
   saturated (-32768) 32767 x = -32768 /\
   saturated 0 255 300.5%float = 255 /\ saturated 0 255 7.75%float = 7 /\
   saturated (-32768) 32767 (-7.75)%float = -7 /\
   saturated 0 65535 infinity = 65535 /\
   saturated 0 65535 neg_infinity = 0) /\
  (exists p',
      GWKSetPixelValue_band (ind := Scenario.x86_64) GDT_Int16 p 1 x 0
      = Some p' /\
      GWKGetPixelValue_band GDT_Int16 p' 1
      = Some (double_of_Z (saturated (-32768) 32767 x), 0%float)).
Proof.
  assert (HT : GDT_Int16 ∈ [GDT_Byte; GDT_UInt16; GDT_Int16; GDT_UInt32]).
  { right. right. left. }
  split.
  - split; [exact HT|].
    repeat split; try (vm_compute; reflexivity); try discriminate.
  - apply (GWKSetPixelValue_saturates Scenario.x86_64 GDT_Int16
             (-32768) 32767 [9; 9; 9; 9] 1 (-40000.75)%float 0%float HT);
      try reflexivity; try lia.
Defined.

(** X12.  The stores of the complex integer types CInt16 and CInt32
    saturate both parts in the same way: after a store of two doubles
    that are not NaN, the integral parts of both, limited to the range of
    the type, are read back. *)
Theorem GWKSetPixelValue_saturates_complex :
  forall (ind : Indeterminate) (eType : GDALDataType) (lo hi : Z)
         (pabyDst : list Z) (iDstOffset : Z) (dfReal dfImag : float),
    eType ∈ [GDT_CInt16; GDT_CInt32] ->
    GWK_integer_range eType = Some (lo, hi) ->
    PrimFloat.is_nan dfReal = false -> PrimFloat.is_nan dfImag = false ->
    0 <= iDstOffset -> 2 * iDstOffset + 1 <= INT_MAX ->
    pixel_bytes eType * (iDstOffset + 1) <= Z.of_nat (length pabyDst) ->
    exists pabyDst',
      GWKSetPixelValue_band eType pabyDst iDstOffset dfReal dfImag
      = Some pabyDst' /\
      GWKGetPixelValue_band eType pabyDst' iDstOffset
      = Some (double_of_Z (saturated lo hi dfReal),
              double_of_Z (saturated lo hi dfImag)).
Proof.
  intros ind eType lo hi pabyDst iDstOffset dfReal dfImag.
  apply GWK_store_read_complex.
Qed.

Lemma GWKSetPixelValue_saturates_complex_witness :
  let p := replicate 16 0 in
  (GDT_CInt32 ∈ [GDT_CInt16; GDT_CInt32] /\
   GWK_integer_range GDT_CInt32 = Some (-2147483648, 2147483647) /\
   PrimFloat.is_nan (-3000000000)%float = false /\
   PrimFloat.is_nan 12.5%float = false /\
   0 <= 1 /\ 2 * 1 + 1 <= INT_MAX /\
   pixel_bytes GDT_CInt32 * (1 + 1) <= Z.of_nat (length p) /\
   GWKSetPixelValue_band (ind := Scenario.x86_64) GDT_CInt32 p 1
                         (-3000000000)%float 12.5%float
   = Some [0; 0; 0; 0; 0; 0; 0; 0; 0; 0; 0; 128; 12; 0; 0; 0]) /\
  (exists p',
      GWKSetPixelValue_band (ind := Scenario.x86_64) GDT_CInt32 p 1
                            (-3000000000)%float 12.5%float = Some p' /\
      GWKGetPixelValue_band GDT_CInt32 p' 1
      = Some (double_of_Z
                (saturated (-2147483648) 2147483647 (-3000000000)%float),
              double_of_Z (saturated (-2147483648) 2147483647 12.5%float))).
Proof.
  assert (HT : GDT_CInt32 ∈ [GDT_CInt16; GDT_CInt32]).
  { right. left. }
  split.
  - split; [exact HT|].
    repeat split; try (vm_compute; reflexivity); try discriminate.
  - apply (GWKSetPixelValue_saturates_complex Scenario.x86_64 GDT_CInt32
             (-2147483648) 2147483647 (replicate 16 0) 1
             (-3000000000)%float 12.5%float HT);
      try reflexivity; try lia.
    unfold INT_MAX. simpl. lia.
Defined.

(** X13.  The stores of the types Float64 and CFloat64 keep every
    double: after [GWKSetPixelValue] has stored a pixel of one of these
    types, [GWKGetPixelValue] reads back the doubles that were stored,
    the infinities and NaN among them (for Float64, the imaginary part
    is read back as zero). *)
Theorem GWKSetPixelValue_keeps_doubles :
  forall (ind : Indeterminate) (pabyDst : list Z) (iDstOffset : Z)
         (dfReal dfImag : float),
    0 <= iDstOffset -> 2 * iDstOffset + 1 <= INT_MAX ->
    (8 * (iDstOffset + 1) <= Z.of_nat (length pabyDst) ->
     exists pabyDst',
       GWKSetPixelValue_band GDT_Float64 pabyDst iDstOffset dfReal dfImag
       = Some pabyDst' /\
       GWKGetPixelValue_band GDT_Float64 pabyDst' iDstOffset
       = Some (dfReal, 0%float)) /\
    (16 * (iDstOffset + 1) <= Z.of_nat (length pabyDst) ->
     exists pabyDst',
       GWKSetPixelValue_band GDT_CFloat64 pabyDst iDstOffset dfReal dfImag
       = Some pabyDst' /\
       GWKGetPixelValue_band GDT_CFloat64 pabyDst' iDstOffset
       = Some (dfReal, dfImag)).
Proof.
  intros ind pabyDst iDstOffset dfReal dfImag.
  apply GWK_store_read_double.
Qed.

Lemma GWKSetPixelValue_keeps_doubles_witness :
  let p := replicate 32 7 in
  (0 <= 1 /\ 2 * 1 + 1 <= INT_MAX /\
   8 * (1 + 1) <= Z.of_nat (length p) /\
   16 * (1 + 1) <= Z.of_nat (length p) /\
   GWKSetPixelValue_band (ind := Scenario.x86_64) GDT_Float64 p 1
                         (-0.5)%float nan
   = Some (replicate 8 7 ++ [0; 0; 0; 0; 0; 0; 224; 191] ++ replicate 16 7))
  /\
  ((8 * (1 + 1) <= Z.of_nat (length p) ->
    exists p',
      GWKSetPixelValue_band (ind := Scenario.x86_64) GDT_Float64 p 1
                            (-0.5)%float nan = Some p' /\
      GWKGetPixelValue_band GDT_Float64 p' 1 = Some ((-0.5)%float, 0%float))
   /\
   (16 * (1 + 1) <= Z.of_nat (length p) ->
    exists p',
      GWKSetPixelValue_band (ind := Scenario.x86_64) GDT_CFloat64 p 1
                            (-0.5)%float nan = Some p' /\
      GWKGetPixelValue_band GDT_CFloat64 p' 1 = Some ((-0.5)%float, nan))).
Proof.
  split.
  - repeat split; try (vm_compute; reflexivity); try discriminate.
  - apply (GWKSetPixelValue_keeps_doubles Scenario.x86_64).
    + lia.
    + unfold INT_MAX. simpl. lia.
Defined.

(** X14.  A pixel of one of the types Byte, UInt16, Int16, UInt32,
    CInt16, CInt32, Float64 and CFloat64 that is read from a source band
    with [GWKGetPixelValue] and stored in a destination band with
    [GWKSetPixelValue] is read back from there with the value that was
    read from the source, and the store changes no byte outside the
    destination pixel. *)
Theorem GWK_pixel_copy_is_exact :
  forall (ind : Indeterminate) (eType : GDALDataType) (src dst : list Z)
         (iSrcOffset iDstOffset : Z),
    eType ∈ GWK_exact_types ->
    is_bytes src ->
    0 <= iDstOffset -> 2 * iDstOffset + 1 <= INT_MAX ->
    pixel_bytes eType * (iDstOffset + 1) <= Z.of_nat (length dst) ->
    exists dfReal dfImag dst',
      GWKGetPixelValue_band eType src iSrcOffset = Some (dfReal, dfImag) /\
      GWKSetPixelValue_band eType dst iDstOffset dfReal dfImag = Some dst' /\
      GWKGetPixelValue_band eType dst' iDstOffset = Some (dfReal, dfImag) /\
      buffer_agrees (iDstOffset * pixel_bytes eType)
                    ((iDstOffset + 1) * pixel_bytes eType) dst dst'.
Proof.
  intros ind eType src dst iSrcOffset iDstOffset HT Hsrc H0 Hmax Hlen.
  destruct (GWK_copy eType src dst iSrcOffset iDstOffset HT Hsrc H0 Hmax Hlen)
    as (re & im & dst' & Hget & Hset & Hback).
  exists re, im, dst'. repeat split; try assumption;
    apply (GWKSetPixelValue_band_agrees eType dst dst' iDstOffset re im
             H0 Hmax Hset).
Qed.

Lemma GWK_pixel_copy_is_exact_witness :
  let src := [52; 18; 255; 255] in
  let dst := [7; 7; 7; 7; 7; 7] in
  (GDT_Int16 ∈ GWK_exact_types /\ is_bytes src /\
   0 <= 2 /\ 2 * 2 + 1 <= INT_MAX /\
   pixel_bytes GDT_Int16 * (2 + 1) <= Z.of_nat (length dst) /\
   GWKGetPixelValue_band GDT_Int16 src 1 = Some ((-1)%float, 0%float) /\
   GWKSetPixelValue_band (ind := Scenario.x86_64) GDT_Int16 dst 2
                         (-1)%float 0%float
   = Some [7; 7; 7; 7; 255; 255]) /\
  (exists dfReal dfImag dst',
      GWKGetPixelValue_band GDT_Int16 src 1 = Some (dfReal, dfImag) /\
      GWKSetPixelValue_band (ind := Scenario.x86_64) GDT_Int16 dst 2
                            dfReal dfImag = Some dst' /\
      GWKGetPixelValue_band GDT_Int16 dst' 2 = Some (dfReal, dfImag) /\
      buffer_agrees (2 * pixel_bytes GDT_Int16)
                    ((2 + 1) * pixel_bytes GDT_Int16) dst dst').
Proof.
  assert (HT : GDT_Int16 ∈ GWK_exact_types).
  { unfold GWK_exact_types. right. right. left. }
  assert (Hsrc : is_bytes [52; 18; 255; 255]).
  { unfold is_bytes. repeat constructor; lia. }
  split.
  - split; [exact HT|]. split; [exact Hsrc|].
    repeat split; try (vm_compute; reflexivity); try discriminate.
  - apply (GWK_pixel_copy_is_exact Scenario.x86_64 GDT_Int16
             [52; 18; 255; 255] [7; 7; 7; 7; 7; 7] 1 2 HT Hsrc).
    + lia.
    + unfold INT_MAX. simpl. lia.
    + simpl. lia.
Defined.

(** X15.  Int32 is not among these types: whatever Int32 value
    [GWKGetPixelValue] reads from a source band, [GWKSetPixelValue]
    stores 0 for it, because every Int32 value is below the bound
    2147483648.0 with which the Int32 case compares first. *)
Theorem GWK_pixel_copy_of_Int32_stores_zero :
  forall (ind : Indeterminate) (src dst : list Z)
         (iSrcOffset iDstOffset : Z),
    exists dfReal dfImag,
      GWKGetPixelValue_band GDT_Int32 src iSrcOffset = Some (dfReal, dfImag) /\
      GWKSetPixelValue_band GDT_Int32 dst iDstOffset dfReal dfImag
      = Some (store_int 4 dst iDstOffset 0).
Proof.
  intros ind src dst iSrcOffset iDstOffset.
  eexists. eexists. split; [reflexivity|].
  apply (GWK_copy_Int32 src dst iSrcOffset iDstOffset). reflexivity.
Qed.

(* ================================================================== *)
(** * What the transformer returns                                  *)
(* ================================================================== *)

Section Returns.
Context {T P : Type} {ind : Indeterminate}.

Local Abbreviation Kernel := (GDALWarpKernel T P).
Local Abbreviation State := (@GWKState T P).

Variable bOverall :
  T -> bool -> Z -> list float -> list float -> list float -> list Z -> bool.

(** The kernel whose transformer returns what [bOverall] says. *)
Local Abbreviation swapped k :=
  (with_pfnTransformer k (returning bOverall (pfnTransformer k))).

Lemma without_returns_app (tr1 tr2 : list event) :
  without_returns (tr1 ++ tr2) = without_returns tr1 ++ without_returns tr2.
Proof. apply fmap_app. Qed.

Lemma same_but_returns_emit (e e' : event) (st st' : State) :
  without_returns [e'] = without_returns [e] ->
  same_but_returns bOverall st st' ->
  same_but_returns bOverall (emit e st) (emit e' st').
Proof.
  intros Hee (Hk & He & Hs & Ht). unfold same_but_returns, emit. simpl.
  repeat split; try assumption.
  rewrite !without_returns_app, Ht, Hee. reflexivity.
Qed.

Lemma GWKSetPixelValue_swapped (k : Kernel) (iBand iDstOffset : Z)
    (d r i : float) :
  (GWKSetPixelValue (swapped k) iBand iDstOffset d r i).2
  = swapped (GWKSetPixelValue k iBand iDstOffset d r i).2.
Proof.
  unfold GWKSetPixelValue. simpl.
  destruct (GWKSetPixelValue_band _ _ _ _ _); reflexivity.
Qed.

(** The work on a band does not look at the transformer. *)
Lemma same_but_returns_band (iSrcOffset iDstOffset iBand : Z)
    (st st' : State) :
  same_but_returns bOverall st st' ->
  same_but_returns bOverall (GWK_band iSrcOffset iDstOffset iBand st)
                            (GWK_band iSrcOffset iDstOffset iBand st').
Proof.
  intros HR. pose proof HR as (Hk & He & Hs & Ht).
  assert (H00 : (0 =? 0)%float = true) by reflexivity.
  unfold GWK_band. rewrite Hk.
  change (eResample (swapped (wk st))) with (eResample (wk st)).
  destruct (eResample (wk st)); cbv zeta; rewrite ?H00; try exact HR.
  change (GWKGetPixelValue (swapped (wk st)) iBand iSrcOffset 0 0 0)
    with (GWKGetPixelValue (wk st) iBand iSrcOffset 0 0 0).
  destruct (GWKGetPixelValue (wk st) iBand iSrcOffset 0 0 0)
    as [ok [[d r] i]].
  assert (HR1 : same_but_returns bOverall
                  (emit (EvGetPixel iBand iSrcOffset) st)
                  (emit (EvGetPixel iBand iSrcOffset) st'))
    by (apply same_but_returns_emit; [reflexivity|exact HR]).
  destruct (d =? 0)%float; [exact HR1|].
  pose proof (GWKSetPixelValue_swapped (wk st) iBand iDstOffset d r i) as Hset.
  destruct (GWKSetPixelValue (swapped (wk st)) iBand iDstOffset d r i)
    as [b1 k1].
  destruct (GWKSetPixelValue (wk st) iBand iDstOffset d r i) as [b2 k2].
  simpl in Hset. subst k1.
  apply same_but_returns_emit; [reflexivity|].
  destruct HR1 as (_ & He1 & Hs1 & Ht1).
  unfold same_but_returns, set_wk. simpl. simpl in He1, Hs1, Ht1.
  repeat split; assumption.
Qed.

(** The work on a pixel does not look at the transformer. *)
Lemma same_but_returns_pixel (w : Z) (padfX padfY : list float)
    (iDstY iDstX : Z) (st st' : State) :
  same_but_returns bOverall st st' ->
  same_but_returns bOverall (GWK_pixel w padfX padfY iDstY iDstX st)
                            (GWK_pixel w padfX padfY iDstY iDstX st').
Proof.
  intros HR. pose proof HR as (Hk & He & Hs & Ht).
  unfold GWK_pixel. rewrite Hs, Hk.
  cbn [nSrcXOff nSrcYOff nSrcXSize nSrcYSize nDstXSize nBands panDstValid
       with_pfnTransformer].
  destruct (_ =? 0); [exact HR|].
  destruct (_ || _); [exact HR|].
  destruct (_ || _); [exact HR|].
  destruct (match panDstValid (wk st) with Some _ => _ | None => _ end);
    [exact HR|].
  apply for_upto_rel; [exact HR|].
  intros i a b _ Hab. apply same_but_returns_band. exact Hab.
Qed.

(** The call of the transformer leaves the same arrays, context and
    flags whatever it returns. *)
Lemma same_but_returns_transform (iDstY : Z) (st st' : State) :
  same_but_returns bOverall st st' ->
  (GWK_transform iDstY st').1 = (GWK_transform iDstY st).1 /\
  same_but_returns bOverall (GWK_transform iDstY st).2
                            (GWK_transform iDstY st').2.
Proof.
  intros (Hk & He & Hs & Ht). unfold GWK_transform. rewrite Hk, Hs.
  cbn. split; [reflexivity|].
  unfold same_but_returns. cbn. repeat split; try assumption.
  rewrite !without_returns_app, Ht. reflexivity.
Qed.

Lemma same_but_returns_progress (iDstY : Z) (st st' : State) :
  same_but_returns bOverall st st' ->
  (GWK_progress iDstY st').1 = (GWK_progress iDstY st).1 /\
  same_but_returns bOverall (GWK_progress iDstY st).2
                            (GWK_progress iDstY st').2.
Proof.
  intros (Hk & He & Hs & Ht). unfold GWK_progress. rewrite Hk.
  change (GWK_fraction (swapped (wk st)) iDstY)
    with (GWK_fraction (wk st) iDstY).
  cbn [pfnProgress pProgress with_pfnTransformer].
  destruct (pfnProgress (wk st) _ _ _) as [b pArg]. cbn.
  split; [reflexivity|].
  unfold same_but_returns. cbn. repeat split; try assumption.
  rewrite !without_returns_app, Ht. reflexivity.
Qed.

Lemma same_but_returns_failure (st st' : State) :
  same_but_returns bOverall st st' ->
  same_but_returns bOverall
    (set_eErr CE_Failure
       (emit (EvError CE_Failure CPLE_UserInterrupt "User terminated"%string)
             st))
    (set_eErr CE_Failure
       (emit (EvError CE_Failure CPLE_UserInterrupt "User terminated"%string)
             st')).
Proof.
  intros (Hk & He & Hs & Ht). unfold same_but_returns. cbn.
  repeat split; try assumption.
  rewrite !without_returns_app, Ht. reflexivity.
Qed.

Lemma same_but_returns_report (iDstY : Z) (st st' : State) :
  same_but_returns bOverall st st' ->
  same_but_returns bOverall (GWK_report iDstY st) (GWK_report iDstY st').
Proof.
  intros HR. unfold GWK_report.
  destruct (same_but_returns_progress iDstY st st' HR) as [Hb HR'].
  destruct (GWK_progress iDstY st) as [b s1].
  destruct (GWK_progress iDstY st') as [b' s1'].
  simpl in Hb, HR'. subst b'.
  destruct b; [exact HR'|]. apply same_but_returns_failure. exact HR'.
Qed.

Lemma same_but_returns_scanline (w iDstY : Z) (st st' : State) :
  same_but_returns bOverall st st' ->
  same_but_returns bOverall (GWK_scanline w iDstY st)
                            (GWK_scanline w iDstY st').
Proof.
  intros HR. pose proof HR as (Hk & _).
  assert (HW : nDstXSize (wk st') = nDstXSize (wk st))
    by (rewrite Hk; reflexivity).
  unfold GWK_scanline. cbv zeta. rewrite HW.
  destruct (same_but_returns_transform iDstY st st' HR) as [Harr HR1].
  destruct (GWK_transform iDstY st) as [[padfX padfY] st1].
  destruct (GWK_transform iDstY st') as [[padfX' padfY'] st1'].
  simpl in Harr, HR1. injection Harr as -> ->.
  apply same_but_returns_report.
  apply for_upto_rel; [exact HR1|].
  intros i a b _ Hab. apply same_but_returns_pixel. exact Hab.
Qed.

Lemma same_but_returns_line (iDstY : Z) (st st' : State) :
  same_but_returns bOverall st st' ->
  same_but_returns bOverall (GWK_line iDstY st) (GWK_line iDstY st').
Proof.
  intros HR. pose proof HR as (Hk & He & _).
  assert (Hw : GWK_nResWinSize (wk st') = GWK_nResWinSize (wk st))
    by (rewrite Hk; reflexivity).
  unfold GWK_line. rewrite He, Hw.
  destruct (eErr st); [|exact HR].
  apply same_but_returns_scanline. exact HR.
Qed.

(** A whole run is the same whatever the transformer returns. *)
Lemma same_but_returns_run (k : Kernel) :
  same_but_returns bOverall (GWKGeneralCase k) (GWKGeneralCase (swapped k)).
Proof.
  unfold GWKGeneralCase.
  assert (HR0 : same_but_returns bOverall
                  {| wk := k; eErr := CE_None; pabSuccess := [];
                     trace := [] |}
                  {| wk := swapped k; eErr := CE_None; pabSuccess := [];
                     trace := [] |})
    by (unfold same_but_returns; cbn; repeat split).
  destruct (same_but_returns_progress stack_garbage _ _ HR0) as [Hb HR1].
  destruct (GWK_progress stack_garbage {| wk := k |}) as [b s1].
  destruct (GWK_progress stack_garbage {| wk := swapped k |}) as [b' s1'].
  simpl in Hb, HR1. subst b'.
  destruct b; cbn [negb].
  2:{ apply same_but_returns_failure. exact HR1. }
  change (nDstXSize (swapped k)) with (nDstXSize k).
  set (S0 := heap_garbage <$> seq 0 (Z.to_nat (nDstXSize k))).
  repeat (apply same_but_returns_emit; [reflexivity|]).
  unfold GWK_lines.
  match goal with
  | |- same_but_returns _ (for_upto _ _ ?a) (for_upto _ _ ?b) =>
      assert (HR2 : same_but_returns bOverall a b)
  end.
  { destruct HR1 as (Hk & He & _ & Ht).
    unfold same_but_returns, set_pabSuccess, without_returns in *. cbn.
    repeat split; try assumption.
    rewrite !fmap_app, Ht. reflexivity. }
  pose proof HR2 as (Hk2 & _).
  match goal with
  | |- same_but_returns _ (for_upto ?n _ _) (for_upto ?n' _ _) =>
      replace n' with n by (rewrite Hk2; reflexivity)
  end.
  apply for_upto_rel; [exact HR2|].
  intros i a b _ Hab. apply same_but_returns_line. exact Hab.
Qed.

End Returns.

Section Failures.
Context {T P : Type} {ind : Indeterminate}.

Local Abbreviation Kernel := (GDALWarpKernel T P).
Local Abbreviation State := (@GWKState T P).

(** The only error that a run reports is the cancellation by the progress
    callback. *)
Lemma GWKGeneralCase_errors (k : Kernel) :
  let res := GWKGeneralCase k in
  eErr res = CE_None /\ errors (trace res) = [] \/
  eErr res = CE_Failure /\ errors (trace res) = [user_terminated] /\
  false ∈ answers (trace res).
Proof.
  cbv zeta.
  destruct (GWKGeneralCase_runs k)
    as [(_ & Hcb & He & Her & _)
       |[(_ & He & Her & _)|(R & _ & Hcb & He & Her & _)]];
    cbv zeta in *.
  - right. split; [exact He|]. split; [exact Her|].
    rewrite answers_callbacks, Hcb. simpl. left.
  - left. auto.
  - right. split; [exact He|]. split; [exact Her|].
    rewrite answers_callbacks, Hcb.
    apply list_elem_of_omap.
    exists (CallProgress (GWK_fraction k R) false). split; [|reflexivity].
    right. apply elem_of_app. right. right. left.
Qed.

(** In every run, cancelled or not, a pixel whose success flag the
    transformer left at zero is kept. *)
Lemma GWKGeneralCase_skips (k : Kernel)
    (iDstX iDstY : Z) (bOverall : bool) (panSuccess : list Z) :
  dst_fits k ->
  (iDstY, bOverall, panSuccess) ∈ transformer_calls (trace (GWKGeneralCase k)) ->
  0 <= iDstX < nDstXSize k ->
  at_index 0 panSuccess iDstX = 0 ->
  image_keeps (pixel_lo k iDstX iDstY) (pixel_hi k iDstX iDstY)
              (papabyDstImage k) (papabyDstImage (wk (GWKGeneralCase k))).
Proof.
  intros Hfit Hin Hx Hfail.
  destruct (GWK_answer stack_garbage (GWK_init k)) eqn:Hb0.
  2:{ destruct (GWKGeneralCase_refused_run k Hb0) as (Ht & _).
      cbv zeta in Ht. rewrite Ht in Hin. inversion Hin. }
  rewrite (GWKGeneralCase_entered k Hb0) in *.
  destruct (GWK_entry_facts k Hb0) as (Hk0 & _).
  destruct (GWK_exit_facts (GWK_lines (GWK_entry k))) as (Hk1 & _).
  cbv zeta in *. rewrite Hk1. rewrite GWK_exit_calls in Hin.
  unfold GWK_lines in *.
  assert (HH : nDstYSize (wk (GWK_entry k)) = nDstYSize k)
    by (rewrite Hk0; reflexivity).
  rewrite HH in *.
  destruct (Z.le_gt_cases 0 (nDstYSize k)) as [Hn|Hn].
  - destruct (GWK_lines_skip k iDstX (GWK_entry k)) as (_ & _ & Hskip);
      try assumption.
    + rewrite Hk0. reflexivity.
    + rewrite Hk0. reflexivity.
    + apply GWK_entry_calls.
    + apply (Hskip iDstY bOverall panSuccess Hin). exact Hfail.
  - rewrite for_upto_nonpos in Hin by lia.
    rewrite GWK_entry_calls in Hin. inversion Hin.
Qed.

(** What a run leaves is the same whatever the transformer returns. *)
Lemma GWKGeneralCase_ignores_returns (k : Kernel)
    (bOverall : T -> bool -> Z -> list float -> list float -> list float ->
                list Z -> bool) :
  let res := GWKGeneralCase k in
  let res' := GWKGeneralCase
                (with_pfnTransformer k
                   (returning bOverall (pfnTransformer k))) in
  eErr res' = eErr res /\
  papabyDstImage (wk res') = papabyDstImage (wk res) /\
  pTransformerArg (wk res') = pTransformerArg (wk res) /\
  pProgress (wk res') = pProgress (wk res) /\
  without_returns (trace res') = without_returns (trace res).
Proof.
  cbv zeta.
  destruct (same_but_returns_run bOverall k) as (Hk & He & _ & Ht).
  rewrite Hk. repeat split; assumption.
Qed.

End Failures.

(** C6 (amended).  A transformer that returns overall false does not make
    the warp abort or report an error, because its return value is
    ignored: whatever the transformer returns, the warp gives the same
    result, the same destination image, the same contexts and the same
    log but for the return values recorded in it.  The only error that a
    warp reports is the cancellation by the progress callback, and when
    the progress callback never cancels the warp returns [CE_None] after
    one call of the transformer for every line.  Failures of single
    points are not errors either, and a line is worked on by the flags of
    its points.  In a destination window that an [int] can index, a point
    whose flag the transformer left at zero is skipped in every run, also
    a cancelled one: the bytes of its destination pixel are, in every
    band, those from before the warp.  And in a job of [copy_job] (the
    nearest neighbour resampling of one of the types Byte, UInt16, Int16,
    UInt32, CInt16, CInt32, Float64 and CFloat64, on band buffers that
    hold the windows) with a source window that an [int] can index and a
    transformer that leaves coordinates that an [int] can hold, which
    nobody cancels, the arrays that the call for a line leaves decide its
    pixels, whatever the call returned: a flagged point that lies in the
    source window gets the value of its source pixel when the destination
    validity plane lets it through and [GWKGetPixelValue] returns TRUE,
    every other pixel keeps its bytes. *)
Theorem C6_transformer_failures_are_not_errors :
  forall (T P : Type) (ind : Indeterminate) (k : GDALWarpKernel T P),
    dst_fits k ->
    let res := PerformWarp k in
    (forall bOverall,
        let res' := PerformWarp
                      (with_pfnTransformer k
                         (returning bOverall (pfnTransformer k))) in
        eErr res' = eErr res /\
        papabyDstImage (wk res') = papabyDstImage (wk res) /\
        pTransformerArg (wk res') = pTransformerArg (wk res) /\
        pProgress (wk res') = pProgress (wk res) /\
        without_returns (trace res') = without_returns (trace res)) /\
    (eErr res = CE_None /\ errors (trace res) = [] \/
     eErr res = CE_Failure /\ errors (trace res) = [user_terminated] /\
     false ∈ answers (trace res)) /\
    (never_cancels k ->
     eErr res = CE_None /\
     callbacks (trace res)
     = CallProgress (GWK_fraction k stack_garbage) true ::
       line_calls k (nDstYSize k)) /\
    (forall iDstX iDstY bOverall panSuccess,
        (iDstY, bOverall, panSuccess) ∈ transformer_calls (trace res) ->
        0 <= iDstX < nDstXSize k ->
        at_index 0 panSuccess iDstX = 0 ->
        image_keeps (pixel_lo k iDstX iDstY) (pixel_hi k iDstX iDstY)
                    (papabyDstImage k) (papabyDstImage (wk res))) /\
    (copy_job k -> src_fits k -> transformer_in_range k -> never_cancels k ->
     transformer_calls (trace res)
     = GWK_run_call k <$> seqZ 0 (nDstYSize k) /\
     forall iDstY iDstX iBand,
       0 <= iDstY < nDstYSize k ->
       0 <= iDstX < nDstXSize k -> 0 <= iBand < nBands k ->
       masked_nearest_pixel k (GWK_run_x k iDstY) (GWK_run_y k iDstY)
         (GWK_run_success k iDstY) iDstX iDstY iBand
         (papabyDstImage (wk res))).
Proof.
  intros T P ind k Hfit res. subst res.
  split; [|split; [|split; [|split]]].
  - intros bOverall. apply GWKGeneralCase_ignores_returns.
  - apply GWKGeneralCase_errors.
  - intros Hnc.
    destruct (GWKGeneralCase_continue k Hnc) as (_ & He & Hcb & _).
    split; assumption.
  - intros iDstX iDstY bOverall panSuccess Hin Hx Hfail.
    exact (GWKGeneralCase_skips k iDstX iDstY bOverall panSuccess
             Hfit Hin Hx Hfail).
  - intros Hjob Hsrc Htr Hnc.
    destruct (GWK_warp_masked k Hjob Hfit Hsrc Htr Hnc) as (_ & Hcalls & Hpix).
    split; assumption.
Qed.

Lemma C6_transformer_failures_are_not_errors_witness :
  let k := Scenario.S1_half_failing in
  let res := PerformWarp (ind := Scenario.x86_64) k in
  (dst_fits k /\ copy_job k /\ src_fits k /\ transformer_in_range k /\
   never_cancels k) /\
  (transformer_calls (trace res)
   = [(0, false, [1; 0; 1; 0]); (1, false, [1; 0; 1; 0]);
      (2, false, [1; 0; 1; 0]); (3, false, [1; 0; 1; 0])] /\
   papabyDstImage (wk res)
   = [[0; 0; 2; 0; 4; 0; 6; 0; 8; 0; 10; 0; 12; 0; 14; 0]]) /\
  ((forall bOverall,
       let res' := PerformWarp (ind := Scenario.x86_64)
                     (with_pfnTransformer k
                        (returning bOverall (pfnTransformer k))) in
       eErr res' = eErr res /\
       papabyDstImage (wk res') = papabyDstImage (wk res) /\
       pTransformerArg (wk res') = pTransformerArg (wk res) /\
       pProgress (wk res') = pProgress (wk res) /\
       without_returns (trace res') = without_returns (trace res)) /\
   (eErr res = CE_None /\ errors (trace res) = [] \/
    eErr res = CE_Failure /\ errors (trace res) = [user_terminated] /\
    false ∈ answers (trace res)) /\
   (never_cancels k ->
    eErr res = CE_None /\
    callbacks (trace res)
    = CallProgress (GWK_fraction k (@stack_garbage Scenario.x86_64)) true ::
      line_calls k (nDstYSize k)) /\
   (forall iDstX iDstY bOverall panSuccess,
       (iDstY, bOverall, panSuccess) ∈ transformer_calls (trace res) ->
       0 <= iDstX < nDstXSize k ->
       at_index 0 panSuccess iDstX = 0 ->
       image_keeps (pixel_lo k iDstX iDstY) (pixel_hi k iDstX iDstY)
                   (papabyDstImage k) (papabyDstImage (wk res))) /\
   (copy_job k -> src_fits k -> transformer_in_range k -> never_cancels k ->
    transformer_calls (trace res)
    = GWK_run_call (ind := Scenario.x86_64) k <$> seqZ 0 (nDstYSize k) /\
    forall iDstY iDstX iBand,
      0 <= iDstY < nDstYSize k ->
      0 <= iDstX < nDstXSize k -> 0 <= iBand < nBands k ->
      masked_nearest_pixel k (GWK_run_x (ind := Scenario.x86_64) k iDstY)
        (GWK_run_y (ind := Scenario.x86_64) k iDstY)
        (GWK_run_success (ind := Scenario.x86_64) k iDstY)
        iDstX iDstY iBand (papabyDstImage (wk res)))).
Proof.
  assert (Hfit : dst_fits Scenario.S1_half_failing)
    by (unfold dst_fits; simpl; lia).
  assert (Hjob : copy_job Scenario.S1_half_failing).
  { unfold copy_job, GWK_exact_types. simpl.
    repeat split; try lia.
    - left.
    - repeat constructor. simpl. lia.
    - constructor; [|constructor]. unfold is_bytes. apply Forall_forall.
      intros b Hb. apply elem_of_seqZ in Hb. lia. }
  assert (Hsrc : src_fits Scenario.S1_half_failing).
  { unfold src_fits, INT_MAX. simpl. lia. }
  assert (Htr : transformer_in_range Scenario.S1_half_failing).
  { intros pArg S iDstY iDstX Hy Hx _.
    change (nDstYSize Scenario.S1_half_failing) with 4 in Hy.
    change (nDstXSize Scenario.S1_half_failing) with 4 in Hx.
    assert (Hy' : iDstY = 0 \/ iDstY = 1 \/ iDstY = 2 \/ iDstY = 3) by lia.
    assert (Hx' : iDstX = 0 \/ iDstX = 1 \/ iDstX = 2 \/ iDstX = 3) by lia.
    destruct Hy' as [->|[->|[->| ->]]]; destruct Hx' as [->|[->|[->| ->]]];
      split; eexists;
      (split; [vm_compute; reflexivity|vm_compute; split; discriminate]). }
  assert (Hnc : never_cancels Scenario.S1_half_failing)
    by (intros f s p; reflexivity).
  split; [auto 6|].
  split; [split; vm_compute; reflexivity|].
  exact (C6_transformer_failures_are_not_errors
           unit unit Scenario.x86_64 Scenario.S1_half_failing Hfit).
Defined.
